(** * form-from-schema: the form validation engine and the JSON Schema converter

    A shallow embedding of [lib/form.go] (the [Form]/[Field] tree and
    [Form.Validate]) and of [lib/schemas/jsonschema/convert.go] (the
    schema-to-form converter), with the properties of the specification that
    concern them.

    Conventions of the embedding.
    - Go strings are byte strings ([string]); [int] values are [Z] (they are
      only compared, never computed with); [float64] values are the kernel's
      binary64 floats, so that comparisons behave as in Go, NaN included.
    - A pointer that may be nil is an [option]; [error] is [option Violation]
      with [None] for Go's nil error.
    - A [map[string]bool] used as a set is a [gset string]; the scope tables
      that [validateField] mutates in place are threaded explicitly.
    - A [map[string]*Schema] that the converter ranges over is an association
      list in the order in which the range statement yields its entries. *)

From Stdlib Require Import Ascii Floats DecimalString ZArith Permutation.
From stdpp Require Import gmap strings list.

Set Warnings "-register-all,-clear-no-such-hyp".
Open Scope string_scope.

(** ** Library functions of Go used by the code

    [strings.ToUpper], [strings.ToLower] (Unicode case mappings) and the
    [%v] rendering of a [float64] belong to Go's standard library; the
    development is parametric in them. *)

Class GoLib := {
  strings_ToUpper : string → string;
  strings_ToLower : string → string;
  strconv_FormatFloat : float → string
}.

(** [%d] on an index and on an [int]. *)
Definition itoa (n : nat) : string := NilEmpty.string_of_uint (Nat.to_uint n).
Definition ztoa (z : Z) : string := NilZero.string_of_int (Z.to_int z).

(** ** Opaque scalar values ([any])

    The values held by [Option.Value], [Field.Default], [Field.Value],
    [Schema.Const] and [Schema.Enum]: nil, booleans, strings, Go ints (built
    by a caller) and float64 (every JSON number after decoding). The arrays
    and objects that JSON also allows there are left out. *)

Inductive any :=
| ANil
| ABool (b : bool)
| AString (s : string)
| AInt (z : Z)
| AFloat (x : float).

(** [fmt.Sprintf("%v", v)]. *)
Definition Sprint `{GoLib} (v : any) : string :=
  match v with
  | ANil => "<nil>"
  | ABool true => "true"
  | ABool false => "false"
  | AString s => s
  | AInt z => ztoa z
  | AFloat x => strconv_FormatFloat x
  end.

(** ** The form tree ([lib/form.go]) *)

Definition FieldType := string.

Definition FieldTypeText : FieldType := "text".
Definition FieldTypeEmail : FieldType := "email".
Definition FieldTypePassword : FieldType := "password".
Definition FieldTypeNumber : FieldType := "number".
Definition FieldTypeTel : FieldType := "tel".
Definition FieldTypeURL : FieldType := "url".
Definition FieldTypeDate : FieldType := "date".
Definition FieldTypeTime : FieldType := "time".
Definition FieldTypeDateTime : FieldType := "datetime-local".
Definition FieldTypeMonth : FieldType := "month".
Definition FieldTypeWeek : FieldType := "week".
Definition FieldTypeTextarea : FieldType := "textarea".
Definition FieldTypeSelect : FieldType := "select".
Definition FieldTypeCheckbox : FieldType := "checkbox".
Definition FieldTypeRadio : FieldType := "radio".
Definition FieldTypeFile : FieldType := "file".
Definition FieldTypeHidden : FieldType := "hidden".
Definition FieldTypeObject : FieldType := "object".
Definition FieldTypeArray : FieldType := "array".

Record Option := mkOption {
  Option_Label : string;
  Option_Value : any
}.

Record Validation := mkValidation {
  Validation_Required : bool;
  Validation_MinLength : option Z;
  Validation_MaxLength : option Z;
  Validation_Min : option float;
  Validation_Max : option float;
  Validation_Pattern : string;
  Validation_PatternError : string;
  Validation_Step : option float;
  Validation_MinItems : option Z;
  Validation_MaxItems : option Z
}.

Inductive Field := mkField {
  Field_Name : string;
  Field_Type : FieldType;
  Field_Label : string;
  Field_Description : string;
  Field_Placeholder : string;
  Field_Default : any;
  Field_Value : any;
  Field_Options : list Option;
  Field_Validation : option Validation;
  Field_ReadOnly : bool;
  Field_Deprecated : bool;
  Field_Fields : list Field;
  Field_Conditional : option ConditionalField;
  Field_HelpText : string
}
with ConditionalField := mkConditionalField {
  ConditionalField_Condition : string;
  ConditionalField_Value : any;
  ConditionalField_Then : list Field;
  ConditionalField_Else : list Field
}.

Record Form := mkForm {
  Form_Title : string;
  Form_Description : string;
  Form_Action : string;
  Form_Method : string;
  Form_Fields : list Field
}.

(** ** Violations

    One constructor per [fmt.Errorf] call of [lib/form.go], with the values
    the message is formatted from. *)

Inductive Bound := MinLength | MaxLength | MinItems | MaxItems.

Inductive RuleGroup := LengthRules | RangeRules | ItemRules.

Inductive Violation :=
| FormNil
| NoFields
| InvalidMethod (method : string)
| FieldNil (path : string)
| InvalidName (path name : string)
| ReservedName (path name : string)
| DuplicateName (path name : string)
| InvalidType (path : string) (ty : FieldType)
| OptionsRequired (path : string) (ty : FieldType)
| DuplicateOption (path value : string) (index : nat)
| OptionsForbidden (path : string) (ty : FieldType)
| NegativeBound (path : string) (b : Bound)
| LengthOrder (path : string) (lo hi : Z)
| RangeOrder (path : string) (lo hi : float)
| ItemsOrder (path : string) (lo hi : Z)
| StepNotPositive (path : string) (step : float)
| NotApplicable (path : string) (g : RuleGroup) (ty : FieldType)
| ConditionEmpty (path : string)
| ConditionUnknown (path name : string)
| NestedNotContainer (path : string) (ty : FieldType).

Definition error := option Violation.

Definition bound_name (b : Bound) : string :=
  match b with
  | MinLength => "minLength"
  | MaxLength => "maxLength"
  | MinItems => "minItems"
  | MaxItems => "maxItems"
  end.

Definition group_name (g : RuleGroup) : string :=
  match g with
  | LengthRules => "minLength/maxLength"
  | RangeRules => "min/max/step"
  | ItemRules => "minItems/maxItems"
  end.

(** The message of a violation: the string [fmt.Errorf] builds. *)
Definition Error `{GoLib} (e : Violation) : string :=
  match e with
  | FormNil => "form cannot be nil"
  | NoFields => "form must have at least one field"
  | InvalidMethod m =>
      "invalid HTTP method: " ++ m
      ++ " (must be one of: GET, POST, PUT, PATCH, DELETE, HEAD, OPTIONS)"
  | FieldNil p => p ++ ": field cannot be nil"
  | InvalidName p n =>
      p ++ ": invalid field name '" ++ n
      ++ "' (must start with letter/underscore and contain only letters, digits, underscores, hyphens, and dots)"
  | ReservedName p n =>
      p ++ ": field name '" ++ n ++ "' is reserved and cannot be used"
  | DuplicateName p n =>
      p ++ ": duplicate field name '" ++ n ++ "' at the same level"
  | InvalidType p t => p ++ ": invalid field type '" ++ t ++ "'"
  | OptionsRequired p t =>
      p ++ ": field type '" ++ t ++ "' requires at least one option"
  | DuplicateOption p v i =>
      p ++ ": duplicate option value '" ++ v ++ "' at options[" ++ itoa i ++ "]"
  | OptionsForbidden p t =>
      p ++ ": field type '" ++ t ++ "' cannot have options"
  | NegativeBound p b =>
      p ++ ": validation." ++ bound_name b ++ " cannot be negative"
  | LengthOrder p lo hi =>
      p ++ ": validation.minLength (" ++ ztoa lo
      ++ ") cannot be greater than maxLength (" ++ ztoa hi ++ ")"
  | RangeOrder p lo hi =>
      p ++ ": validation.min (" ++ strconv_FormatFloat lo
      ++ ") cannot be greater than max (" ++ strconv_FormatFloat hi ++ ")"
  | ItemsOrder p lo hi =>
      p ++ ": validation.minItems (" ++ ztoa lo
      ++ ") cannot be greater than maxItems (" ++ ztoa hi ++ ")"
  | StepNotPositive p x =>
      p ++ ": validation.step must be positive, got " ++ strconv_FormatFloat x
  | NotApplicable p g t =>
      p ++ ": validation rules " ++ group_name g
      ++ " are not applicable for field type '" ++ t ++ "'"
  | ConditionEmpty p =>
      p ++ ": conditional field must specify a condition field name"
  | ConditionUnknown p n =>
      p ++ ": conditional field references non-existent field '" ++ n ++ "'"
  | NestedNotContainer p t =>
      p ++ ": fields with nested Fields must have type 'object' or 'array', got '"
      ++ t ++ "'"
  end.

(** The taxonomy of the specification's error-handling section. It does not
    place the invalid method and the nil field; they are counted with the
    structural errors here. *)
Inductive ErrorClass :=
  StructuralError | NameError | KindError | ConstraintError | ReferenceError.

Definition error_class (e : Violation) : ErrorClass :=
  match e with
  | FormNil | NoFields | InvalidMethod _ | FieldNil _ => StructuralError
  | InvalidName _ _ | ReservedName _ _ | DuplicateName _ _ => NameError
  | InvalidType _ _ | NestedNotContainer _ _ => KindError
  | OptionsRequired _ _ | DuplicateOption _ _ _ | OptionsForbidden _ _
  | NegativeBound _ _ | LengthOrder _ _ _ | RangeOrder _ _ _
  | ItemsOrder _ _ _ | StepNotPositive _ _ | NotApplicable _ _ _ =>
      ConstraintError
  | ConditionEmpty _ | ConditionUnknown _ _ => ReferenceError
  end.

(** The path a violation is reported at (empty for the form-level ones). *)
Definition error_path (e : Violation) : string :=
  match e with
  | FormNil | NoFields | InvalidMethod _ => ""
  | FieldNil p | InvalidName p _ | ReservedName p _ | DuplicateName p _
  | InvalidType p _ | OptionsRequired p _ | DuplicateOption p _ _
  | OptionsForbidden p _ | NegativeBound p _ | LengthOrder p _ _
  | RangeOrder p _ _ | ItemsOrder p _ _ | StepNotPositive p _
  | NotApplicable p _ _ | ConditionEmpty p | ConditionUnknown p _
  | NestedNotContainer p _ => p
  end.

(** [if err := e; err != nil { return err }; k] *)
Notation "'ensure' e ';' k" :=
  (match e with Some err => Some err | None => k end)
  (at level 10, e at level 100, k at level 200, only parsing).

(** ** The validation engine ([lib/form.go]) *)

Section Validation.
Context `{GoLib}.

Definition validMethods : gset string :=
  {[ "GET"; "POST"; "PUT"; "PATCH"; "DELETE"; "HEAD"; "OPTIONS" ]}.

Definition reservedNames : gset string :=
  {[ "submit"; "reset"; "button"; "form"; "fieldset"; "legend" ]}.

Definition validTypes : gset FieldType :=
  {[ FieldTypeText; FieldTypeEmail; FieldTypePassword; FieldTypeNumber;
     FieldTypeTel; FieldTypeURL; FieldTypeDate; FieldTypeTime;
     FieldTypeDateTime; FieldTypeMonth; FieldTypeWeek; FieldTypeTextarea;
     FieldTypeSelect; FieldTypeCheckbox; FieldTypeRadio; FieldTypeFile;
     FieldTypeHidden; FieldTypeObject; FieldTypeArray ]}.

(** The regular expression [^[a-zA-Z_][a-zA-Z0-9_.-]*$], matched against the
    whole string (Go's [$] is the end of the text). A byte outside ASCII
    belongs to neither class. *)
Definition in_range (lo hi : nat) (c : ascii) : bool :=
  (lo <=? nat_of_ascii c)%nat && (nat_of_ascii c <=? hi)%nat.

Definition is_letter (c : ascii) : bool :=
  in_range 97 122 c || in_range 65 90 c.

Definition is_digit (c : ascii) : bool := in_range 48 57 c.

Definition name_first (c : ascii) : bool :=
  is_letter c || Ascii.eqb c "_".

Definition name_rest (c : ascii) : bool :=
  is_letter c || is_digit c || Ascii.eqb c "_" || Ascii.eqb c "."
  || Ascii.eqb c "-".

Fixpoint all_bytes (p : ascii → bool) (s : string) : bool :=
  match s with
  | EmptyString => true
  | String c s' => p c && all_bytes p s'
  end.

Definition validNamePattern (s : string) : bool :=
  match s with
  | EmptyString => false
  | String c s' => name_first c && all_bytes name_rest s'
  end.

Definition validateFieldName (name path : string) : error :=
  if bool_decide (name = "") then None
  else if negb (validNamePattern name) then Some (InvalidName path name)
  else if bool_decide (strings_ToLower name ∈ reservedNames)
       then Some (ReservedName path name)
  else None.

Definition validateFieldType (fieldType : FieldType) (path : string) : error :=
  if negb (bool_decide (fieldType ∈ validTypes))
  then Some (InvalidType path fieldType)
  else None.

(** The loop over the options: [optionValues] holds the renderings seen so
    far and [i] is the index of the next option. *)
Fixpoint uniqueOptionValues (options : list Option) (i : nat)
    (optionValues : gset string) (path : string) : error :=
  match options with
  | [] => None
  | opt :: rest =>
      let optionValue := Sprint (Option_Value opt) in
      if bool_decide (optionValue ∈ optionValues)
      then Some (DuplicateOption path optionValue i)
      else uniqueOptionValues rest (S i) ({[ optionValue ]} ∪ optionValues) path
  end.

Definition is_text_like (t : FieldType) : bool :=
  bool_decide (t = FieldTypeText) || bool_decide (t = FieldTypeEmail)
  || bool_decide (t = FieldTypePassword) || bool_decide (t = FieldTypeURL)
  || bool_decide (t = FieldTypeTel) || bool_decide (t = FieldTypeTextarea).

Definition is_date_like (t : FieldType) : bool :=
  bool_decide (t = FieldTypeDate) || bool_decide (t = FieldTypeTime)
  || bool_decide (t = FieldTypeDateTime) || bool_decide (t = FieldTypeMonth)
  || bool_decide (t = FieldTypeWeek).

Definition is_choice (t : FieldType) : bool :=
  bool_decide (t = FieldTypeCheckbox) || bool_decide (t = FieldTypeRadio)
  || bool_decide (t = FieldTypeSelect).

Definition has_options (field : Field) : bool :=
  (0 <? length (Field_Options field))%nat.

Definition validateFieldTypeConstraints (field : Field) (path : string) : error :=
  let t := Field_Type field in
  ensure (if bool_decide (t = FieldTypeSelect) || bool_decide (t = FieldTypeRadio)
          then if (length (Field_Options field) =? 0)%nat
               then Some (OptionsRequired path t)
               else uniqueOptionValues (Field_Options field) 0 ∅ path
          else None);
  ensure (if bool_decide (t = FieldTypeCheckbox) && has_options field
          then uniqueOptionValues (Field_Options field) 0 ∅ path
          else None);
  ensure (if is_text_like t
          then if has_options field then Some (OptionsForbidden path t) else None
          else None);
  ensure (if bool_decide (t = FieldTypeNumber)
          then if has_options field then Some (OptionsForbidden path t) else None
          else None);
  ensure (if is_date_like t
          then if has_options field then Some (OptionsForbidden path t) else None
          else None);
  None.

(** [p != nil && *p < 0] *)
Definition negative (p : option Z) : bool :=
  match p with Some n => (n <? 0)%Z | None => false end.

(** [lo != nil && hi != nil && *lo > *hi] *)
Definition disordered (lo hi : option Z) : option (Z * Z) :=
  match lo, hi with
  | Some a, Some b => if (a >? b)%Z then Some (a, b) else None
  | _, _ => None
  end.

Definition present {A} (p : option A) : bool :=
  match p with Some _ => true | None => false end.

Definition has_length_rules (v : Validation) : bool :=
  present (Validation_MinLength v) || present (Validation_MaxLength v).

Definition has_range_rules (v : Validation) : bool :=
  present (Validation_Min v) || present (Validation_Max v)
  || present (Validation_Step v).

Definition has_item_rules (v : Validation) : bool :=
  present (Validation_MinItems v) || present (Validation_MaxItems v).

Definition validateValidationRules (validation : option Validation)
    (fieldType : FieldType) (path : string) : error :=
  match validation with
  | None => None
  | Some v =>
    ensure (if negative (Validation_MinLength v)
            then Some (NegativeBound path MinLength) else None);
    ensure (if negative (Validation_MaxLength v)
            then Some (NegativeBound path MaxLength) else None);
    ensure (match disordered (Validation_MinLength v) (Validation_MaxLength v) with
            | Some (a, b) => Some (LengthOrder path a b)
            | None => None
            end);
    ensure (match Validation_Min v, Validation_Max v with
            | Some lo, Some hi =>
                if PrimFloat.ltb hi lo then Some (RangeOrder path lo hi) else None
            | _, _ => None
            end);
    ensure (if negative (Validation_MinItems v)
            then Some (NegativeBound path MinItems) else None);
    ensure (if negative (Validation_MaxItems v)
            then Some (NegativeBound path MaxItems) else None);
    ensure (match disordered (Validation_MinItems v) (Validation_MaxItems v) with
            | Some (a, b) => Some (ItemsOrder path a b)
            | None => None
            end);
    ensure (match Validation_Step v with
            | Some step =>
                if PrimFloat.leb step 0%float
                then Some (StepNotPositive path step) else None
            | None => None
            end);
    ensure (if is_text_like fieldType
            then if has_range_rules v
                 then Some (NotApplicable path RangeRules fieldType)
                 else if has_item_rules v
                 then Some (NotApplicable path ItemRules fieldType)
                 else None
            else None);
    ensure (if bool_decide (fieldType = FieldTypeNumber)
            then if has_length_rules v
                 then Some (NotApplicable path LengthRules fieldType)
                 else if has_item_rules v
                 then Some (NotApplicable path ItemRules fieldType)
                 else None
            else None);
    ensure (if bool_decide (fieldType = FieldTypeArray)
            then if has_length_rules v
                 then Some (NotApplicable path LengthRules fieldType)
                 else if has_range_rules v
                 then Some (NotApplicable path RangeRules fieldType)
                 else None
            else None);
    ensure (if is_choice fieldType
            then if has_length_rules v
                 then Some (NotApplicable path LengthRules fieldType)
                 else if has_range_rules v
                 then Some (NotApplicable path RangeRules fieldType)
                 else if has_item_rules v
                 then Some (NotApplicable path ItemRules fieldType)
                 else None
            else None);
    None
  end.

(** [for i, field := range fields { if err := f.validateField(&field, names,
    mkpath i); err != nil { return err } }]: the three loops of the walk (in
    [Validate], over the nested fields, and over a conditional's branches).
    The table is shared by the iterations; the loop stops at the first
    violation. *)
Definition rangeFields
    (visit : Field → gset string → string → error * gset string)
    (mkpath : nat → string)
  : list Field → nat → gset string → error :=
  fix loop fields i names :=
    match fields with
    | [] => None
    | field :: rest =>
        match visit field names (mkpath i) with
        | (Some err, _) => Some err
        | (None, names') => loop rest (S i) names'
        end
    end.

Definition fieldsPath (i : nat) : string := "fields[" ++ itoa i ++ "]".
Definition nestedPath (path : string) (i : nat) : string :=
  path ++ ".fields[" ++ itoa i ++ "]".
Definition thenPath (path : string) (i : nat) : string :=
  path ++ ".conditional.then[" ++ itoa i ++ "]".
Definition elsePath (path : string) (i : nat) : string :=
  path ++ ".conditional.else[" ++ itoa i ++ "]".

Definition is_container (t : FieldType) : bool :=
  bool_decide (t = FieldTypeObject) || bool_decide (t = FieldTypeArray).

(** [parentFieldNames[field.Name] = true], for a non-empty name only. *)
Definition register (name : string) (names : gset string) : gset string :=
  if bool_decide (name = "") then names else {[ name ]} ∪ names.

(** [validateField] and [validateConditionalField]. The result pairs the
    returned error with the table [parentFieldNames] as the call leaves it.
    Every caller passes the address of a range variable, so the [nil] guards
    of the two functions are the wrappers [validateFieldPtr] and
    [validateConditionalFieldPtr] below. *)
Fixpoint validateField (field : Field) (parentFieldNames : gset string)
    (path : string) {struct field} : error * gset string :=
  match validateFieldName (Field_Name field) path with
  | Some err => (Some err, parentFieldNames)
  | None =>
    if negb (bool_decide (Field_Name field = ""))
       && bool_decide (Field_Name field ∈ parentFieldNames)
    then (Some (DuplicateName path (Field_Name field)), parentFieldNames)
    else
      let names := register (Field_Name field) parentFieldNames in
      (ensure validateFieldType (Field_Type field) path;
       ensure validateFieldTypeConstraints field path;
       ensure (match Field_Validation field with
               | Some v => validateValidationRules (Some v) (Field_Type field) path
               | None => None
               end);
       ensure (match Field_Conditional field with
               | Some conditional => validateConditionalField conditional names path
               | None => None
               end);
       if (0 <? length (Field_Fields field))%nat
       then if negb (is_container (Field_Type field))
            then Some (NestedNotContainer path (Field_Type field))
            else rangeFields validateField (nestedPath path) (Field_Fields field) 0 ∅
       else None,
       names)
  end
with validateConditionalField (conditional : ConditionalField)
    (parentFieldNames : gset string) (path : string) {struct conditional}
  : error :=
  if bool_decide (ConditionalField_Condition conditional = "")
  then Some (ConditionEmpty path)
  else if negb (bool_decide (ConditionalField_Condition conditional ∈ parentFieldNames))
  then Some (ConditionUnknown path (ConditionalField_Condition conditional))
  else
    ensure (if (0 <? length (ConditionalField_Then conditional))%nat
            then rangeFields validateField (thenPath path)
                   (ConditionalField_Then conditional) 0 ∅
            else None);
    ensure (if (0 <? length (ConditionalField_Else conditional))%nat
            then rangeFields validateField (elsePath path)
                   (ConditionalField_Else conditional) 0 ∅
            else None);
    None.

Definition validateFieldPtr (field : option Field)
    (parentFieldNames : gset string) (path : string) : error * gset string :=
  match field with
  | None => (Some (FieldNil path), parentFieldNames)
  | Some field => validateField field parentFieldNames path
  end.

Definition validateConditionalFieldPtr (conditional : option ConditionalField)
    (parentFieldNames : gset string) (path : string) : error :=
  match conditional with
  | None => None
  | Some conditional => validateConditionalField conditional parentFieldNames path
  end.

Definition validateMethod (method : string) : error :=
  if negb (bool_decide (method = ""))
  then if negb (bool_decide (strings_ToUpper method ∈ validMethods))
       then Some (InvalidMethod method)
       else None
  else None.

(** [func (f *Form) Validate() error] *)
Definition Validate (f : option Form) : error :=
  match f with
  | None => Some FormNil
  | Some f =>
      if (length (Form_Fields f) =? 0)%nat then Some NoFields
      else
        ensure validateMethod (Form_Method f);
        rangeFields validateField fieldsPath (Form_Fields f) 0 ∅
  end.

End Validation.

(** ** The invariants of a form, stated declaratively

    The invariants of the data-model section of the specification, as
    predicates on the tree. [RulesMatch] is the rule that ties the bounds of a
    validation block to the kind of its field; two readings of it follow. *)

Section Invariants.
Context `{GoLib}.
Variable RulesMatch : FieldType → Validation → Prop.

(** A name is empty, or matches the pattern and is not reserved. *)
Definition NameOk (name : string) : Prop :=
  name = "" ∨
  (validNamePattern name = true ∧ strings_ToLower name ∉ reservedNames).

(** The method is absent or, in upper case, a recognised HTTP verb. *)
Definition MethodOk (method : string) : Prop :=
  method = "" ∨ strings_ToUpper method ∈ validMethods.

(** The option values, stringified. *)
Definition rendered (options : list Option) : list string :=
  map (λ o, Sprint (Option_Value o)) options.

Definition OptionsOk (t : FieldType) (options : list Option) : Prop :=
  (t = FieldTypeSelect ∨ t = FieldTypeRadio →
     options ≠ [] ∧ NoDup (rendered options)) ∧
  (t = FieldTypeCheckbox → NoDup (rendered options)) ∧
  (is_text_like t ∨ t = FieldTypeNumber ∨ is_date_like t → options = []).

(** Bounds are not negative and ordered; a step is positive. The two float
    tests are the ones of the code: [min > max] is false, [step <= 0] is
    false. *)
Definition BoundsOk (v : Validation) : Prop :=
  (∀ n, Validation_MinLength v = Some n → (0 ≤ n)%Z) ∧
  (∀ n, Validation_MaxLength v = Some n → (0 ≤ n)%Z) ∧
  (∀ a b, Validation_MinLength v = Some a → Validation_MaxLength v = Some b →
          (a ≤ b)%Z) ∧
  (∀ lo hi, Validation_Min v = Some lo → Validation_Max v = Some hi →
            PrimFloat.ltb hi lo = false) ∧
  (∀ n, Validation_MinItems v = Some n → (0 ≤ n)%Z) ∧
  (∀ n, Validation_MaxItems v = Some n → (0 ≤ n)%Z) ∧
  (∀ a b, Validation_MinItems v = Some a → Validation_MaxItems v = Some b →
          (a ≤ b)%Z) ∧
  (∀ step, Validation_Step v = Some step → PrimFloat.leb step 0%float = false).

(** The non-empty names of a sibling list, in order. *)
Definition nonempty_names (fields : list Field) : list string :=
  filter (λ name, name ≠ "") (map Field_Name fields).

(** The names registered in the scope of [fields] when the conditional of
    its [i]-th field is checked: the non-empty names of the fields up to and
    including that field. *)
Definition visible_at (fields : list Field) (i : nat) : gset string :=
  list_to_set (nonempty_names (take (S i) fields)).

Inductive FieldOk : gset string → Field → Prop :=
| FieldOk_intro visible field :
    NameOk (Field_Name field) →
    Field_Type field ∈ validTypes →
    OptionsOk (Field_Type field) (Field_Options field) →
    (∀ v, Field_Validation field = Some v →
          BoundsOk v ∧ RulesMatch (Field_Type field) v) →
    (∀ c, Field_Conditional field = Some c → ConditionalOk visible c) →
    (Field_Fields field ≠ [] →
       is_container (Field_Type field) ∧ ScopeOk (Field_Fields field)) →
    FieldOk visible field
with ConditionalOk : gset string → ConditionalField → Prop :=
| ConditionalOk_intro visible c :
    ConditionalField_Condition c ≠ "" →
    ConditionalField_Condition c ∈ visible →
    ScopeOk (ConditionalField_Then c) →
    ScopeOk (ConditionalField_Else c) →
    ConditionalOk visible c
with ScopeOk : list Field → Prop :=
| ScopeOk_intro fields :
    NoDup (nonempty_names fields) →
    (∀ i field, fields !! i = Some field →
                FieldOk (visible_at fields i) field) →
    ScopeOk fields.

Definition FormOk (form : Form) : Prop :=
  Form_Fields form ≠ [] ∧
  MethodOk (Form_Method form) ∧
  ScopeOk (Form_Fields form).

End Invariants.

(** The kind rule as the specification words it: string bounds only for
    text-like kinds, numeric bounds only for number, item bounds only for
    array (so the choice kinds permit none). *)
Definition SpecRulesMatch (t : FieldType) (v : Validation) : Prop :=
  (has_length_rules v → is_text_like t) ∧
  (has_range_rules v → t = FieldTypeNumber) ∧
  (has_item_rules v → t = FieldTypeArray).

(** The kind rule as [validateValidationRules] tests it: a text-like field
    carries no numeric and no item bound, a number no length and no item
    bound, an array no length and no numeric bound, a choice field none; the
    other kinds are not constrained. *)
Definition CodeRulesMatch (t : FieldType) (v : Validation) : Prop :=
  (is_text_like t → ¬ has_range_rules v ∧ ¬ has_item_rules v) ∧
  (t = FieldTypeNumber → ¬ has_length_rules v ∧ ¬ has_item_rules v) ∧
  (t = FieldTypeArray → ¬ has_length_rules v ∧ ¬ has_range_rules v) ∧
  (is_choice t →
     ¬ has_length_rules v ∧ ¬ has_range_rules v ∧ ¬ has_item_rules v).

(** ** A concrete instance of the library functions

    ASCII case mapping, which is what [strings.ToUpper] and [strings.ToLower]
    do on ASCII strings; the examples below use ASCII strings only and no
    float64 option value. *)

Definition ascii_upper (c : ascii) : ascii :=
  if in_range 97 122 c then ascii_of_nat (nat_of_ascii c - 32) else c.
Definition ascii_lower (c : ascii) : ascii :=
  if in_range 65 90 c then ascii_of_nat (nat_of_ascii c + 32) else c.

Fixpoint map_bytes (f : ascii → ascii) (s : string) : string :=
  match s with
  | EmptyString => EmptyString
  | String c s' => String (f c) (map_bytes f s')
  end.

Definition asciiLib : GoLib := {|
  strings_ToUpper := map_bytes ascii_upper;
  strings_ToLower := map_bytes ascii_lower;
  strconv_FormatFloat := fun _ => "float64"
|}.

(** ** Building fields

    Struct literals with the zero value for every field not given, and the
    assignment of one field. *)

Definition newField (name : string) (t : FieldType) : Field :=
  mkField name t "" "" "" ANil ANil [] None false false [] None "".

Definition set_Options (options : list Option) (field : Field) : Field :=
  mkField (Field_Name field) (Field_Type field) (Field_Label field)
    (Field_Description field) (Field_Placeholder field) (Field_Default field)
    (Field_Value field) options (Field_Validation field)
    (Field_ReadOnly field) (Field_Deprecated field) (Field_Fields field)
    (Field_Conditional field) (Field_HelpText field).

Definition set_Validation (v : option Validation) (field : Field) : Field :=
  mkField (Field_Name field) (Field_Type field) (Field_Label field)
    (Field_Description field) (Field_Placeholder field) (Field_Default field)
    (Field_Value field) (Field_Options field) v
    (Field_ReadOnly field) (Field_Deprecated field) (Field_Fields field)
    (Field_Conditional field) (Field_HelpText field).

Definition set_Fields (fields : list Field) (field : Field) : Field :=
  mkField (Field_Name field) (Field_Type field) (Field_Label field)
    (Field_Description field) (Field_Placeholder field) (Field_Default field)
    (Field_Value field) (Field_Options field) (Field_Validation field)
    (Field_ReadOnly field) (Field_Deprecated field) fields
    (Field_Conditional field) (Field_HelpText field).

Definition set_Conditional (c : option ConditionalField) (field : Field) : Field :=
  mkField (Field_Name field) (Field_Type field) (Field_Label field)
    (Field_Description field) (Field_Placeholder field) (Field_Default field)
    (Field_Value field) (Field_Options field) (Field_Validation field)
    (Field_ReadOnly field) (Field_Deprecated field) (Field_Fields field)
    c (Field_HelpText field).

(** [&Validation{}] *)
Definition emptyValidation : Validation :=
  mkValidation false None None None None "" "" None None None.

Definition set_MinLength (n : option Z) (v : Validation) : Validation :=
  mkValidation (Validation_Required v) n (Validation_MaxLength v)
    (Validation_Min v) (Validation_Max v) (Validation_Pattern v)
    (Validation_PatternError v) (Validation_Step v) (Validation_MinItems v)
    (Validation_MaxItems v).

Definition newForm (method : string) (fields : list Field) : Form :=
  mkForm "" "" "" method fields.

(** ** The schema tree ([lib/schemas/jsonschema/schema.go])

    The text of [schema.go] stands in the sources at the end of
    [lib/targets/html/convert.go], after the tests of the converter. *)

(** [json.Unmarshal], of Go's standard library, at the two types at which
    [GetType] calls it: on a fresh [var str string] and on a fresh
    [var arr []string]. The result is the value the variable holds when the
    error returned is nil, and nothing when it is not. The development is
    parametric in the two functions. *)
Class JsonLib := {
  json_Unmarshal_string : list Byte.byte → option string;
  json_Unmarshal_strings : list Byte.byte → option (list string)
}.

(** [type Schema struct], field by field. A map is the list of its entries
    in the order in which a range statement yields them in the run
    considered (Go leaves that order unspecified), or nothing when the map is
    nil; a slice is the list of its elements, a nil slice the empty list; a
    pointer may be nil; [json.RawMessage] is a slice of bytes. *)
Inductive Schema := mkSchema {
  Schema_Schema : string;
  Schema_ID : string;
  Schema_Anchor : string;
  Schema_Ref : string;
  Schema_DynamicRef : string;
  Schema_DynamicAnchor : string;
  Schema_Vocabularies : option (list (string * bool));
  Schema_Comment : string;
  Schema_Defs : option (list (string * option Schema));
  Schema_AllOf : list (option Schema);
  Schema_AnyOf : list (option Schema);
  Schema_OneOf : list (option Schema);
  Schema_Not : option Schema;
  Schema_If : option Schema;
  Schema_Then : option Schema;
  Schema_Else : option Schema;
  Schema_DependentSchemas : option (list (string * option Schema));
  Schema_PrefixItems : list (option Schema);
  Schema_Items : option Schema;
  Schema_Contains : option Schema;
  Schema_Properties : option (list (string * option Schema));
  Schema_PatternProperties : option (list (string * option Schema));
  Schema_AdditionalProperties : option Schema;
  Schema_PropertyNames : option Schema;
  Schema_UnevaluatedItems : option Schema;
  Schema_UnevaluatedProperties : option Schema;
  Schema_Type : list Byte.byte;
  Schema_Enum : list any;
  Schema_Const : any;
  Schema_MultipleOf : option float;
  Schema_Maximum : option float;
  Schema_ExclusiveMaximum : option float;
  Schema_Minimum : option float;
  Schema_ExclusiveMinimum : option float;
  Schema_MaxLength : option Z;
  Schema_MinLength : option Z;
  Schema_Pattern : string;
  Schema_Format : string;
  Schema_ContentEncoding : string;
  Schema_ContentMediaType : string;
  Schema_ContentSchema : option Schema;
  Schema_MaxItems : option Z;
  Schema_MinItems : option Z;
  Schema_UniqueItems : option bool;
  Schema_MaxContains : option Z;
  Schema_MinContains : option Z;
  Schema_MaxProperties : option Z;
  Schema_MinProperties : option Z;
  Schema_Required : list string;
  Schema_DependentRequired : option (list (string * list string));
  Schema_Title : string;
  Schema_Description : string;
  Schema_Default : any;
  Schema_Deprecated : option bool;
  Schema_ReadOnly : option bool
}.

(** [func (s *Schema) GetType() (string, []string, bool)] *)
Definition GetType `{JsonLib} (s : Schema) : string * list string * bool :=
  if (length (Schema_Type s) =? 0)%nat then ("", [], false)
  else
    match json_Unmarshal_string (Schema_Type s) with
    | Some str => (str, [], true)
    | None =>
        match json_Unmarshal_strings (Schema_Type s) with
        | Some arr => ("", arr, true)
        | None => ("", [], false)
        end
    end.

(** The entries a range statement over a map yields; none for a nil map. *)
Definition entries {A} (m : option (list (string * A))) : list (string * A) :=
  match m with Some l => l | None => [] end.

(** ** The converter ([lib/schemas/jsonschema/convert.go]) *)

(** A Go result [(value, error)]: the value, or the message of the error. *)
Inductive result (A : Type) :=
| Ok (a : A)
| Err (msg : string).
Arguments Ok {A} a.
Arguments Err {A} msg.

Notation "'let*' x ':=' e 'in' k" :=
  (match e with Ok x => k | Err msg => Err msg end)
  (at level 10, x name, e at level 100, k at level 200, only parsing).

Definition set_Type (t : FieldType) (field : Field) : Field :=
  mkField (Field_Name field) t (Field_Label field)
    (Field_Description field) (Field_Placeholder field) (Field_Default field)
    (Field_Value field) (Field_Options field) (Field_Validation field)
    (Field_ReadOnly field) (Field_Deprecated field) (Field_Fields field)
    (Field_Conditional field) (Field_HelpText field).

Definition set_Value (v : any) (field : Field) : Field :=
  mkField (Field_Name field) (Field_Type field) (Field_Label field)
    (Field_Description field) (Field_Placeholder field) (Field_Default field)
    v (Field_Options field) (Field_Validation field)
    (Field_ReadOnly field) (Field_Deprecated field) (Field_Fields field)
    (Field_Conditional field) (Field_HelpText field).

Definition set_MaxLength (n : option Z) (v : Validation) : Validation :=
  mkValidation (Validation_Required v) (Validation_MinLength v) n
    (Validation_Min v) (Validation_Max v) (Validation_Pattern v)
    (Validation_PatternError v) (Validation_Step v) (Validation_MinItems v)
    (Validation_MaxItems v).

Definition set_Pattern (pattern message : string) (v : Validation) : Validation :=
  mkValidation (Validation_Required v) (Validation_MinLength v)
    (Validation_MaxLength v) (Validation_Min v) (Validation_Max v) pattern
    message (Validation_Step v) (Validation_MinItems v)
    (Validation_MaxItems v).

Definition set_Min (x : option float) (v : Validation) : Validation :=
  mkValidation (Validation_Required v) (Validation_MinLength v)
    (Validation_MaxLength v) x (Validation_Max v) (Validation_Pattern v)
    (Validation_PatternError v) (Validation_Step v) (Validation_MinItems v)
    (Validation_MaxItems v).

Definition set_Max (x : option float) (v : Validation) : Validation :=
  mkValidation (Validation_Required v) (Validation_MinLength v)
    (Validation_MaxLength v) (Validation_Min v) x (Validation_Pattern v)
    (Validation_PatternError v) (Validation_Step v) (Validation_MinItems v)
    (Validation_MaxItems v).

Definition set_Step (x : option float) (v : Validation) : Validation :=
  mkValidation (Validation_Required v) (Validation_MinLength v)
    (Validation_MaxLength v) (Validation_Min v) (Validation_Max v)
    (Validation_Pattern v) (Validation_PatternError v) x
    (Validation_MinItems v) (Validation_MaxItems v).

Definition set_MinItems (n : option Z) (v : Validation) : Validation :=
  mkValidation (Validation_Required v) (Validation_MinLength v)
    (Validation_MaxLength v) (Validation_Min v) (Validation_Max v)
    (Validation_Pattern v) (Validation_PatternError v) (Validation_Step v)
    n (Validation_MaxItems v).

Definition set_MaxItems (n : option Z) (v : Validation) : Validation :=
  mkValidation (Validation_Required v) (Validation_MinLength v)
    (Validation_MaxLength v) (Validation_Min v) (Validation_Max v)
    (Validation_Pattern v) (Validation_PatternError v) (Validation_Step v)
    (Validation_MinItems v) n.

Definition set_Required (b : bool) (v : Validation) : Validation :=
  mkValidation b (Validation_MinLength v)
    (Validation_MaxLength v) (Validation_Min v) (Validation_Max v)
    (Validation_Pattern v) (Validation_PatternError v) (Validation_Step v)
    (Validation_MinItems v) (Validation_MaxItems v).

(** [if c { x = f(x) }]: an assignment under a condition. *)
Definition when {A} (c : bool) (f : A → A) (x : A) : A :=
  if c then f x else x.

(** [if field.Validation == nil { field.Validation = &Validation{} }] *)
Definition ensureValidation (field : Field) : Validation :=
  match Field_Validation field with
  | Some v => v
  | None => emptyValidation
  end.

Section Converter.
Context `{GoLib} `{JsonLib}.

Definition mapJSONTypeToFieldType (jsonType : string) (schema : Schema)
  : result FieldType :=
  if bool_decide (jsonType = "string") then
    if bool_decide (Schema_Format schema = "email") then Ok FieldTypeEmail
    else if bool_decide (Schema_Format schema = "uri")
            || bool_decide (Schema_Format schema = "url") then Ok FieldTypeURL
    else if bool_decide (Schema_Format schema = "date") then Ok FieldTypeDate
    else if bool_decide (Schema_Format schema = "time") then Ok FieldTypeTime
    else if bool_decide (Schema_Format schema = "date-time")
         then Ok FieldTypeDateTime
    else if bool_decide (Schema_Format schema = "password")
         then Ok FieldTypePassword
    else match Schema_MaxLength schema with
         | Some n => if (n >? 100)%Z then Ok FieldTypeTextarea
                     else Ok FieldTypeText
         | None => Ok FieldTypeText
         end
  else if bool_decide (jsonType = "number") || bool_decide (jsonType = "integer")
       then Ok FieldTypeNumber
  else if bool_decide (jsonType = "boolean") then Ok FieldTypeCheckbox
  else if bool_decide (jsonType = "array") then Ok FieldTypeArray
  else if bool_decide (jsonType = "object") then Ok FieldTypeObject
  else if bool_decide (jsonType = "null") then Ok FieldTypeText
  else Ok FieldTypeText.

(** [for _, t := range typeArray { if t != "null" { return ... } }] *)
Fixpoint firstNonNull (typeArray : list string) : option string :=
  match typeArray with
  | [] => None
  | t :: rest => if bool_decide (t = "null") then firstNonNull rest else Some t
  end.

Definition determineFieldType (schema : Schema) : result FieldType :=
  let '(typeStr, typeArray, hasType) := GetType schema in
  if negb hasType then
    if present (Schema_Properties schema) then Ok FieldTypeObject
    else if present (Schema_Items schema) then Ok FieldTypeArray
    else Ok FieldTypeText
  else if (0 <? length typeArray)%nat then
    match firstNonNull typeArray with
    | Some t => mapJSONTypeToFieldType t schema
    | None => Ok FieldTypeText
    end
  else mapJSONTypeToFieldType typeStr schema.

Definition convertEnumToOptions (enum : list any) : list Option :=
  map (λ value, mkOption (Sprint value) value) enum.

Definition buildValidation (schema : option Schema) : option Validation :=
  match schema with
  | None => None
  | Some schema =>
    let validation := emptyValidation in
    let validation :=
      when (present (Schema_MinLength schema))
        (set_MinLength (Schema_MinLength schema)) validation in
    let validation :=
      when (present (Schema_MaxLength schema))
        (set_MaxLength (Schema_MaxLength schema)) validation in
    let validation :=
      when (negb (bool_decide (Schema_Pattern schema = "")))
        (set_Pattern (Schema_Pattern schema) "Invalid format") validation in
    let validation :=
      when (present (Schema_Minimum schema))
        (set_Min (Schema_Minimum schema)) validation in
    let validation :=
      when (present (Schema_Maximum schema))
        (set_Max (Schema_Maximum schema)) validation in
    let validation :=
      when (present (Schema_ExclusiveMinimum schema))
        (set_Min (Schema_ExclusiveMinimum schema)) validation in
    let validation :=
      when (present (Schema_ExclusiveMaximum schema))
        (set_Max (Schema_ExclusiveMaximum schema)) validation in
    let validation :=
      when (present (Schema_MultipleOf schema))
        (set_Step (Schema_MultipleOf schema)) validation in
    if negb (present (Validation_MinLength validation))
       && negb (present (Validation_MaxLength validation))
       && negb (present (Validation_Min validation))
       && negb (present (Validation_Max validation))
       && bool_decide (Validation_Pattern validation = "")
       && negb (present (Validation_Step validation))
    then None
    else Some validation
  end.

(** The functions [convertSchemaToField], [convertPropertiesToFields] and
    [buildConditionalField] call one another; the last two are first given
    over the function [convert] that converts one named schema. *)

(** [convertPropertiesToFields]: the loop appends one field per entry, in
    the order of the iteration; an entry bound to nil adds nothing. *)
Definition convertPropertiesToFieldsWith
    (convert : string → Schema → result (option Field))
    (properties : list (string * option Schema)) (required : list string)
  : result (list Field) :=
  let requiredMap : gset string := list_to_set required in
  (fix loop (properties : list (string * option Schema)) : result (list Field) :=
     match properties with
     | [] => Ok []
     | (name, None) :: rest => loop rest
     | (name, Some propSchema) :: rest =>
         match convert name propSchema with
         | Err msg => Err ("error converting field " ++ name ++ ": " ++ msg)
         | Ok None => loop rest
         | Ok (Some field) =>
             let field :=
               if bool_decide (name ∈ requiredMap)
               then set_Validation
                      (Some (set_Required true (ensureValidation field))) field
               else field in
             let* fields := loop rest in
             Ok (field :: fields)
         end
     end) properties.

(** [for name := range schema.If.Properties { ...; break }] *)
Definition firstKey (properties : list (string * option Schema)) : string :=
  match properties with
  | (name, _) :: _ => name
  | [] => ""
  end.

(** [buildConditionalField], for a schema whose [If] is [ifSchema]. A nil
    [Properties] map is ranged over like an empty one. *)
Definition buildConditionalFieldWith
    (convert : string → Schema → result (option Field))
    (ifSchema : Schema) (thenSchema elseSchema : option Schema)
  : result (option ConditionalField) :=
  let condition := firstKey (entries (Schema_Properties ifSchema)) in
  let* thenFields :=
    match thenSchema with
    | Some t =>
        match Schema_Properties t with
        | Some properties =>
            convertPropertiesToFieldsWith convert properties (Schema_Required t)
        | None => convertPropertiesToFieldsWith convert [] (Schema_Required t)
        end
    | None => Ok []
    end in
  let* elseFields :=
    match elseSchema with
    | Some e =>
        match Schema_Properties e with
        | Some properties =>
            convertPropertiesToFieldsWith convert properties (Schema_Required e)
        | None => convertPropertiesToFieldsWith convert [] (Schema_Required e)
        end
    | None => Ok []
    end in
  if bool_decide (condition = "") then Ok None
  else Ok (Some (mkConditionalField condition ANil thenFields elseFields)).

(** The field before its children are converted: the struct literal, the
    kind, the enum or const, and the validation block. *)
Definition scalarField (name : string) (schema : Schema) (fieldType : FieldType)
  : Field :=
  let field :=
    mkField name "" (Schema_Title schema) (Schema_Description schema) ""
      (Schema_Default schema) ANil [] None
      (match Schema_ReadOnly schema with Some b => b | None => false end)
      (match Schema_Deprecated schema with Some b => b | None => false end)
      [] None "" in
  let field := set_Type fieldType field in
  let field :=
    if (0 <? length (Schema_Enum schema))%nat then
      let field := set_Options (convertEnumToOptions (Schema_Enum schema)) field in
      if (length (Field_Options field) <=? 3)%nat
      then set_Type FieldTypeRadio field
      else set_Type FieldTypeSelect field
    else match Schema_Const schema with
         | ANil => field
         | const => set_Type FieldTypeHidden (set_Value const field)
         end in
  set_Validation (buildValidation (Some schema)) field.

(** The item bounds of an array. *)
Definition itemBounds (schema : Schema) (field : Field) : Field :=
  let field :=
    if present (Schema_MinItems schema)
    then set_Validation
           (Some (set_MinItems (Schema_MinItems schema) (ensureValidation field)))
           field
    else field in
  if present (Schema_MaxItems schema)
  then set_Validation
         (Some (set_MaxItems (Schema_MaxItems schema) (ensureValidation field)))
         field
  else field.

Fixpoint convertSchemaToField (name : string) (schema : Schema)
    {struct schema} : result (option Field) :=
  let* fieldType := determineFieldType schema in
  let field := scalarField name schema fieldType in
  let* field :=
    if bool_decide (fieldType = FieldTypeObject) then
      match Schema_Properties schema with
      | Some properties =>
          let* nestedFields :=
            convertPropertiesToFieldsWith convertSchemaToField properties
              (Schema_Required schema) in
          Ok (set_Fields nestedFields field)
      | None => Ok field
      end
    else Ok field in
  let* field :=
    if bool_decide (fieldType = FieldTypeArray) then
      let* field :=
        match Schema_Items schema with
        | Some items =>
            let* itemField := convertSchemaToField "item" items in
            match itemField with
            | Some itemField => Ok (set_Fields [itemField] field)
            | None => Ok field
            end
        | None => Ok field
        end in
      Ok (itemBounds schema field)
    else Ok field in
  match Schema_If schema with
  | Some ifSchema =>
      let* conditional :=
        buildConditionalFieldWith convertSchemaToField ifSchema
          (Schema_Then schema) (Schema_Else schema) in
      match conditional with
      | Some conditional => Ok (Some (set_Conditional (Some conditional) field))
      | None => Ok (Some field)
      end
  | None => Ok (Some field)
  end.

(** [convertSchemaToField] on a pointer: a nil schema converts to no field. *)
Definition convertSchemaToFieldPtr (name : string) (schema : option Schema)
  : result (option Field) :=
  match schema with
  | None => Ok None
  | Some schema => convertSchemaToField name schema
  end.

Definition convertPropertiesToFields
    (properties : list (string * option Schema)) (required : list string)
  : result (list Field) :=
  convertPropertiesToFieldsWith convertSchemaToField properties required.

Definition buildConditionalField (schema : Schema)
  : result (option ConditionalField) :=
  match Schema_If schema with
  | None => Ok None
  | Some ifSchema =>
      buildConditionalFieldWith convertSchemaToField ifSchema
        (Schema_Then schema) (Schema_Else schema)
  end.

Definition ConvertSchemaToForm (schema : option Schema) : result Form :=
  match schema with
  | None => Err "schema cannot be nil"
  | Some schema =>
      let form := mkForm (Schema_Title schema) (Schema_Description schema) ""
                    "POST" [] in
      match Schema_Properties schema with
      | Some properties =>
          let* fields :=
            convertPropertiesToFields properties (Schema_Required schema) in
          Ok (mkForm (Form_Title form) (Form_Description form)
                (Form_Action form) (Form_Method form) fields)
      | None =>
          let* field := convertSchemaToField "" schema in
          match field with
          | Some field =>
              Ok (mkForm (Form_Title form) (Form_Description form)
                    (Form_Action form) (Form_Method form) [field])
          | None => Ok form
          end
      end
  end.

End Converter.

(** The keys of the properties bound to a schema, in the order of the
    iteration. *)
Definition presentKeys (properties : list (string * option Schema))
  : list string :=
  (filter (λ kv : string * option Schema, is_Some kv.2) properties).*1.

(** Two fields with the same name, kind and options. *)
Definition same_head (f g : Field) : Prop :=
  Field_Name f = Field_Name g ∧
  Field_Type f = Field_Type g ∧
  Field_Options f = Field_Options g.

(** A schema with a type and nothing else, and the assignment of some of its
    fields. *)
Definition newSchema (rawType : list Byte.byte) : Schema :=
  mkSchema "" "" "" "" "" "" None "" None [] [] [] None None None None None
    [] None None None None None None None None rawType [] ANil None None None
    None None None None "" "" "" "" None None None None None None None None
    [] None "" "" ANil None None.

Definition set_Enum (enum : list any) (s : Schema) : Schema :=
  mkSchema (Schema_Schema s) (Schema_ID s) (Schema_Anchor s) (Schema_Ref s)
    (Schema_DynamicRef s) (Schema_DynamicAnchor s) (Schema_Vocabularies s)
    (Schema_Comment s) (Schema_Defs s) (Schema_AllOf s) (Schema_AnyOf s)
    (Schema_OneOf s) (Schema_Not s) (Schema_If s) (Schema_Then s)
    (Schema_Else s) (Schema_DependentSchemas s) (Schema_PrefixItems s)
    (Schema_Items s) (Schema_Contains s) (Schema_Properties s)
    (Schema_PatternProperties s) (Schema_AdditionalProperties s)
    (Schema_PropertyNames s) (Schema_UnevaluatedItems s)
    (Schema_UnevaluatedProperties s) (Schema_Type s) enum (Schema_Const s)
    (Schema_MultipleOf s) (Schema_Maximum s) (Schema_ExclusiveMaximum s)
    (Schema_Minimum s) (Schema_ExclusiveMinimum s) (Schema_MaxLength s)
    (Schema_MinLength s) (Schema_Pattern s) (Schema_Format s)
    (Schema_ContentEncoding s) (Schema_ContentMediaType s)
    (Schema_ContentSchema s) (Schema_MaxItems s) (Schema_MinItems s)
    (Schema_UniqueItems s) (Schema_MaxContains s) (Schema_MinContains s)
    (Schema_MaxProperties s) (Schema_MinProperties s) (Schema_Required s)
    (Schema_DependentRequired s) (Schema_Title s) (Schema_Description s)
    (Schema_Default s) (Schema_Deprecated s) (Schema_ReadOnly s).

Definition set_Const (const : any) (s : Schema) : Schema :=
  mkSchema (Schema_Schema s) (Schema_ID s) (Schema_Anchor s) (Schema_Ref s)
    (Schema_DynamicRef s) (Schema_DynamicAnchor s) (Schema_Vocabularies s)
    (Schema_Comment s) (Schema_Defs s) (Schema_AllOf s) (Schema_AnyOf s)
    (Schema_OneOf s) (Schema_Not s) (Schema_If s) (Schema_Then s)
    (Schema_Else s) (Schema_DependentSchemas s) (Schema_PrefixItems s)
    (Schema_Items s) (Schema_Contains s) (Schema_Properties s)
    (Schema_PatternProperties s) (Schema_AdditionalProperties s)
    (Schema_PropertyNames s) (Schema_UnevaluatedItems s)
    (Schema_UnevaluatedProperties s) (Schema_Type s) (Schema_Enum s) const
    (Schema_MultipleOf s) (Schema_Maximum s) (Schema_ExclusiveMaximum s)
    (Schema_Minimum s) (Schema_ExclusiveMinimum s) (Schema_MaxLength s)
    (Schema_MinLength s) (Schema_Pattern s) (Schema_Format s)
    (Schema_ContentEncoding s) (Schema_ContentMediaType s)
    (Schema_ContentSchema s) (Schema_MaxItems s) (Schema_MinItems s)
    (Schema_UniqueItems s) (Schema_MaxContains s) (Schema_MinContains s)
    (Schema_MaxProperties s) (Schema_MinProperties s) (Schema_Required s)
    (Schema_DependentRequired s) (Schema_Title s) (Schema_Description s)
    (Schema_Default s) (Schema_Deprecated s) (Schema_ReadOnly s).

Definition set_Format (format : string) (s : Schema) : Schema :=
  mkSchema (Schema_Schema s) (Schema_ID s) (Schema_Anchor s) (Schema_Ref s)
    (Schema_DynamicRef s) (Schema_DynamicAnchor s) (Schema_Vocabularies s)
    (Schema_Comment s) (Schema_Defs s) (Schema_AllOf s) (Schema_AnyOf s)
    (Schema_OneOf s) (Schema_Not s) (Schema_If s) (Schema_Then s)
    (Schema_Else s) (Schema_DependentSchemas s) (Schema_PrefixItems s)
    (Schema_Items s) (Schema_Contains s) (Schema_Properties s)
    (Schema_PatternProperties s) (Schema_AdditionalProperties s)
    (Schema_PropertyNames s) (Schema_UnevaluatedItems s)
    (Schema_UnevaluatedProperties s) (Schema_Type s) (Schema_Enum s)
    (Schema_Const s) (Schema_MultipleOf s) (Schema_Maximum s)
    (Schema_ExclusiveMaximum s) (Schema_Minimum s)
    (Schema_ExclusiveMinimum s) (Schema_MaxLength s) (Schema_MinLength s)
    (Schema_Pattern s) format (Schema_ContentEncoding s)
    (Schema_ContentMediaType s) (Schema_ContentSchema s) (Schema_MaxItems s)
    (Schema_MinItems s) (Schema_UniqueItems s) (Schema_MaxContains s)
    (Schema_MinContains s) (Schema_MaxProperties s) (Schema_MinProperties s)
    (Schema_Required s) (Schema_DependentRequired s) (Schema_Title s)
    (Schema_Description s) (Schema_Default s) (Schema_Deprecated s)
    (Schema_ReadOnly s).

Definition set_Properties (properties : option (list (string * option Schema)))
    (s : Schema) : Schema :=
  mkSchema (Schema_Schema s) (Schema_ID s) (Schema_Anchor s) (Schema_Ref s)
    (Schema_DynamicRef s) (Schema_DynamicAnchor s) (Schema_Vocabularies s)
    (Schema_Comment s) (Schema_Defs s) (Schema_AllOf s) (Schema_AnyOf s)
    (Schema_OneOf s) (Schema_Not s) (Schema_If s) (Schema_Then s)
    (Schema_Else s) (Schema_DependentSchemas s) (Schema_PrefixItems s)
    (Schema_Items s) (Schema_Contains s) properties
    (Schema_PatternProperties s) (Schema_AdditionalProperties s)
    (Schema_PropertyNames s) (Schema_UnevaluatedItems s)
    (Schema_UnevaluatedProperties s) (Schema_Type s) (Schema_Enum s)
    (Schema_Const s) (Schema_MultipleOf s) (Schema_Maximum s)
    (Schema_ExclusiveMaximum s) (Schema_Minimum s)
    (Schema_ExclusiveMinimum s) (Schema_MaxLength s) (Schema_MinLength s)
    (Schema_Pattern s) (Schema_Format s) (Schema_ContentEncoding s)
    (Schema_ContentMediaType s) (Schema_ContentSchema s) (Schema_MaxItems s)
    (Schema_MinItems s) (Schema_UniqueItems s) (Schema_MaxContains s)
    (Schema_MinContains s) (Schema_MaxProperties s) (Schema_MinProperties s)
    (Schema_Required s) (Schema_DependentRequired s) (Schema_Title s)
    (Schema_Description s) (Schema_Default s) (Schema_Deprecated s)
    (Schema_ReadOnly s).

Definition set_Items (items : option Schema) (s : Schema) : Schema :=
  mkSchema (Schema_Schema s) (Schema_ID s) (Schema_Anchor s) (Schema_Ref s)
    (Schema_DynamicRef s) (Schema_DynamicAnchor s) (Schema_Vocabularies s)
    (Schema_Comment s) (Schema_Defs s) (Schema_AllOf s) (Schema_AnyOf s)
    (Schema_OneOf s) (Schema_Not s) (Schema_If s) (Schema_Then s)
    (Schema_Else s) (Schema_DependentSchemas s) (Schema_PrefixItems s) items
    (Schema_Contains s) (Schema_Properties s) (Schema_PatternProperties s)
    (Schema_AdditionalProperties s) (Schema_PropertyNames s)
    (Schema_UnevaluatedItems s) (Schema_UnevaluatedProperties s)
    (Schema_Type s) (Schema_Enum s) (Schema_Const s) (Schema_MultipleOf s)
    (Schema_Maximum s) (Schema_ExclusiveMaximum s) (Schema_Minimum s)
    (Schema_ExclusiveMinimum s) (Schema_MaxLength s) (Schema_MinLength s)
    (Schema_Pattern s) (Schema_Format s) (Schema_ContentEncoding s)
    (Schema_ContentMediaType s) (Schema_ContentSchema s) (Schema_MaxItems s)
    (Schema_MinItems s) (Schema_UniqueItems s) (Schema_MaxContains s)
    (Schema_MinContains s) (Schema_MaxProperties s) (Schema_MinProperties s)
    (Schema_Required s) (Schema_DependentRequired s) (Schema_Title s)
    (Schema_Description s) (Schema_Default s) (Schema_Deprecated s)
    (Schema_ReadOnly s).

Definition set_Minimums (inclusive exclusive : option float) (s : Schema) : Schema :=
  mkSchema (Schema_Schema s) (Schema_ID s) (Schema_Anchor s) (Schema_Ref s)
    (Schema_DynamicRef s) (Schema_DynamicAnchor s) (Schema_Vocabularies s)
    (Schema_Comment s) (Schema_Defs s) (Schema_AllOf s) (Schema_AnyOf s)
    (Schema_OneOf s) (Schema_Not s) (Schema_If s) (Schema_Then s)
    (Schema_Else s) (Schema_DependentSchemas s) (Schema_PrefixItems s)
    (Schema_Items s) (Schema_Contains s) (Schema_Properties s)
    (Schema_PatternProperties s) (Schema_AdditionalProperties s)
    (Schema_PropertyNames s) (Schema_UnevaluatedItems s)
    (Schema_UnevaluatedProperties s) (Schema_Type s) (Schema_Enum s)
    (Schema_Const s) (Schema_MultipleOf s) (Schema_Maximum s)
    (Schema_ExclusiveMaximum s) inclusive exclusive (Schema_MaxLength s)
    (Schema_MinLength s) (Schema_Pattern s) (Schema_Format s)
    (Schema_ContentEncoding s) (Schema_ContentMediaType s)
    (Schema_ContentSchema s) (Schema_MaxItems s) (Schema_MinItems s)
    (Schema_UniqueItems s) (Schema_MaxContains s) (Schema_MinContains s)
    (Schema_MaxProperties s) (Schema_MinProperties s) (Schema_Required s)
    (Schema_DependentRequired s) (Schema_Title s) (Schema_Description s)
    (Schema_Default s) (Schema_Deprecated s) (Schema_ReadOnly s).

Definition set_Lengths (shortest longest : option Z) (s : Schema) : Schema :=
  mkSchema (Schema_Schema s) (Schema_ID s) (Schema_Anchor s) (Schema_Ref s)
    (Schema_DynamicRef s) (Schema_DynamicAnchor s) (Schema_Vocabularies s)
    (Schema_Comment s) (Schema_Defs s) (Schema_AllOf s) (Schema_AnyOf s)
    (Schema_OneOf s) (Schema_Not s) (Schema_If s) (Schema_Then s)
    (Schema_Else s) (Schema_DependentSchemas s) (Schema_PrefixItems s)
    (Schema_Items s) (Schema_Contains s) (Schema_Properties s)
    (Schema_PatternProperties s) (Schema_AdditionalProperties s)
    (Schema_PropertyNames s) (Schema_UnevaluatedItems s)
    (Schema_UnevaluatedProperties s) (Schema_Type s) (Schema_Enum s)
    (Schema_Const s) (Schema_MultipleOf s) (Schema_Maximum s)
    (Schema_ExclusiveMaximum s) (Schema_Minimum s)
    (Schema_ExclusiveMinimum s) longest shortest (Schema_Pattern s)
    (Schema_Format s) (Schema_ContentEncoding s) (Schema_ContentMediaType s)
    (Schema_ContentSchema s) (Schema_MaxItems s) (Schema_MinItems s)
    (Schema_UniqueItems s) (Schema_MaxContains s) (Schema_MinContains s)
    (Schema_MaxProperties s) (Schema_MinProperties s) (Schema_Required s)
    (Schema_DependentRequired s) (Schema_Title s) (Schema_Description s)
    (Schema_Default s) (Schema_Deprecated s) (Schema_ReadOnly s).

Definition set_ItemCounts (fewest most : option Z) (s : Schema) : Schema :=
  mkSchema (Schema_Schema s) (Schema_ID s) (Schema_Anchor s) (Schema_Ref s)
    (Schema_DynamicRef s) (Schema_DynamicAnchor s) (Schema_Vocabularies s)
    (Schema_Comment s) (Schema_Defs s) (Schema_AllOf s) (Schema_AnyOf s)
    (Schema_OneOf s) (Schema_Not s) (Schema_If s) (Schema_Then s)
    (Schema_Else s) (Schema_DependentSchemas s) (Schema_PrefixItems s)
    (Schema_Items s) (Schema_Contains s) (Schema_Properties s)
    (Schema_PatternProperties s) (Schema_AdditionalProperties s)
    (Schema_PropertyNames s) (Schema_UnevaluatedItems s)
    (Schema_UnevaluatedProperties s) (Schema_Type s) (Schema_Enum s)
    (Schema_Const s) (Schema_MultipleOf s) (Schema_Maximum s)
    (Schema_ExclusiveMaximum s) (Schema_Minimum s)
    (Schema_ExclusiveMinimum s) (Schema_MaxLength s) (Schema_MinLength s)
    (Schema_Pattern s) (Schema_Format s) (Schema_ContentEncoding s)
    (Schema_ContentMediaType s) (Schema_ContentSchema s) most fewest
    (Schema_UniqueItems s) (Schema_MaxContains s) (Schema_MinContains s)
    (Schema_MaxProperties s) (Schema_MinProperties s) (Schema_Required s)
    (Schema_DependentRequired s) (Schema_Title s) (Schema_Description s)
    (Schema_Default s) (Schema_Deprecated s) (Schema_ReadOnly s).

Definition set_IfThenElse (condition consequence alternative : option Schema) (s : Schema) : Schema :=
  mkSchema (Schema_Schema s) (Schema_ID s) (Schema_Anchor s) (Schema_Ref s)
    (Schema_DynamicRef s) (Schema_DynamicAnchor s) (Schema_Vocabularies s)
    (Schema_Comment s) (Schema_Defs s) (Schema_AllOf s) (Schema_AnyOf s)
    (Schema_OneOf s) (Schema_Not s) condition consequence alternative
    (Schema_DependentSchemas s) (Schema_PrefixItems s) (Schema_Items s)
    (Schema_Contains s) (Schema_Properties s) (Schema_PatternProperties s)
    (Schema_AdditionalProperties s) (Schema_PropertyNames s)
    (Schema_UnevaluatedItems s) (Schema_UnevaluatedProperties s)
    (Schema_Type s) (Schema_Enum s) (Schema_Const s) (Schema_MultipleOf s)
    (Schema_Maximum s) (Schema_ExclusiveMaximum s) (Schema_Minimum s)
    (Schema_ExclusiveMinimum s) (Schema_MaxLength s) (Schema_MinLength s)
    (Schema_Pattern s) (Schema_Format s) (Schema_ContentEncoding s)
    (Schema_ContentMediaType s) (Schema_ContentSchema s) (Schema_MaxItems s)
    (Schema_MinItems s) (Schema_UniqueItems s) (Schema_MaxContains s)
    (Schema_MinContains s) (Schema_MaxProperties s) (Schema_MinProperties s)
    (Schema_Required s) (Schema_DependentRequired s) (Schema_Title s)
    (Schema_Description s) (Schema_Default s) (Schema_Deprecated s)
    (Schema_ReadOnly s).

(** The JSON text of a string that needs no escape, and of a list of such
    strings: what [Schema.Type] holds after decoding a document with such a
    [type]. *)
Definition jsonString (s : string) : list Byte.byte :=
  (Byte.x22 :: String.list_byte_of_string s ++ [Byte.x22])%list.

Fixpoint jsonElements (l : list string) : list Byte.byte :=
  match l with
  | [] => []
  | [s] => jsonString s
  | s :: rest => (jsonString s ++ Byte.x2c :: jsonElements rest)%list
  end.

Definition jsonStrings (l : list string) : list Byte.byte :=
  (Byte.x5b :: jsonElements l ++ [Byte.x5d])%list.

(** A concrete instance of the decoder, for the examples: it decodes the
    texts above (a string without escapes, a list of such strings, without
    white space) and [null] as [json.Unmarshal] does, and refuses every
    other text. *)
Fixpoint closingQuote (text : list Byte.byte)
  : option (list Byte.byte * list Byte.byte) :=
  match text with
  | [] => None
  | Byte.x22 :: rest => Some ([], rest)
  | Byte.x5c :: _ => None
  | b :: rest =>
      match closingQuote rest with
      | Some (body, after) => Some (b :: body, after)
      | None => None
      end
  end.

Definition plain_string (text : list Byte.byte) : option string :=
  match text with
  | [Byte.x6e; Byte.x75; Byte.x6c; Byte.x6c] => Some ""
  | Byte.x22 :: rest =>
      match closingQuote rest with
      | Some (body, []) => Some (String.string_of_list_byte body)
      | _ => None
      end
  | _ => None
  end.

Fixpoint plain_elements (fuel : nat) (text : list Byte.byte)
  : option (list string) :=
  match fuel, text with
  | S fuel, Byte.x22 :: rest =>
      match closingQuote rest with
      | Some (body, [Byte.x5d]) => Some [String.string_of_list_byte body]
      | Some (body, Byte.x2c :: more) =>
          match plain_elements fuel more with
          | Some l => Some (String.string_of_list_byte body :: l)
          | None => None
          end
      | _ => None
      end
  | _, _ => None
  end.

Definition plain_strings (text : list Byte.byte) : option (list string) :=
  match text with
  | [Byte.x6e; Byte.x75; Byte.x6c; Byte.x6c] => Some []
  | [Byte.x5b; Byte.x5d] => Some []
  | Byte.x5b :: rest => plain_elements (length rest) rest
  | _ => None
  end.

Definition plainJson : JsonLib := {|
  json_Unmarshal_string := plain_string;
  json_Unmarshal_strings := plain_strings
|}.

(** ** The walk over a store

    [Validate] once more, with the objects it works on held in a store: the
    form behind the receiver, and the maps that [make] allocates, each at an
    address of its own. A scope table is passed by its address, as the Go
    map is passed by reference; writing a name into it updates the store.
    The store [Validate] starts from is arbitrary: it may hold the maps of
    earlier calls. The maps local to [validateFieldTypeConstraints] never
    leave that function and stay as in the previous section. *)

Module InPlace.
Section InPlace.
Context `{GoLib}.

Record Store := mkStore {
  heap_form : option Form;
  heap_maps : list (gset string)
}.

(** [make(map[string]bool)]: a new, empty map at a fresh address. *)
Definition make (σ : Store) : nat * Store :=
  (length (heap_maps σ), mkStore (heap_form σ) (heap_maps σ ++ [∅])%list).

(** [m[key]] *)
Definition contains (m : nat) (key : string) (σ : Store) : bool :=
  match heap_maps σ !! m with
  | Some names => bool_decide (key ∈ names)
  | None => false
  end.

(** [m[key] = true] *)
Definition put (m : nat) (key : string) (σ : Store) : Store :=
  match heap_maps σ !! m with
  | Some names => mkStore (heap_form σ) (<[m := {[ key ]} ∪ names]> (heap_maps σ))
  | None => σ
  end.

Definition rangeFields
    (visit : Field → nat → string → Store → error * Store)
    (mkpath : nat → string)
  : list Field → nat → nat → Store → error * Store :=
  fix loop fields i names σ :=
    match fields with
    | [] => (None, σ)
    | field :: rest =>
        match visit field names (mkpath i) σ with
        | (Some err, σ) => (Some err, σ)
        | (None, σ) => loop rest (S i) names σ
        end
    end.

Fixpoint validateField (field : Field) (parentFieldNames : nat)
    (path : string) (σ : Store) {struct field} : error * Store :=
  match validateFieldName (Field_Name field) path with
  | Some err => (Some err, σ)
  | None =>
    if negb (bool_decide (Field_Name field = ""))
       && contains parentFieldNames (Field_Name field) σ
    then (Some (DuplicateName path (Field_Name field)), σ)
    else
      let σ := if bool_decide (Field_Name field = "") then σ
               else put parentFieldNames (Field_Name field) σ in
      match validateFieldType (Field_Type field) path with
      | Some err => (Some err, σ)
      | None =>
      match validateFieldTypeConstraints field path with
      | Some err => (Some err, σ)
      | None =>
      match validateValidationRules (Field_Validation field)
              (Field_Type field) path with
      | Some err => (Some err, σ)
      | None =>
      match
        match Field_Conditional field with
        | Some conditional =>
            validateConditionalField conditional parentFieldNames path σ
        | None => (None, σ)
        end
      with
      | (Some err, σ) => (Some err, σ)
      | (None, σ) =>
          if (0 <? length (Field_Fields field))%nat
          then if negb (is_container (Field_Type field))
               then (Some (NestedNotContainer path (Field_Type field)), σ)
               else let '(nestedFieldNames, σ) := make σ in
                    rangeFields validateField (nestedPath path)
                      (Field_Fields field) 0 nestedFieldNames σ
          else (None, σ)
      end end end end
  end
with validateConditionalField (conditional : ConditionalField)
    (parentFieldNames : nat) (path : string) (σ : Store)
    {struct conditional} : error * Store :=
  if bool_decide (ConditionalField_Condition conditional = "")
  then (Some (ConditionEmpty path), σ)
  else if negb (contains parentFieldNames
                  (ConditionalField_Condition conditional) σ)
  then (Some (ConditionUnknown path (ConditionalField_Condition conditional)), σ)
  else
    match
      if (0 <? length (ConditionalField_Then conditional))%nat
      then let '(thenFieldNames, σ) := make σ in
           rangeFields validateField (thenPath path)
             (ConditionalField_Then conditional) 0 thenFieldNames σ
      else (None, σ)
    with
    | (Some err, σ) => (Some err, σ)
    | (None, σ) =>
        if (0 <? length (ConditionalField_Else conditional))%nat
        then let '(elseFieldNames, σ) := make σ in
             rangeFields validateField (elsePath path)
               (ConditionalField_Else conditional) 0 elseFieldNames σ
        else (None, σ)
    end.

(** [Validate], on the form the store holds. *)
Definition Validate (σ : Store) : error * Store :=
  match heap_form σ with
  | None => (Some FormNil, σ)
  | Some f =>
      if (length (Form_Fields f) =? 0)%nat then (Some NoFields, σ)
      else
        match validateMethod (Form_Method f) with
        | Some err => (Some err, σ)
        | None =>
            let '(fieldNames, σ) := make σ in
            rangeFields validateField fieldsPath (Form_Fields f) 0 fieldNames σ
        end
  end.

(** [σ'] differs from [σ] in the table at [m], which holds [names], and in
    maps allocated since; the form is the same. *)
Definition extends (m : nat) (names : gset string) (σ σ' : Store) : Prop :=
  heap_form σ' = heap_form σ ∧
  ∃ extra, heap_maps σ' = (<[m := names]> (heap_maps σ) ++ extra)%list.

End InPlace.
End InPlace.

(** ** Statements about the walk and the converter

    The predicates the proofs below establish for every field, conditional
    and schema, by induction on the tree. *)

(** [P] holds of the schema a pointer leads to, if any; and of every schema
    a properties map binds. *)
Definition on_pointer (P : Schema → Prop) (o : option Schema) : Prop :=
  ∀ s, o = Some s → P s.

Definition on_properties (P : Schema → Prop)
    (m : option (list (string * option Schema))) : Prop :=
  ∀ l, m = Some l → Forall (λ kv, on_pointer P kv.2) l.

Section Statements.
Context `{GoLib} `{JsonLib}.

(** The order of the walk, as a list of checks of which the first violation
    is returned. *)
Definition first_error (checks : list error) : error :=
  foldr (λ c rest, match c with Some err => Some err | None => rest end)
        None checks.

(** The names registered in a scope that started from [names], when the
    [j]-th of its fields is visited: those of the preceding siblings. *)
Definition scope_at (names : gset string) (fields : list Field) (j : nat)
  : gset string :=
  names ∪ list_to_set (nonempty_names (take j fields)).

(** The fields of one scope, visited in list order. *)
Definition in_list_order (mkpath : nat → string) (fields : list Field)
    (names : gset string) : list error :=
  imap (λ j field,
          (validateField field (scope_at names fields j) (mkpath j)).1)
       fields.

(** The checks made on one field, in order: its name, the duplicate test,
    its kind, its options, its validation rules; then its conditional, with
    the field's own name registered (the condition, the then list, the else
    list, each list in a fresh scope); and last its nested children, in a
    fresh scope. *)
Definition field_order (field : Field) (names : gset string) (path : string)
  : list error :=
  [ validateFieldName (Field_Name field) path;
    (if negb (bool_decide (Field_Name field = ""))
        && bool_decide (Field_Name field ∈ names)
     then Some (DuplicateName path (Field_Name field)) else None);
    validateFieldType (Field_Type field) path;
    validateFieldTypeConstraints field path;
    validateValidationRules (Field_Validation field) (Field_Type field) path ]
  ++ (match Field_Conditional field with
     | None => []
     | Some c =>
         [ (if bool_decide (ConditionalField_Condition c = "")
            then Some (ConditionEmpty path) else None);
           (if bool_decide (ConditionalField_Condition c
                            ∈ register (Field_Name field) names)
            then None
            else Some (ConditionUnknown path (ConditionalField_Condition c)));
           first_error (in_list_order (thenPath path)
                          (ConditionalField_Then c) ∅);
           first_error (in_list_order (elsePath path)
                          (ConditionalField_Else c) ∅) ]
     end
  ++ [ (if (0 <? length (Field_Fields field))%nat
           && negb (is_container (Field_Type field))
        then Some (NestedNotContainer path (Field_Type field)) else None);
       first_error (in_list_order (nestedPath path) (Field_Fields field) ∅) ])%list.

(** The checks [Validate] makes on a form, in order. *)
Definition form_order (form : Form) : list error :=
  [ (if (length (Form_Fields form) =? 0)%nat then Some NoFields else None);
    validateMethod (Form_Method form);
    first_error (in_list_order fieldsPath (Form_Fields form) ∅) ].

(** What a successful visit of one field means, for every table and path. *)
Definition field_spec (field : Field) : Prop :=
  ∀ names path,
    (validateField field names path).1 = None ↔
    (Field_Name field = "" ∨ Field_Name field ∉ names) ∧
    FieldOk CodeRulesMatch (register (Field_Name field) names) field.

Definition conditional_spec (c : ConditionalField) : Prop :=
  ∀ names path,
    validateConditionalField c names path = None ↔
    ConditionalOk CodeRulesMatch names c.

(** [e] is reported strictly below [path]. *)
Definition below (path : string) (e : Violation) : Prop :=
  ∃ s, s ≠ "" ∧ error_path e = path ++ s.

(** [e] is reported at [path] or below it. *)
Definition within (path : string) (e : Violation) : Prop :=
  ∃ s, error_path e = path ++ s.

Definition path_spec (field : Field) : Prop :=
  ∀ names path e, (validateField field names path).1 = Some e → within path e.


(** The violations of a conditional: the two reference errors at the path
    of the field, or a violation below it, in a branch. *)
Definition conditional_path_spec (c : ConditionalField) : Prop :=
  ∀ names path e,
    validateConditionalField c names path = Some e →
    (e = ConditionEmpty path ∧ ConditionalField_Condition c = "") ∨
    (e = ConditionUnknown path (ConditionalField_Condition c) ∧
     ConditionalField_Condition c ∉ names) ∨
    below path e.

(** Conversion of a schema never fails and yields a field: the one built
    from the scalar keywords, completed with children and a conditional. *)
Definition field_total (schema : Schema) : Prop :=
  ∀ name, ∃ t field,
    determineFieldType schema = Ok t ∧
    convertSchemaToField name schema = Ok (Some field) ∧
    same_head field (scalarField name schema t).

Definition properties_total (properties : list (string * option Schema)) : Prop :=
  ∀ required, ∃ fields,
    convertPropertiesToFields properties required = Ok fields ∧
    Field_Name <$> fields = presentKeys properties.

Definition schema_total (schema : Schema) : Prop :=
  field_total schema ∧
  ∀ properties, Schema_Properties schema = Some properties →
                properties_total properties.

Definition field_refines (field : Field) : Prop :=
  ∀ m path σ names,
    InPlace.heap_maps σ !! m = Some names →
    (InPlace.validateField field m path σ).1
    = (validateField field names path).1 ∧
    InPlace.extends m (validateField field names path).2 σ
      (InPlace.validateField field m path σ).2.

Definition conditional_refines (c : ConditionalField) : Prop :=
  ∀ m path σ names,
    InPlace.heap_maps σ !! m = Some names →
    (InPlace.validateConditionalField c m path σ).1
    = validateConditionalField c names path ∧
    InPlace.extends m names σ (InPlace.validateConditionalField c m path σ).2.

End Statements.

(** ** Occurrence of a field in a tree

    [InTree field fields]: [field] is one of [fields], or occurs below one of
    them, among its nested fields or in a branch of its conditional. *)

Inductive InTree : Field → list Field → Prop :=
| InTree_here field fields :
    field ∈ fields → InTree field fields
| InTree_nested field parent fields :
    parent ∈ fields → InTree field (Field_Fields parent) →
    InTree field fields
| InTree_then field parent c fields :
    parent ∈ fields → Field_Conditional parent = Some c →
    InTree field (ConditionalField_Then c) → InTree field fields
| InTree_else field parent c fields :
    parent ∈ fields → Field_Conditional parent = Some c →
    InTree field (ConditionalField_Else c) → InTree field fields.


(** ** Example forms *)



(** A hidden field with a minimum length, in a form without a method. *)
Definition hiddenWithMinLength : Field :=
  set_Validation (Some (set_MinLength (Some 1%Z) emptyValidation))
    (newField "token" FieldTypeHidden).

Definition hiddenForm : Form := newForm "" [hiddenWithMinLength].



(** An object field with a child of an unknown kind and a conditional whose
    then branch holds a field with a reserved name, after a text field. *)
Definition detailsField : Field :=
  set_Conditional
    (Some (mkConditionalField "kind" (AString "company")
             [newField "submit" FieldTypeText] []))
    (set_Fields [newField "child" "bogus"] (newField "details" FieldTypeObject)).

Definition orderForm : Form :=
  newForm "" [newField "kind" FieldTypeText; detailsField].

(** A field whose conditional names the field itself. *)
Definition planCondition : ConditionalField :=
  mkConditionalField "plan" (AString "pro") [newField "seats" FieldTypeNumber] [].

Definition planField : Field :=
  set_Conditional (Some planCondition) (newField "plan" FieldTypeText).

Definition planForm : Form := newForm "" [planField].

(** The same, with a reserved name in the then branch. *)
Definition tierField : Field :=
  set_Conditional
    (Some (mkConditionalField "tier" ANil [newField "reset" FieldTypeText] []))
    (newField "tier" FieldTypeText).

(** The properties [a] and [b] of one map, in the two orders in which a
    range statement may yield them. *)
Definition propertiesAB : list (string * option Schema) :=
  [("a", Some (newSchema (jsonString "string")));
   ("b", Some (newSchema (jsonString "string")))].

Definition propertiesBA : list (string * option Schema) :=
  [("b", Some (newSchema (jsonString "string")));
   ("a", Some (newSchema (jsonString "string")))].

(** An object schema that enumerates four values, and a number schema with
    both an inclusive and an exclusive minimum. *)
Definition enumSchema : Schema :=
  set_Enum [AString "a"; AString "b"; AString "c"; AString "d"]
    (newSchema (jsonString "object")).

Definition boundedSchema : Schema :=
  set_Minimums (Some 1%float) (Some 5%float) (newSchema (jsonString "number")).

(** Forms of the test suite ([lib/form_test.go]). *)
Definition nestedDuplicateForm : Form :=
  newForm ""
    [set_Fields [newField "name" FieldTypeText; newField "name" FieldTypeEmail]
       (newField "user" FieldTypeObject)].

Definition validConditionalForm : Form :=
  newForm ""
    [newField "field1" FieldTypeText;
     set_Conditional
       (Some (mkConditionalField "field1" ANil
                [newField "then_field" FieldTypeText] []))
       (newField "field2" FieldTypeText)].

Definition danglingConditionalForm : Form :=
  newForm ""
    [set_Conditional
       (Some (mkConditionalField "nonexistent" ANil
                [newField "then_field" FieldTypeText] []))
       (newField "field1" FieldTypeText)].

Definition duplicateOptionForm : Form :=
  newForm ""
    [set_Options [mkOption "Option 1" (AString "opt1");
                  mkOption "Option 2" (AString "opt1")]
       (newField "choice" FieldTypeSelect)].

(** The schema [{type: object, properties: {name: {type: string}}}]. *)
Definition nameSchema : Schema :=
  set_Properties (Some [("name", Some (newSchema (jsonString "string")))])
    (newSchema (jsonString "object")).

(** Two anonymous fields side by side. *)
Definition anonymousForm : Form :=
  newForm "POST" [newField "" FieldTypeText; newField "" FieldTypeEmail].

(** ** Scopes of a tree

    [ScopeIn scope fields]: [scope] is one of the sibling lists of the tree
    [fields]: the list itself, the nested fields of a field of the tree, or
    a branch of the conditional of one. Each of them is walked with a table
    of its own. *)
Inductive ScopeIn : list Field → list Field → Prop :=
| ScopeIn_top fields : ScopeIn fields fields
| ScopeIn_nested parent fields :
    InTree parent fields → ScopeIn (Field_Fields parent) fields
| ScopeIn_then parent c fields :
    InTree parent fields → Field_Conditional parent = Some c →
    ScopeIn (ConditionalField_Then c) fields
| ScopeIn_else parent c fields :
    InTree parent fields → Field_Conditional parent = Some c →
    ScopeIn (ConditionalField_Else c) fields.

(** ** The kinds of a tree *)

(** [kinds_recognised fields]: every field of the tree [fields] has one of
    the kinds of [validTypes]. *)
Definition kinds_recognised (fields : list Field) : Prop :=
  ∀ f, InTree f fields → Field_Type f ∈ validTypes.

(** The kinds of the converted trees of a schema: of the field it converts
    to, and of the fields its properties convert to. *)
Definition converts_to_recognised `{GoLib} `{JsonLib} (schema : Schema) : Prop :=
  (∀ name field,
     convertSchemaToField name schema = Ok (Some field) →
     kinds_recognised [field]) ∧
  (∀ properties required fields,
     Schema_Properties schema = Some properties →
     convertPropertiesToFields properties required = Ok fields →
     kinds_recognised fields).

(** The walk reports an unknown kind only for a field of the tree that has
    it. *)
Definition unknown_kind_spec `{GoLib} (field : Field) : Prop :=
  ∀ names path p k,
    (validateField field names path).1 = Some (InvalidType p k) →
    ∃ f, InTree f [field] ∧ Field_Type f = k ∧ k ∉ validTypes.

Definition unknown_kind_in_branch `{GoLib} (c : ConditionalField) : Prop :=
  ∀ names path p k,
    validateConditionalField c names path = Some (InvalidType p k) →
    ∃ f, (InTree f (ConditionalField_Then c) ∨
          InTree f (ConditionalField_Else c)) ∧
         Field_Type f = k ∧ k ∉ validTypes.

(** ** More example forms and schemas *)

(** A conditional that names a field further down its list. *)
Definition forwardReferenceForm : Form :=
  newForm ""
    [set_Conditional (Some (mkConditionalField "later" ANil [] []))
       (newField "first" FieldTypeText);
     newField "later" FieldTypeText].

(** A file field whose minimum length exceeds its maximum length, below an
    object. *)
Definition crossedLengths : Validation :=
  set_MaxLength (Some 2%Z) (set_MinLength (Some 5%Z) emptyValidation).

Definition crossedField : Field :=
  set_Validation (Some crossedLengths) (newField "scan" FieldTypeFile).

Definition crossedForm : Form :=
  newForm "" [set_Fields [crossedField] (newField "upload" FieldTypeObject)].

(** An object named as its only child is. *)
Definition userField : Field :=
  set_Fields [newField "user" FieldTypeText] (newField "user" FieldTypeObject).

(** A hidden field that carries the same option twice. *)
Definition hiddenWithOptions : Field :=
  set_Options [mkOption "A" (AString "a"); mkOption "B" (AString "a")]
    (newField "token" FieldTypeHidden).

(** A select whose options are the int 1 and the string of its digit. *)
Definition mixedOptions : Field :=
  set_Options [mkOption "One" (AInt 1); mkOption "Uno" (AString "1")]
    (newField "count" FieldTypeSelect).

(** Schemas of the converter's tests ([convert_test.go]) and variations. *)
Definition constSchema : Schema :=
  set_Const (AString "fixed-value") (newSchema (jsonString "string")).

Definition mixedEnumSchema : Schema :=
  set_Enum [AString "string"; AInt 42; ABool true]
    (newSchema (jsonString "string")).

Definition tagsSchema : Schema :=
  set_ItemCounts (Some 1%Z) (Some 5%Z)
    (set_Items (Some (newSchema (jsonString "string")))
       (newSchema (jsonString "array"))).

Definition enumObjectSchema : Schema := set_Enum [AString "a"] nameSchema.

Definition countrySchema : Schema :=
  set_IfThenElse
    (Some (set_Properties
             (Some [("country", Some (newSchema (jsonString "string")))])
             (newSchema [])))
    (Some (set_Properties
             (Some [("state", Some (newSchema (jsonString "string")))])
             (newSchema [])))
    None
    (newSchema (jsonString "string")).

Definition countryCondition : ConditionalField :=
  mkConditionalField "country" ANil [newField "state" FieldTypeText] [].

Definition nullableSchema : Schema := newSchema (jsonStrings ["null"; "string"]).

Definition emptyObjectSchema : Schema :=
  set_Properties (Some []) (newSchema (jsonString "object")).

Definition boundedEnumSchema : Schema :=
  set_Lengths None (Some 3%Z)
    (set_Enum [AString "a"; AString "b"] (newSchema (jsonString "string"))).

Definition rangedTextSchema : Schema :=
  set_Minimums (Some 1%float) None (newSchema (jsonString "string")).

(** ** The entry point ([api.go])

    [FromJsonSchema] decodes a document with [Parse] and converts the
    schema. [Parse] hands the document to [json.Unmarshal], which belongs to
    Go's standard library: the two functions are given over the decoder,
    which returns the schema it decodes or the message of its error.

    [Parse] stands in [schema.go], beside the [Schema] struct. *)

Section Api.
Context `{GoLib} `{JsonLib}.
Variable json_Unmarshal : list Byte.byte → result Schema.

Definition Parse (schemaStr : list Byte.byte) : result (option Schema) :=
  match json_Unmarshal schemaStr with
  | Err msg => Err msg
  | Ok schema => Ok (Some schema)
  end.

Definition FromJsonSchema (schema : list Byte.byte) : result Form :=
  let* jsonSchema := Parse schema in
  let* form := ConvertSchemaToForm jsonSchema in
  Ok form.

End Api.

(** ** The walk over a heap

    [Validate] a third time, now with the form itself in memory. The form
    tree is made of objects that pointers and slices lead to: a field holds
    the address of its validation block and of its conditional, and the
    addresses of the backing arrays of its options and of its nested fields;
    a validation block holds the addresses of its bounds. Two fields may
    share any of these objects. The heap holds them side by side with the
    maps that [make] allocates, so that a write through any address can be
    expressed. A slice is taken to span its backing array. A run has no
    result when it is out of fuel or finds an object of the wrong type. *)

Module Heap.

(** An address is a position in the heap. *)

(** A slice: nil, or the address of the backing array. *)
Definition slice := option nat.

(** [type Validation struct], as it lies in memory. *)
Record ValidationStruct := mkValidationStruct {
  ValidationStruct_Required : bool;
  ValidationStruct_MinLength : option nat;
  ValidationStruct_MaxLength : option nat;
  ValidationStruct_Min : option nat;
  ValidationStruct_Max : option nat;
  ValidationStruct_Pattern : string;
  ValidationStruct_PatternError : string;
  ValidationStruct_Step : option nat;
  ValidationStruct_MinItems : option nat;
  ValidationStruct_MaxItems : option nat
}.

(** [type ConditionalField struct] *)
Record ConditionalStruct := mkConditionalStruct {
  ConditionalStruct_Condition : string;
  ConditionalStruct_Value : any;
  ConditionalStruct_Then : slice;
  ConditionalStruct_Else : slice
}.

(** [type Field struct] *)
Record FieldStruct := mkFieldStruct {
  FieldStruct_Name : string;
  FieldStruct_Type : FieldType;
  FieldStruct_Label : string;
  FieldStruct_Description : string;
  FieldStruct_Placeholder : string;
  FieldStruct_Default : any;
  FieldStruct_Value : any;
  FieldStruct_Options : slice;
  FieldStruct_Validation : option nat;
  FieldStruct_ReadOnly : bool;
  FieldStruct_Deprecated : bool;
  FieldStruct_Fields : slice;
  FieldStruct_Conditional : option nat;
  FieldStruct_HelpText : string
}.

(** [type Form struct] *)
Record FormStruct := mkFormStruct {
  FormStruct_Title : string;
  FormStruct_Description : string;
  FormStruct_Action : string;
  FormStruct_Method : string;
  FormStruct_Fields : slice
}.

(** What an address holds: an [int], a [float64], one of the structs, the
    backing array of a [[]Option] or of a [[]Field], or a
    [map[string]bool]. *)
Inductive Object :=
| OInt (z : Z)
| OFloat (x : float)
| OValidation (v : ValidationStruct)
| OConditional (c : ConditionalStruct)
| OForm (f : FormStruct)
| OOptions (elements : list Option)
| OFields (elements : list FieldStruct)
| OMap (names : gset string).

(** Computations on the heap. *)
Definition M (A : Type) : Type := list Object → option (A * list Object).

Definition ret {A} (x : A) : M A := λ σ, Some (x, σ).
Definition fail {A} : M A := λ _, None.
Definition bind {A B} (e : M A) (k : A → M B) : M B :=
  λ σ, match e σ with Some (x, σ') => k x σ' | None => None end.

Notation "'let!' x ':=' e 'in' k" :=
  (bind e (λ x, k))
  (at level 10, x name, e at level 100, k at level 200, only parsing).

Definition load (a : nat) : M Object :=
  λ σ, match σ !! a with Some o => Some (o, σ) | None => None end.

(** [*a = o] *)
Definition store (a : nat) (o : Object) : M unit :=
  λ σ, if bool_decide (a < length σ)%nat then Some (tt, <[a := o]> σ) else None.

(** [make(map[string]bool)] *)
Definition make : M nat :=
  λ σ, Some (length σ, (σ ++ [OMap ∅])%list).

(** [m[key]] *)
Definition contains (m : nat) (key : string) : M bool :=
  let! o := load m in
  match o with
  | OMap names => ret (bool_decide (key ∈ names))
  | _ => fail
  end.

(** [m[key] = true] *)
Definition put (m : nat) (key : string) : M unit :=
  let! o := load m in
  match o with
  | OMap names => store m (OMap ({[ key ]} ∪ names))
  | _ => fail
  end.

(** [*p], for a pointer that may be nil. *)
Definition loadInt (p : option nat) : M (option Z) :=
  match p with
  | None => ret None
  | Some a =>
      let! o := load a in
      match o with OInt z => ret (Some z) | _ => fail end
  end.

Definition loadFloat (p : option nat) : M (option float) :=
  match p with
  | None => ret None
  | Some a =>
      let! o := load a in
      match o with OFloat x => ret (Some x) | _ => fail end
  end.

(** The validation block behind a pointer, with the bounds behind its
    pointers: what [validateValidationRules] reads. *)
Definition loadValidation (p : option nat) : M (option Validation) :=
  match p with
  | None => ret None
  | Some a =>
      let! o := load a in
      match o with
      | OValidation v =>
          let! minLength := loadInt (ValidationStruct_MinLength v) in
          let! maxLength := loadInt (ValidationStruct_MaxLength v) in
          let! min := loadFloat (ValidationStruct_Min v) in
          let! max := loadFloat (ValidationStruct_Max v) in
          let! step := loadFloat (ValidationStruct_Step v) in
          let! minItems := loadInt (ValidationStruct_MinItems v) in
          let! maxItems := loadInt (ValidationStruct_MaxItems v) in
          ret (Some (mkValidation (ValidationStruct_Required v)
                       minLength maxLength min max
                       (ValidationStruct_Pattern v)
                       (ValidationStruct_PatternError v)
                       step minItems maxItems))
      | _ => fail
      end
  end.

(** The elements of a slice. *)
Definition loadOptions (s : slice) : M (list Option) :=
  match s with
  | None => ret []
  | Some a =>
      let! o := load a in
      match o with OOptions l => ret l | _ => fail end
  end.

Definition loadFields (s : slice) : M (list FieldStruct) :=
  match s with
  | None => ret []
  | Some a =>
      let! o := load a in
      match o with OFields l => ret l | _ => fail end
  end.

Section Heap.
Context `{GoLib}.

(** [for i, field := range fields { if err := f.validateField(&field, names,
    mkpath i); err != nil { return err } }]: the loop variable is a copy of
    the element, and [validateField] gets the address of the copy. *)
Definition rangeFields
    (visit : FieldStruct → nat → string → M error)
    (mkpath : nat → string)
  : list FieldStruct → nat → nat → M error :=
  fix loop fields i names :=
    match fields with
    | [] => ret None
    | field :: rest =>
        let! err := visit field names (mkpath i) in
        match err with
        | Some err => ret (Some err)
        | None => loop rest (S i) names
        end
    end.

(** [validateFieldTypeConstraints] reads the kind and the options. *)
Definition validateFieldTypeConstraints (field : FieldStruct) (path : string)
  : M error :=
  let! options := loadOptions (FieldStruct_Options field) in
  ret (validateFieldTypeConstraints
         (set_Options options
            (newField (FieldStruct_Name field) (FieldStruct_Type field)))
         path).

(** [validateConditionalField], over the function that visits one field. *)
Definition validateConditionalFieldWith
    (visit : FieldStruct → nat → string → M error)
    (conditional : option nat) (parentFieldNames : nat) (path : string)
  : M error :=
  match conditional with
  | None => ret None
  | Some a =>
      let! o := load a in
      match o with
      | OConditional conditional =>
          if bool_decide (ConditionalStruct_Condition conditional = "")
          then ret (Some (ConditionEmpty path))
          else
            let! known :=
              contains parentFieldNames
                (ConditionalStruct_Condition conditional) in
            if negb known
            then ret (Some (ConditionUnknown path
                              (ConditionalStruct_Condition conditional)))
            else
              let! thenFields :=
                loadFields (ConditionalStruct_Then conditional) in
              let! err :=
                (if (0 <? length thenFields)%nat
                 then let! thenFieldNames := make in
                      rangeFields visit (thenPath path) thenFields 0
                        thenFieldNames
                 else ret None) in
              match err with
              | Some err => ret (Some err)
              | None =>
                  let! elseFields :=
                    loadFields (ConditionalStruct_Else conditional) in
                  if (0 <? length elseFields)%nat
                  then let! elseFieldNames := make in
                       rangeFields visit (elsePath path) elseFields 0
                         elseFieldNames
                  else ret None
              end
      | _ => fail
      end
  end.

Fixpoint validateField (fuel : nat) (field : FieldStruct)
    (parentFieldNames : nat) (path : string) {struct fuel} : M error :=
  match fuel with
  | O => fail
  | S fuel =>
    match validateFieldName (FieldStruct_Name field) path with
    | Some err => ret (Some err)
    | None =>
      let! duplicate :=
        (if negb (bool_decide (FieldStruct_Name field = ""))
         then contains parentFieldNames (FieldStruct_Name field)
         else ret false) in
      if duplicate
      then ret (Some (DuplicateName path (FieldStruct_Name field)))
      else
        let! _ :=
          (if negb (bool_decide (FieldStruct_Name field = ""))
           then put parentFieldNames (FieldStruct_Name field)
           else ret tt) in
        match validateFieldType (FieldStruct_Type field) path with
        | Some err => ret (Some err)
        | None =>
          let! err := validateFieldTypeConstraints field path in
          match err with
          | Some err => ret (Some err)
          | None =>
            let! validation :=
              loadValidation (FieldStruct_Validation field) in
            match validateValidationRules validation
                    (FieldStruct_Type field) path with
            | Some err => ret (Some err)
            | None =>
              let! err :=
                validateConditionalFieldWith (validateField fuel)
                  (FieldStruct_Conditional field) parentFieldNames path in
              match err with
              | Some err => ret (Some err)
              | None =>
                let! nested := loadFields (FieldStruct_Fields field) in
                if (0 <? length nested)%nat
                then if negb (is_container (FieldStruct_Type field))
                     then ret (Some (NestedNotContainer path
                                       (FieldStruct_Type field)))
                     else let! nestedFieldNames := make in
                          rangeFields (validateField fuel) (nestedPath path)
                            nested 0 nestedFieldNames
                else ret None
              end
            end
          end
        end
    end
  end.

Definition validateConditionalField (fuel : nat) :=
  validateConditionalFieldWith (validateField fuel).

(** [func (f *Form) Validate() error], for a receiver on the heap. *)
Definition Validate (fuel : nat) (f : option nat) : M error :=
  match f with
  | None => ret (Some FormNil)
  | Some a =>
      let! o := load a in
      match o with
      | OForm form =>
          let! fields := loadFields (FormStruct_Fields form) in
          if (length fields =? 0)%nat then ret (Some NoFields)
          else
            match validateMethod (FormStruct_Method form) with
            | Some err => ret (Some err)
            | None =>
                let! fieldNames := make in
                rangeFields (validateField fuel) fieldsPath fields 0
                  fieldNames
            end
      | _ => fail
      end
  end.

End Heap.

(** *** The form a heap holds

    [form_at σ a form]: the objects of [σ] that the address [a] leads to
    are laid out as the tree [form] is. Nothing asks for the objects to be
    distinct. *)

Definition int_at (σ : list Object) (p : option nat) (z : option Z) : Prop :=
  match p, z with
  | None, None => True
  | Some a, Some z => σ !! a = Some (OInt z)
  | _, _ => False
  end.

Definition float_at (σ : list Object) (p : option nat) (x : option float) : Prop :=
  match p, x with
  | None, None => True
  | Some a, Some x => σ !! a = Some (OFloat x)
  | _, _ => False
  end.

Definition validation_at (σ : list Object) (p : option nat) (v : option Validation)
  : Prop :=
  match p, v with
  | None, None => True
  | Some a, Some v =>
      ∃ c, σ !! a = Some (OValidation c) ∧
           ValidationStruct_Required c = Validation_Required v ∧
           int_at σ (ValidationStruct_MinLength c) (Validation_MinLength v) ∧
           int_at σ (ValidationStruct_MaxLength c) (Validation_MaxLength v) ∧
           float_at σ (ValidationStruct_Min c) (Validation_Min v) ∧
           float_at σ (ValidationStruct_Max c) (Validation_Max v) ∧
           ValidationStruct_Pattern c = Validation_Pattern v ∧
           ValidationStruct_PatternError c = Validation_PatternError v ∧
           float_at σ (ValidationStruct_Step c) (Validation_Step v) ∧
           int_at σ (ValidationStruct_MinItems c) (Validation_MinItems v) ∧
           int_at σ (ValidationStruct_MaxItems c) (Validation_MaxItems v)
  | _, _ => False
  end.

Definition options_at (σ : list Object) (s : slice) (options : list Option) : Prop :=
  match s with
  | None => options = []
  | Some a => σ !! a = Some (OOptions options)
  end.

Inductive field_at (σ : list Object) : FieldStruct → Field → Prop :=
| field_at_intro cell field :
    FieldStruct_Name cell = Field_Name field →
    FieldStruct_Type cell = Field_Type field →
    FieldStruct_Label cell = Field_Label field →
    FieldStruct_Description cell = Field_Description field →
    FieldStruct_Placeholder cell = Field_Placeholder field →
    FieldStruct_Default cell = Field_Default field →
    FieldStruct_Value cell = Field_Value field →
    options_at σ (FieldStruct_Options cell) (Field_Options field) →
    validation_at σ (FieldStruct_Validation cell) (Field_Validation field) →
    FieldStruct_ReadOnly cell = Field_ReadOnly field →
    FieldStruct_Deprecated cell = Field_Deprecated field →
    fields_at σ (FieldStruct_Fields cell) (Field_Fields field) →
    conditional_at σ (FieldStruct_Conditional cell) (Field_Conditional field) →
    FieldStruct_HelpText cell = Field_HelpText field →
    field_at σ cell field
with conditional_at (σ : list Object)
  : option nat → option ConditionalField → Prop :=
| conditional_at_nil : conditional_at σ None None
| conditional_at_object a cell c :
    σ !! a = Some (OConditional cell) →
    ConditionalStruct_Condition cell = ConditionalField_Condition c →
    ConditionalStruct_Value cell = ConditionalField_Value c →
    fields_at σ (ConditionalStruct_Then cell) (ConditionalField_Then c) →
    fields_at σ (ConditionalStruct_Else cell) (ConditionalField_Else c) →
    conditional_at σ (Some a) (Some c)
with fields_at (σ : list Object) : slice → list Field → Prop :=
| fields_at_nil : fields_at σ None []
| fields_at_array a cells fields :
    σ !! a = Some (OFields cells) →
    elements_at σ cells fields →
    fields_at σ (Some a) fields
with elements_at (σ : list Object) : list FieldStruct → list Field → Prop :=
| elements_at_nil : elements_at σ [] []
| elements_at_cons cell field cells fields :
    field_at σ cell field →
    elements_at σ cells fields →
    elements_at σ (cell :: cells) (field :: fields).

Definition form_at (σ : list Object) (a : nat) (form : Form) : Prop :=
  ∃ cell,
    σ !! a = Some (OForm cell) ∧
    FormStruct_Title cell = Form_Title form ∧
    FormStruct_Description cell = Form_Description form ∧
    FormStruct_Action cell = Form_Action form ∧
    FormStruct_Method cell = Form_Method form ∧
    fields_at σ (FormStruct_Fields cell) (Form_Fields form).

(** [σ'] is [σ] with the map at [m] holding [names], followed by the objects
    allocated since. *)
Definition extends (m : nat) (names : gset string) (σ σ' : list Object) : Prop :=
  ∃ extra, σ' = (<[m := OMap names]> σ ++ extra)%list.

(** Every object of [σ] that is not a map is in [σ'], at its address. *)
Definition frame (σ σ' : list Object) : Prop :=
  ∀ a o, σ !! a = Some o → (∀ names, o ≠ OMap names) → σ' !! a = Some o.

End Heap.

Section Heap_statements.
Context `{GoLib}.

(** A run on the objects that hold [field] returns what the walk of the
    previous sections returns on [field], given fuel enough for the depth of
    [field]; it changes the table it is given as that walk does, and appends
    objects. *)
Definition field_runs (field : Field) : Prop :=
  ∃ n, ∀ fuel σ cell m names path,
    (n ≤ fuel)%nat →
    Heap.field_at σ cell field →
    σ !! m = Some (Heap.OMap names) →
    ∃ σ',
      Heap.validateField fuel cell m path σ
      = Some ((validateField field names path).1, σ') ∧
      Heap.extends m (validateField field names path).2 σ σ'.

Definition conditional_runs (c : ConditionalField) : Prop :=
  ∃ n, ∀ fuel σ a m names path,
    (n ≤ fuel)%nat →
    Heap.conditional_at σ a (Some c) →
    σ !! m = Some (Heap.OMap names) →
    ∃ σ',
      Heap.validateConditionalField fuel a m path σ
      = Some (validateConditionalField c names path, σ') ∧
      Heap.extends m names σ σ'.

(** The objects that hold a tree are still there in a store that keeps every
    object that is not a map. *)
Definition field_framed (field : Field) : Prop :=
  ∀ σ σ' cell,
    Heap.field_at σ cell field → Heap.frame σ σ' → Heap.field_at σ' cell field.

Definition conditional_framed (c : ConditionalField) : Prop :=
  ∀ σ σ' a,
    Heap.conditional_at σ a (Some c) → Heap.frame σ σ' →
    Heap.conditional_at σ' a (Some c).

End Heap_statements.

(** A heap that holds a form of two fields: they share one validation
    block, whose two length bounds are one [int]; the second field has a
    conditional on the first. A map of an earlier call follows. *)
Definition sharedLengths : Validation :=
  set_MaxLength (Some 5%Z) (set_MinLength (Some 5%Z) emptyValidation).

Definition sharedForm : Form :=
  newForm "POST"
    [set_Validation (Some sharedLengths) (newField "first" FieldTypeText);
     set_Conditional
       (Some (mkConditionalField "first" ANil
                [newField "extra" FieldTypeText] []))
       (set_Validation (Some sharedLengths)
          (newField "second" FieldTypeText))].

Definition sharedHeap : list Heap.Object :=
  [Heap.OForm (Heap.mkFormStruct "" "" "" "POST" (Some 1%nat));
   Heap.OFields
     [Heap.mkFieldStruct "first" FieldTypeText "" "" "" ANil ANil None
        (Some 2%nat) false false None None "";
      Heap.mkFieldStruct "second" FieldTypeText "" "" "" ANil ANil None
        (Some 2%nat) false false None (Some 4%nat) ""];
   Heap.OValidation
     (Heap.mkValidationStruct false (Some 3%nat) (Some 3%nat) None None "" ""
        None None None);
   Heap.OInt 5;
   Heap.OConditional
     (Heap.mkConditionalStruct "first" ANil (Some 5%nat) None);
   Heap.OFields
     [Heap.mkFieldStruct "extra" FieldTypeText "" "" "" ANil ANil None None
        false false None None ""];
   Heap.OMap {[ "earlier" ]}].

(** * Properties *)

(** ** Induction on the field tree *)

Section Field_induction.
Variables (P : Field → Prop) (Q : ConditionalField → Prop).
Hypothesis Hfield : ∀ field,
  Forall P (Field_Fields field) →
  (∀ c, Field_Conditional field = Some c → Q c) →
  P field.
Hypothesis Hconditional : ∀ c,
  Forall P (ConditionalField_Then c) →
  Forall P (ConditionalField_Else c) →
  Q c.

Lemma Field_tree_ind : ∀ field, P field
with ConditionalField_tree_ind : ∀ c, Q c.
Proof.
  - intros [n t l d ph df v os vl ro dp fs cd ht]. apply Hfield; simpl.
    + induction fs as [|x xs IH]; constructor; [apply Field_tree_ind | exact IH].
    + intros c Hc. destruct cd as [c'|]; [|discriminate].
      injection Hc as <-. apply ConditionalField_tree_ind.
  - intros [cn cv th el]. apply Hconditional; simpl.
    + induction th as [|x xs IH]; constructor; [apply Field_tree_ind | exact IH].
    + induction el as [|x xs IH]; constructor; [apply Field_tree_ind | exact IH].
Qed.

End Field_induction.

(** ** The checks on a single field, characterised *)

Section Local_checks.
Context `{GoLib}.

Lemma ensure_None (a k : error) :
  (match a with Some err => Some err | None => k end) = None ↔
  a = None ∧ k = None.
Proof. destruct a; naive_solver. Qed.

Lemma validateFieldName_None name path :
  validateFieldName name path = None ↔ NameOk name.
Proof.
  unfold validateFieldName, NameOk.
  case_bool_decide; [naive_solver|].
  destruct (validNamePattern name); simpl; [|naive_solver].
  case_bool_decide; naive_solver.
Qed.

Lemma validateFieldType_None t path :
  validateFieldType t path = None ↔ t ∈ validTypes.
Proof. unfold validateFieldType. case_bool_decide; naive_solver. Qed.

Lemma validateMethod_None method :
  validateMethod method = None ↔ MethodOk method.
Proof.
  unfold validateMethod, MethodOk.
  repeat (case_bool_decide; simpl); naive_solver.
Qed.

Lemma uniqueOptionValues_None options i seen path :
  uniqueOptionValues options i seen path = None ↔
  NoDup (rendered options) ∧ ∀ x, x ∈ rendered options → x ∉ seen.
Proof.
  revert i seen. induction options as [|o options IH]; intros i seen; simpl.
  - split; [|done]. intros _. split; [constructor|]. intros x Hx.
    by apply elem_of_nil in Hx.
  - case_bool_decide as Hseen.
    + split; [done|]. intros [_ Hfresh]. exfalso.
      apply (Hfresh (Sprint (Option_Value o))); [left|done].
    + rewrite IH, NoDup_cons. split.
      * intros [Hnd Hfresh]. split.
        -- split; [|done]. intros Hin. apply (Hfresh _ Hin). set_solver.
        -- intros x [->|Hx]%elem_of_cons; [done|].
           specialize (Hfresh x Hx). set_solver.
      * intros [[Hnotin Hnd] Hfresh]. split; [done|].
        intros x Hx [->%elem_of_singleton|Hs]%elem_of_union; [done|].
        apply (Hfresh x); [by right|done].
Qed.

Lemma uniqueOptionValues_fresh options path :
  uniqueOptionValues options 0 ∅ path = None ↔ NoDup (rendered options).
Proof. rewrite uniqueOptionValues_None. set_solver. Qed.

Lemma has_options_false field :
  has_options field = false ↔ Field_Options field = [].
Proof. unfold has_options. destruct (Field_Options field); simpl; naive_solver. Qed.

Lemma forbidden_None (b : bool) field path :
  (if b then if has_options field
             then Some (OptionsForbidden path (Field_Type field)) else None
   else None) = None ↔ (b → Field_Options field = []).
Proof.
  destruct b; simpl; [|naive_solver].
  destruct (has_options field) eqn:E.
  - split; [done|]. intros Hn. apply has_options_false in Hn; [congruence|done].
  - apply has_options_false in E. naive_solver.
Qed.

Lemma required_options_None field path :
  (if bool_decide (Field_Type field = FieldTypeSelect)
      || bool_decide (Field_Type field = FieldTypeRadio)
   then if (length (Field_Options field) =? 0)%nat
        then Some (OptionsRequired path (Field_Type field))
        else uniqueOptionValues (Field_Options field) 0 ∅ path
   else None) = None ↔
  (Field_Type field = FieldTypeSelect ∨ Field_Type field = FieldTypeRadio →
   Field_Options field ≠ [] ∧ NoDup (rendered (Field_Options field))).
Proof.
  destruct (bool_decide _ || bool_decide _) eqn:E.
  - apply orb_true_iff in E. rewrite !bool_decide_eq_true in E.
    destruct (Nat.eqb_spec (length (Field_Options field)) 0) as [E0|E0].
    + apply nil_length_inv in E0. naive_solver.
    + rewrite uniqueOptionValues_fresh.
      assert (Field_Options field ≠ []) by (intros E1; by rewrite E1 in E0).
      naive_solver.
  - apply orb_false_iff in E. rewrite !bool_decide_eq_false in E. naive_solver.
Qed.

Lemma checkbox_options_None field path :
  (if bool_decide (Field_Type field = FieldTypeCheckbox) && has_options field
   then uniqueOptionValues (Field_Options field) 0 ∅ path
   else None) = None ↔
  (Field_Type field = FieldTypeCheckbox →
   NoDup (rendered (Field_Options field))).
Proof.
  case_bool_decide; simpl; [|by split].
  destruct (has_options field) eqn:E.
  - rewrite uniqueOptionValues_fresh. naive_solver.
  - apply has_options_false in E. rewrite E. split; [|done].
    intros _ _. constructor.
Qed.

Lemma validateFieldTypeConstraints_None field path :
  validateFieldTypeConstraints field path = None ↔
  OptionsOk (Field_Type field) (Field_Options field).
Proof.
  unfold validateFieldTypeConstraints, OptionsOk.
  rewrite !ensure_None, !forbidden_None.
  rewrite required_options_None, checkbox_options_None, bool_decide_spec.
  naive_solver.
Qed.

Lemma negative_None (p : option Z) (e : Violation) :
  (if negative p then Some e else None) = None ↔ ∀ n, p = Some n → (0 ≤ n)%Z.
Proof.
  destruct p as [n|]; simpl; [|naive_solver].
  destruct (Z.ltb_spec n 0); split; try done.
  - intros Hn. specialize (Hn n eq_refl). lia.
  - intros _ m [= <-]. done.
Qed.

Lemma disordered_None (lo hi : option Z) (mk : Z → Z → Violation) :
  match disordered lo hi with
  | Some (a, b) => Some (mk a b)
  | None => None
  end = None ↔ ∀ a b, lo = Some a → hi = Some b → (a ≤ b)%Z.
Proof.
  destruct lo as [a|], hi as [b|]; simpl; try naive_solver.
  destruct (Z.gtb_spec a b); split; try done.
  - intros Hab. specialize (Hab a b eq_refl eq_refl). lia.
  - intros _ a' b' [= <-] [= <-]. lia.
Qed.

Lemma range_None (lo hi : option float) (mk : float → float → Violation) :
  match lo, hi with
  | Some a, Some b => if PrimFloat.ltb b a then Some (mk a b) else None
  | _, _ => None
  end = None ↔ ∀ a b, lo = Some a → hi = Some b → PrimFloat.ltb b a = false.
Proof.
  destruct lo as [a|], hi as [b|]; try naive_solver.
  destruct (PrimFloat.ltb b a) eqn:E; split; try done.
  - intros Hab. specialize (Hab a b eq_refl eq_refl). congruence.
  - intros _ a' b' [= <-] [= <-]. done.
Qed.

Lemma step_None (step : option float) (mk : float → Violation) :
  match step with
  | Some x => if PrimFloat.leb x 0%float then Some (mk x) else None
  | None => None
  end = None ↔ ∀ x, step = Some x → PrimFloat.leb x 0%float = false.
Proof.
  destruct step as [x|]; [|naive_solver].
  destruct (PrimFloat.leb x 0%float) eqn:E; split; try done.
  - intros Hx. specialize (Hx x eq_refl). congruence.
  - intros _ x' [= <-]. done.
Qed.

Lemma two_groups_None (k a b : bool) (e1 e2 : Violation) :
  (if k then if a then Some e1 else if b then Some e2 else None else None)
  = None ↔ (k → ¬ a ∧ ¬ b).
Proof. destruct k, a, b; simpl; naive_solver. Qed.

Lemma three_groups_None (k a b c : bool) (e1 e2 e3 : Violation) :
  (if k then if a then Some e1 else if b then Some e2
             else if c then Some e3 else None
   else None) = None ↔ (k → ¬ a ∧ ¬ b ∧ ¬ c).
Proof. destruct k, a, b, c; simpl; naive_solver. Qed.

Lemma validateValidationRules_None v t path :
  validateValidationRules (Some v) t path = None ↔
  BoundsOk v ∧ CodeRulesMatch t v.
Proof.
  unfold validateValidationRules, BoundsOk, CodeRulesMatch.
  rewrite !ensure_None, !negative_None, !two_groups_None, three_groups_None.
  rewrite (disordered_None _ _ (LengthOrder path)).
  rewrite (disordered_None _ _ (ItemsOrder path)).
  rewrite (range_None _ _ (RangeOrder path)).
  rewrite (step_None _ (StepNotPositive path)).
  rewrite !bool_decide_spec.
  tauto.
Qed.

Lemma ensure_Some (a k : error) e :
  (match a with Some err => Some err | None => k end) = Some e →
  a = Some e ∨ k = Some e.
Proof. destruct a; naive_solver. Qed.

(** Every violation found in a validation block is a constraint error
    reported at the path of the field. *)
Lemma validateValidationRules_Some validation t path e :
  validateValidationRules validation t path = Some e →
  error_class e = ConstraintError ∧ error_path e = path.
Proof.
  unfold validateValidationRules. destruct validation as [v|]; [|done].
  intros E.
  repeat (apply ensure_Some in E as [E|E];
          [repeat case_match; simplify_eq; done|]).
  done.
Qed.

End Local_checks.

(** ** The walk, characterised *)

Section Walk.
Context `{GoLib}.

Lemma FieldOk_iff M visible field :
  FieldOk M visible field ↔
  NameOk (Field_Name field) ∧
  Field_Type field ∈ validTypes ∧
  OptionsOk (Field_Type field) (Field_Options field) ∧
  (∀ v, Field_Validation field = Some v →
        BoundsOk v ∧ M (Field_Type field) v) ∧
  (∀ c, Field_Conditional field = Some c → ConditionalOk M visible c) ∧
  (Field_Fields field ≠ [] →
     is_container (Field_Type field) ∧ ScopeOk M (Field_Fields field)).
Proof.
  split.
  - intros Hok. inversion Hok; subst. tauto.
  - intros (?&?&?&?&?&?). by constructor.
Qed.

Lemma ConditionalOk_iff M visible c :
  ConditionalOk M visible c ↔
  ConditionalField_Condition c ≠ "" ∧
  ConditionalField_Condition c ∈ visible ∧
  ScopeOk M (ConditionalField_Then c) ∧
  ScopeOk M (ConditionalField_Else c).
Proof.
  split.
  - intros Hok. inversion Hok; subst. tauto.
  - intros (?&?&?&?). by constructor.
Qed.

Lemma ScopeOk_iff M fields :
  ScopeOk M fields ↔
  NoDup (nonempty_names fields) ∧
  ∀ i field, fields !! i = Some field → FieldOk M (visible_at fields i) field.
Proof.
  split.
  - intros Hok. inversion Hok; subst. tauto.
  - intros (?&?). by constructor.
Qed.

Lemma ScopeOk_nil M : ScopeOk M [].
Proof. constructor; [constructor|]. intros i field Hi. done. Qed.

Lemma validateField_fst field names path :
  (validateField field names path).1 =
  (ensure validateFieldName (Field_Name field) path;
   ensure (if negb (bool_decide (Field_Name field = ""))
              && bool_decide (Field_Name field ∈ names)
           then Some (DuplicateName path (Field_Name field)) else None);
   ensure validateFieldType (Field_Type field) path;
   ensure validateFieldTypeConstraints field path;
   ensure validateValidationRules (Field_Validation field) (Field_Type field) path;
   ensure validateConditionalFieldPtr (Field_Conditional field)
            (register (Field_Name field) names) path;
   if (0 <? length (Field_Fields field))%nat
   then if negb (is_container (Field_Type field))
        then Some (NestedNotContainer path (Field_Type field))
        else rangeFields validateField (nestedPath path) (Field_Fields field) 0 ∅
   else None).
Proof.
  destruct field as [n t l d ph df v os vl ro dp fs cd ht].
  cbn [validateField Field_Name Field_Type Field_Validation Field_Conditional
       Field_Fields].
  destruct (validateFieldName n path); [reflexivity|].
  destruct (negb (bool_decide (n = "")) && bool_decide (n ∈ names));
    [reflexivity|].
  cbn [fst]. destruct vl; reflexivity.
Qed.

Lemma validateField_snd field names path :
  (validateField field names path).1 = None →
  (validateField field names path).2 = register (Field_Name field) names.
Proof.
  destruct field as [n t l d ph df v os vl ro dp fs cd ht].
  cbn [validateField Field_Name].
  destruct (validateFieldName n path); [discriminate|].
  destruct (negb (bool_decide (n = "")) && bool_decide (n ∈ names));
    [discriminate|reflexivity].
Qed.

Lemma validateConditionalField_eq c names path :
  validateConditionalField c names path =
  if bool_decide (ConditionalField_Condition c = "")
  then Some (ConditionEmpty path)
  else if negb (bool_decide (ConditionalField_Condition c ∈ names))
  then Some (ConditionUnknown path (ConditionalField_Condition c))
  else
    ensure rangeFields validateField (thenPath path) (ConditionalField_Then c) 0 ∅;
    rangeFields validateField (elsePath path) (ConditionalField_Else c) 0 ∅.
Proof.
  destruct c as [cn cv th el].
  cbn [validateConditionalField ConditionalField_Condition
       ConditionalField_Then ConditionalField_Else].
  destruct (bool_decide (cn = "")); [reflexivity|].
  destruct (negb (bool_decide (cn ∈ names))); [reflexivity|].
  destruct th, el; cbn [length Nat.ltb Nat.leb rangeFields];
    repeat case_match; reflexivity.
Qed.

Lemma rangeFields_cons visit mkpath field rest i names :
  rangeFields visit mkpath (field :: rest) i names =
  match visit field names (mkpath i) with
  | (Some err, _) => Some err
  | (None, names') => rangeFields visit mkpath rest (S i) names'
  end.
Proof. done. Qed.

Lemma nonempty_names_cons field fields :
  nonempty_names (field :: fields) =
  if bool_decide (Field_Name field = "") then nonempty_names fields
  else Field_Name field :: nonempty_names fields.
Proof.
  unfold nonempty_names. rewrite fmap_cons, filter_cons.
  case_bool_decide; case_decide; done.
Qed.

Lemma visible_at_head field fields :
  visible_at (field :: fields) 0 = register (Field_Name field) ∅.
Proof.
  unfold visible_at, register. rewrite firstn_cons, take_0, nonempty_names_cons.
  case_bool_decide; set_solver.
Qed.

Lemma visible_at_tail field fields i names :
  names ∪ visible_at (field :: fields) (S i) =
  register (Field_Name field) names ∪ visible_at fields i.
Proof.
  unfold visible_at, register. rewrite firstn_cons, nonempty_names_cons.
  case_bool_decide; set_solver.
Qed.

Lemma register_union name names :
  register name names = names ∪ register name ∅.
Proof. unfold register. case_bool_decide; set_solver. Qed.

Lemma elem_of_register x name names :
  x ∈ register name names ↔ (x = name ∧ name ≠ "") ∨ x ∈ names.
Proof. unfold register. case_bool_decide; set_solver. Qed.

Lemma rangeFields_None mkpath fields :
  Forall field_spec fields →
  ∀ i names,
    rangeFields validateField mkpath fields i names = None ↔
    NoDup (nonempty_names fields) ∧
    (∀ x, x ∈ nonempty_names fields → x ∉ names) ∧
    (∀ j field, fields !! j = Some field →
                FieldOk CodeRulesMatch (names ∪ visible_at fields j) field).
Proof.
  induction 1 as [|field fields Hfield _ IH]; intros i names.
  - split; [|done]. intros _. split; [constructor|].
    split; [intros x Hx; by apply elem_of_nil in Hx|]. intros j field Hj. done.
  - rewrite rangeFields_cons.
    specialize (Hfield names (mkpath i)).
    pose proof (validateField_snd field names (mkpath i)) as Hsnd.
    destruct (validateField field names (mkpath i)) as [[err|] names'];
      simpl in Hfield, Hsnd.
    + split; [done|]. intros (Hnd & Hfresh & Hall). exfalso.
      assert (Some err = None) as Hno; [|done]. apply Hfield. split.
      * destruct (decide (Field_Name field = "")) as [|Hne]; [by left|right].
        apply Hfresh. rewrite nonempty_names_cons.
        rewrite bool_decide_eq_false_2 by done. left.
      * specialize (Hall 0 field eq_refl).
        rewrite visible_at_head, <- register_union in Hall. done.
    + rewrite (Hsnd eq_refl). rewrite IH. clear IH Hsnd.
      assert (Hhead : (Field_Name field = "" ∨ Field_Name field ∉ names) ∧
                FieldOk CodeRulesMatch (register (Field_Name field) names) field)
        by (by apply Hfield).
      destruct Hhead as [Hdup Hok]. clear Hfield.
      rewrite nonempty_names_cons. split.
      * intros (Hnd & Hfresh & Hall). split; [|split].
        -- case_bool_decide as Hname; [done|]. constructor; [|done].
           intros Hin. apply (Hfresh _ Hin). apply elem_of_register. by left.
        -- intros x Hx Hnames. case_bool_decide as Hname.
           ++ apply (Hfresh _ Hx). apply elem_of_register. by right.
           ++ apply elem_of_cons in Hx as [->|Hx]; [naive_solver|].
              apply (Hfresh _ Hx). apply elem_of_register. by right.
        -- intros [|j] f Hj; simpl in Hj.
           ++ injection Hj as <-.
              rewrite visible_at_head, <- register_union. done.
           ++ rewrite visible_at_tail. by apply Hall.
      * intros (Hnd & Hfresh & Hall). split; [|split].
        -- case_bool_decide; [done|]. by apply NoDup_cons in Hnd as [_ ?].
        -- intros x Hx [[-> Hne]|Hnames]%elem_of_register.
           ++ rewrite bool_decide_eq_false_2 in Hnd by done.
              by apply NoDup_cons in Hnd as [? _].
           ++ apply (Hfresh x); [|done].
              case_bool_decide; [done|]. by right.
        -- intros j f Hj. rewrite <- visible_at_tail. by apply (Hall (S j)).
Qed.

Lemma rangeFields_fresh_None mkpath fields :
  Forall field_spec fields →
  rangeFields validateField mkpath fields 0 ∅ = None ↔
  ScopeOk CodeRulesMatch fields.
Proof.
  intros Hall. rewrite (rangeFields_None _ _ Hall), ScopeOk_iff.
  split.
  - intros (Hnd & _ & Hok). split; [done|]. intros i field Hi.
    specialize (Hok i field Hi). by rewrite (left_id_L ∅ (∪)) in Hok.
  - intros (Hnd & Hok). split; [done|]. split; [set_solver|].
    intros i field Hi. rewrite (left_id_L ∅ (∪)). by apply Hok.
Qed.

Lemma duplicate_None (name : string) (names : gset string) (e : Violation) :
  (if negb (bool_decide (name = "")) && bool_decide (name ∈ names)
   then Some e else None) = None ↔ (name = "" ∨ name ∉ names).
Proof. repeat (case_bool_decide; simpl); naive_solver. Qed.

Lemma nested_None (fields : list Field) (t : FieldType) (e : Violation)
    (walk : error) (P : Prop) :
  (walk = None ↔ P) →
  (if (0 <? length fields)%nat
   then if negb (is_container t) then Some e else walk
   else None) = None ↔ (fields ≠ [] → is_container t ∧ P).
Proof.
  intros Hwalk. destruct fields as [|f fs]; simpl; [naive_solver|].
  destruct (is_container t); simpl; naive_solver.
Qed.

Lemma validateField_spec : ∀ field, field_spec field.
Proof.
  apply (Field_tree_ind field_spec conditional_spec).
  - intros field Hfields Hcond names path.
    rewrite validateField_fst, !ensure_None.
    rewrite validateFieldName_None, duplicate_None, validateFieldType_None,
      validateFieldTypeConstraints_None.
    rewrite (nested_None _ _ _ _ _ (rangeFields_fresh_None _ _ Hfields)).
    rewrite FieldOk_iff.
    assert (Hrules :
      validateValidationRules (Field_Validation field) (Field_Type field) path
        = None ↔
      ∀ v, Field_Validation field = Some v →
           BoundsOk v ∧ CodeRulesMatch (Field_Type field) v).
    { destruct (Field_Validation field) as [v|]; [|naive_solver].
      rewrite validateValidationRules_None. naive_solver. }
    assert (Hc :
      validateConditionalFieldPtr (Field_Conditional field)
        (register (Field_Name field) names) path = None ↔
      ∀ c, Field_Conditional field = Some c →
           ConditionalOk CodeRulesMatch (register (Field_Name field) names) c).
    { destruct (Field_Conditional field) as [c|] eqn:Ec; [|naive_solver].
      pose proof (Hcond c eq_refl (register (Field_Name field) names) path).
      simpl. naive_solver. }
    rewrite Hrules, Hc. tauto.
  - intros c Hthen Helse names path.
    rewrite validateConditionalField_eq, ConditionalOk_iff.
    case_bool_decide as Hempty; [naive_solver|].
    case_bool_decide as Hin; simpl; [|naive_solver].
    rewrite ensure_None.
    rewrite (rangeFields_fresh_None _ _ Hthen), (rangeFields_fresh_None _ _ Helse).
    naive_solver.
Qed.

Lemma Validate_None form :
  Validate (Some form) = None ↔ FormOk CodeRulesMatch form.
Proof.
  unfold Validate, FormOk.
  destruct (Nat.eqb_spec (length (Form_Fields form)) 0) as [E0|E0].
  - apply nil_length_inv in E0. naive_solver.
  - assert (Form_Fields form ≠ []) by (intros E1; by rewrite E1 in E0).
    rewrite ensure_None, validateMethod_None.
    rewrite rangeFields_fresh_None; [naive_solver|].
    apply Forall_forall. intros field _. apply validateField_spec.
Qed.

End Walk.

(** ** Where a violation is reported *)

Section Paths.
Context `{GoLib}.

Lemma append_cons (x : ascii) (a b : string) :
  String x a ++ b = String x (a ++ b).
Proof. reflexivity. Qed.

Lemma append_assoc (a b c : string) : (a ++ b) ++ c = a ++ (b ++ c).
Proof.
  induction a as [|x a IH]; [reflexivity|].
  rewrite !append_cons. by rewrite IH.
Qed.

Lemma append_nil_r (a : string) : a ++ "" = a.
Proof.
  induction a as [|x a IH]; [reflexivity|].
  rewrite append_cons. by rewrite IH.
Qed.

Lemma append_eq_self (a s : string) : a ++ s = a → s = "".
Proof.
  induction a as [|x a IH]; [intros E; exact E|].
  rewrite append_cons. intros [= E]. by apply IH.
Qed.

Lemma below_not_at path e : below path e → error_path e ≠ path.
Proof. intros (s & Hs & E) E'. rewrite E' in E. symmetry in E. by apply append_eq_self in E. Qed.

Lemma within_below path suffix e :
  suffix ≠ "" → within (path ++ suffix) e → below path e.
Proof.
  intros Hne (s & E). exists (suffix ++ s). split.
  - destruct suffix; [done|]. discriminate.
  - by rewrite E, append_assoc.
Qed.

Lemma validateFieldName_Some name path e :
  validateFieldName name path = Some e →
  error_class e = NameError ∧ error_path e = path.
Proof.
  unfold validateFieldName. repeat case_match; intros [= <-]; done.
Qed.

Lemma validateFieldType_Some t path e :
  validateFieldType t path = Some e →
  error_class e = KindError ∧ error_path e = path.
Proof. unfold validateFieldType. case_match; intros [= <-]; done. Qed.

Lemma uniqueOptionValues_Some options i seen path e :
  uniqueOptionValues options i seen path = Some e →
  error_class e = ConstraintError ∧ error_path e = path.
Proof.
  revert i seen. induction options as [|o options IH]; intros i seen; [done|].
  cbn [uniqueOptionValues]. case_match; [by intros [= <-]|apply IH].
Qed.

Lemma validateFieldTypeConstraints_Some field path e :
  validateFieldTypeConstraints field path = Some e →
  error_class e = ConstraintError ∧ error_path e = path.
Proof.
  unfold validateFieldTypeConstraints. intros E.
  repeat (apply ensure_Some in E as [E|E];
          [repeat case_match; simplify_eq;
           try done; by eapply uniqueOptionValues_Some|]).
  done.
Qed.

Lemma rangeFields_Some mkpath fields :
  Forall path_spec fields →
  ∀ i names e,
    rangeFields validateField mkpath fields i names = Some e →
    ∃ j, within (mkpath j) e.
Proof.
  induction 1 as [|field fields Hfield _ IH]; intros i names e; [done|].
  rewrite rangeFields_cons.
  specialize (Hfield names (mkpath i)).
  destruct (validateField field names (mkpath i)) as [[err|] names'];
    simpl in Hfield.
  - intros [= <-]. exists i. by apply Hfield.
  - apply IH.
Qed.

Lemma rangeFields_below (suffix : nat → string) path fields names e :
  Forall path_spec fields →
  (∀ j, suffix j ≠ "") →
  rangeFields validateField (λ j, path ++ suffix j) fields 0 names = Some e →
  below path e.
Proof.
  intros Hfields Hsuffix E.
  apply (rangeFields_Some _ _ Hfields) in E as [j Hj].
  by eapply within_below.
Qed.

Lemma nestedPath_below path fields names e :
  Forall path_spec fields →
  rangeFields validateField (nestedPath path) fields 0 names = Some e →
  below path e.
Proof. intros Hf. by apply (rangeFields_below (λ j, ".fields[" ++ itoa j ++ "]")). Qed.

Lemma thenPath_below path fields names e :
  Forall path_spec fields →
  rangeFields validateField (thenPath path) fields 0 names = Some e →
  below path e.
Proof.
  intros Hf.
  by apply (rangeFields_below (λ j, ".conditional.then[" ++ itoa j ++ "]")).
Qed.

Lemma elsePath_below path fields names e :
  Forall path_spec fields →
  rangeFields validateField (elsePath path) fields 0 names = Some e →
  below path e.
Proof.
  intros Hf.
  by apply (rangeFields_below (λ j, ".conditional.else[" ++ itoa j ++ "]")).
Qed.

Lemma at_within path e : error_path e = path → within path e.
Proof. intros E. exists "". by rewrite append_nil_r. Qed.

Lemma below_within path e : below path e → within path e.
Proof. intros (s & _ & E). by exists s. Qed.

Lemma validateField_within : ∀ field, path_spec field.
Proof.
  apply (Field_tree_ind path_spec conditional_path_spec).
  - intros field Hfields Hcond names path e.
    rewrite validateField_fst. intros E.
    apply ensure_Some in E as [E|E];
      [by apply at_within, (validateFieldName_Some _ _ _ E)|].
    apply ensure_Some in E as [E|E];
      [case_match; simplify_eq; by apply at_within|].
    apply ensure_Some in E as [E|E];
      [by apply at_within, (validateFieldType_Some _ _ _ E)|].
    apply ensure_Some in E as [E|E];
      [by apply at_within, (validateFieldTypeConstraints_Some _ _ _ E)|].
    apply ensure_Some in E as [E|E];
      [by apply at_within, (validateValidationRules_Some _ _ _ _ E)|].
    apply ensure_Some in E as [E|E].
    + destruct (Field_Conditional field) as [c|] eqn:Ec; [|done].
      destruct (Hcond c eq_refl _ _ _ E) as [[-> _]|[[-> _]|Hb]].
      * by apply at_within.
      * by apply at_within.
      * by apply below_within.
    + repeat case_match; simplify_eq; [by apply at_within|].
      by eapply below_within, nestedPath_below.
  - intros c Hthen Helse names path e.
    rewrite validateConditionalField_eq.
    case_bool_decide as Hempty; [intros [= <-]; by left|].
    case_bool_decide as Hin; simpl; [|intros [= <-]; right; by left].
    intros E. right. right.
    apply ensure_Some in E as [E|E].
    + exact (thenPath_below _ _ _ _ Hthen E).
    + exact (elsePath_below _ _ _ _ Helse E).
Qed.

Lemma validateConditionalField_path : ∀ c, conditional_path_spec c.
Proof.
  intros c names path e. rewrite validateConditionalField_eq.
  case_bool_decide as Hempty; [intros [= <-]; by left|].
  case_bool_decide as Hin; simpl; [|intros [= <-]; right; by left].
  intros E. right. right.
  apply ensure_Some in E as [E|E].
  - eapply thenPath_below; [|exact E].
    apply Forall_forall. intros f _. apply validateField_within.
  - eapply elsePath_below; [|exact E].
    apply Forall_forall. intros f _. apply validateField_within.
Qed.

End Paths.

(** ** Consequences for whole forms *)

Section Forms.
Context `{GoLib}.

Lemma text_like_cases t :
  is_text_like t →
  t = FieldTypeText ∨ t = FieldTypeEmail ∨ t = FieldTypePassword ∨
  t = FieldTypeURL ∨ t = FieldTypeTel ∨ t = FieldTypeTextarea.
Proof.
  unfold is_text_like. rewrite !orb_True, !bool_decide_spec. tauto.
Qed.

Lemma choice_cases t :
  is_choice t →
  t = FieldTypeCheckbox ∨ t = FieldTypeRadio ∨ t = FieldTypeSelect.
Proof. unfold is_choice. rewrite !orb_True, !bool_decide_spec. tauto. Qed.

(** The kind rule of the specification is at least as strict as the one
    the code tests. *)
Lemma SpecRulesMatch_CodeRulesMatch t v :
  SpecRulesMatch t v → CodeRulesMatch t v.
Proof.
  intros (Hlen & Hrange & Hitems). repeat split.
  - intros Hr. specialize (Hrange Hr). subst t. done.
  - intros Hi. specialize (Hitems Hi). subst t. done.
  - intros Hl. specialize (Hlen Hl). subst t. done.
  - intros Hi. specialize (Hitems Hi). subst t. done.
  - intros Hl. specialize (Hlen Hl). subst t. done.
  - intros Hr. specialize (Hrange Hr). subst t. done.
  - intros Hl. specialize (Hlen Hl).
    apply choice_cases in H0 as [->| [->| ->]]; done.
  - intros Hr. specialize (Hrange Hr). subst t. done.
  - intros Hi. specialize (Hitems Hi). subst t. done.
Qed.

Lemma ScopeOk_weaken (M M' : FieldType → Validation → Prop) fields :
  Forall (λ field, ∀ visible, FieldOk M visible field → FieldOk M' visible field)
         fields →
  ScopeOk M fields → ScopeOk M' fields.
Proof.
  rewrite Forall_lookup, !ScopeOk_iff. intros Hfields [Hnd Hall].
  split; [exact Hnd|]. intros i f Hi. apply (Hfields i f Hi), Hall, Hi.
Qed.

Lemma FieldOk_weaken (M M' : FieldType → Validation → Prop) :
  (∀ t v, M t v → M' t v) →
  ∀ field visible, FieldOk M visible field → FieldOk M' visible field.
Proof.
  intros HM.
  apply (Field_tree_ind
    (λ field, ∀ visible, FieldOk M visible field → FieldOk M' visible field)
    (λ c, ∀ visible, ConditionalOk M visible c → ConditionalOk M' visible c)).
  - intros field Hfields Hcond visible.
    rewrite !FieldOk_iff. intros (Hn & Ht & Ho & Hv & Hc & Hf).
    split; [exact Hn|]. split; [exact Ht|]. split; [exact Ho|].
    split; [|split].
    + intros v Ev. destruct (Hv v Ev) as [Hb Hm]. split; [exact Hb|].
      apply HM, Hm.
    + intros c Ec. apply (Hcond c Ec), Hc, Ec.
    + intros Hne. destruct (Hf Hne) as [Hk Hs]. split; [exact Hk|].
      eapply ScopeOk_weaken; [exact Hfields|exact Hs].
  - intros c Hthen Helse visible.
    rewrite !ConditionalOk_iff. intros (Hne & Hin & Hs1 & Hs2).
    split; [exact Hne|]. split; [exact Hin|]. split.
    + eapply ScopeOk_weaken; [exact Hthen|exact Hs1].
    + eapply ScopeOk_weaken; [exact Helse|exact Hs2].
Qed.

Lemma FormOk_weaken (M M' : FieldType → Validation → Prop) form :
  (∀ t v, M t v → M' t v) → FormOk M form → FormOk M' form.
Proof.
  intros HM (Hne & Hm & Hs). split; [exact Hne|]. split; [exact Hm|].
  eapply ScopeOk_weaken; [|exact Hs].
  apply Forall_forall. intros field _. by apply FieldOk_weaken.
Qed.

(** Every field of a well-formed scope is well formed, at any depth. *)
Lemma ScopeOk_InTree M field fields :
  InTree field fields → ScopeOk M fields → ∃ visible, FieldOk M visible field.
Proof.
  induction 1 as [field fields Hin
                 |field parent fields Hin _ IH
                 |field parent c fields Hin Hc _ IH
                 |field parent c fields Hin Hc _ IH];
    rewrite ScopeOk_iff; intros [_ Hall].
  - apply list_elem_of_lookup in Hin as [i Hi]. eauto.
  - apply list_elem_of_lookup in Hin as [i Hi].
    specialize (Hall i parent Hi). apply FieldOk_iff in Hall.
    destruct Hall as (_ & _ & _ & _ & _ & Hf). apply IH.
    destruct (Field_Fields parent) as [|f fs] eqn:E; [apply ScopeOk_nil|].
    by apply Hf.
  - apply list_elem_of_lookup in Hin as [i Hi].
    specialize (Hall i parent Hi). apply FieldOk_iff in Hall.
    destruct Hall as (_ & _ & _ & _ & Hc' & _).
    specialize (Hc' c Hc). apply ConditionalOk_iff in Hc'. apply IH. tauto.
  - apply list_elem_of_lookup in Hin as [i Hi].
    specialize (Hall i parent Hi). apply FieldOk_iff in Hall.
    destruct Hall as (_ & _ & _ & _ & Hc' & _).
    specialize (Hc' c Hc). apply ConditionalOk_iff in Hc'. apply IH. tauto.
Qed.



(** C1 (amended). [Validate] returns success exactly on the forms that are
    present and satisfy the invariants as the code tests them: at least one
    top-level field; a method that is empty or, in upper case, one of the
    seven verbs; in every scope, non-empty names pairwise distinct, each
    matching the pattern and not reserved; a recognised kind; the option
    rules of the kind; bounds non-negative and ordered ([min > max] false,
    [step <= 0] false); the kind rule [CodeRulesMatch], which constrains the
    text-like, number, array and choice kinds only; children only on object
    and array; a condition that is non-empty and names a field registered in
    the enclosing scope, the field's own name included. *)
Theorem Validate_success_iff_invariants (f : option Form) :
  Validate f = None ↔ ∃ form, f = Some form ∧ FormOk CodeRulesMatch form.
Proof.
  destruct f as [form|].
  - rewrite Validate_None. naive_solver.
  - split; [done|]. by intros (form & ? & _).
Qed.


Lemma anonymous_not_registered field names path :
  Field_Name field = "" → (validateField field names path).2 = names.
Proof.
  destruct field as [n t l d ph df v os vl ro dp fs cd ht].
  cbn [Field_Name]. intros ->. cbn [validateField Field_Name].
  destruct (validateFieldName "" path); [reflexivity|].
  destruct (negb (bool_decide ("" = "")) && bool_decide ("" ∈ names));
    reflexivity.
Qed.

Lemma anonymous_no_name_error field names path e :
  Field_Name field = "" →
  (validateField field names path).1 = Some e →
  ¬ (error_class e = NameError ∧ error_path e = path).
Proof.
  intros Hname E [Hclass Hpath]. rewrite validateField_fst, Hname in E.
  apply ensure_Some in E as [E|E]; [discriminate E|].
  apply ensure_Some in E as [E|E]; [discriminate E|].
  apply ensure_Some in E as [E|E].
  { apply validateFieldType_Some in E as [E _]. congruence. }
  apply ensure_Some in E as [E|E].
  { apply validateFieldTypeConstraints_Some in E as [E _]. congruence. }
  apply ensure_Some in E as [E|E].
  { apply validateValidationRules_Some in E as [E _]. congruence. }
  apply ensure_Some in E as [E|E].
  - destruct (Field_Conditional field) as [c|]; [|discriminate E]. simpl in E.
    apply validateConditionalField_path in E as [[-> _]|[[-> _]|Hb]].
    + discriminate Hclass.
    + discriminate Hclass.
    + by apply below_not_at in Hb.
  - case_match; [|discriminate].
    case_match; [injection E as <-; discriminate Hclass|].
    apply nestedPath_below in E; [by apply below_not_at in E|].
    apply Forall_forall. intros f _. apply validateField_within.
Qed.

(** C9. Empty names are exempt from the pattern check and from the
    uniqueness check. A field with the empty name is not registered in the
    scope table and gets no name error (neither invalid, reserved nor
    duplicate), whatever the table holds; and a form that satisfies the
    invariants of the specification, where uniqueness is asked of the
    non-empty names of a scope only (so that any number of siblings may be
    anonymous), passes [Validate]. *)
Theorem anonymous_siblings_accepted :
  (∀ field names path,
     Field_Name field = "" →
     (validateField field names path).2 = names ∧
     ∀ e, (validateField field names path).1 = Some e →
          ¬ (error_class e = NameError ∧ error_path e = path)) ∧
  (∀ form, FormOk SpecRulesMatch form → Validate (Some form) = None).
Proof.
  split.
  - intros field names path Hname. split.
    + by apply anonymous_not_registered.
    + intros e. by apply anonymous_no_name_error.
  - intros form Hok. apply Validate_None.
    eapply FormOk_weaken; [|exact Hok]. apply SpecRulesMatch_CodeRulesMatch.
Qed.

(** C10. [Validate] on a nil form returns the error "form cannot be nil":
    the nil case is decided before the form is looked at. *)
Theorem Validate_nil :
  Validate None = Some FormNil ∧ Error FormNil = "form cannot be nil".
Proof. split; reflexivity. Qed.

Lemma rangeFields_app mkpath before rest :
  ∀ i names,
    rangeFields validateField mkpath before i names = None →
    rangeFields validateField mkpath (before ++ rest)%list i names =
    rangeFields validateField mkpath rest (i + length before)
      (names ∪ list_to_set (nonempty_names before)).
Proof.
  induction before as [|field before IH]; intros i names.
  - intros _. rewrite Nat.add_0_r.
    replace (names ∪ list_to_set (nonempty_names [])) with names by set_solver.
    done.
  - rewrite <- app_comm_cons, !rangeFields_cons.
    pose proof (validateField_snd field names (mkpath i)) as Hsnd.
    destruct (validateField field names (mkpath i)) as [[err|] names'];
      [done|]. simpl in Hsnd. rewrite (Hsnd eq_refl). intros Hrest.
    rewrite (IH _ _ Hrest). f_equal.
    + rewrite length_cons. lia.
    + rewrite nonempty_names_cons. unfold register.
      case_bool_decide; set_solver.
Qed.

Lemma ensure_prefix (a b c d f g k : error) e :
  (ensure a; ensure b; ensure c; ensure d; ensure f; ensure g; None) = Some e →
  (ensure a; ensure b; ensure c; ensure d; ensure f; ensure g; k) = Some e.
Proof. destruct a, b, c, d, f, g; done. Qed.

(** The nested fields of a field are examined last: a violation found with
    the children taken away is the one reported with them. *)
Lemma children_checked_last field names path e :
  (validateField (set_Fields [] field) names path).1 = Some e →
  (validateField field names path).1 = Some e.
Proof.
  rewrite !validateField_fst. apply ensure_prefix.
Qed.

(** When the fields before [field] are accepted and [field], its children
    left aside, has a violation, [Validate] reports that violation. *)
Lemma first_violation_wins form before field after e :
  Form_Fields form = (before ++ field :: after)%list →
  MethodOk (Form_Method form) →
  rangeFields validateField fieldsPath before 0 ∅ = None →
  (validateField (set_Fields [] field)
     (list_to_set (nonempty_names before)) (fieldsPath (length before))).1
  = Some e →
  Validate (Some form) = Some e.
Proof.
  intros Hfields Hmethod Hbefore Hfield. unfold Validate.
  rewrite Hfields. rewrite length_app, length_cons.
  replace (length before + S (length after) =? 0)%nat with false
    by (symmetry; apply Nat.eqb_neq; lia).
  apply validateMethod_None in Hmethod. rewrite Hmethod.
  rewrite (rangeFields_app _ _ _ _ _ Hbefore), rangeFields_cons.
  apply children_checked_last in Hfield. simpl.
  replace (∅ ∪ list_to_set (nonempty_names before))
    with (list_to_set (nonempty_names before) : gset string) by set_solver.
  destruct (validateField field _ _) as [[err|] names']; simpl in Hfield;
    congruence.
Qed.

Lemma scope_at_head names field fields :
  scope_at names (field :: fields) 0 = names.
Proof. unfold scope_at. rewrite take_0. set_solver. Qed.

Lemma scope_at_tail names field fields j :
  scope_at names (field :: fields) (S j)
  = scope_at (register (Field_Name field) names) fields j.
Proof.
  unfold scope_at, register. rewrite firstn_cons, nonempty_names_cons.
  case_bool_decide; set_solver.
Qed.

Lemma rangeFields_first_error mkpath fields :
  ∀ i names,
    rangeFields validateField mkpath fields i names =
    first_error
      (imap (λ j field,
               (validateField field (scope_at names fields j)
                  (mkpath (i + j)%nat)).1)
            fields).
Proof.
  induction fields as [|field fields IH]; intros i names; [done|].
  rewrite rangeFields_cons, imap_cons. cbn [first_error foldr].
  rewrite scope_at_head, Nat.add_0_r.
  pose proof (validateField_snd field names (mkpath i)) as Hsnd.
  destruct (validateField field names (mkpath i)) as [[err|] names'];
    [done|]. simpl in Hsnd. rewrite (Hsnd eq_refl), IH. cbn [fst].
  unfold first_error. f_equal. apply imap_ext. intros j f _. simpl.
  by rewrite scope_at_tail, Nat.add_succ_r.
Qed.

Lemma rangeFields_in_list_order mkpath fields names :
  rangeFields validateField mkpath fields 0 names
  = first_error (in_list_order mkpath fields names).
Proof. apply rangeFields_first_error. Qed.

Lemma nested_last mkpath (fields : list Field) (k : bool) (e : Violation) :
  (if (0 <? length fields)%nat
   then if k then Some e else rangeFields validateField mkpath fields 0 ∅
   else None)
  = (ensure (if (0 <? length fields)%nat && k then Some e else None);
     ensure rangeFields validateField mkpath fields 0 ∅;
     None).
Proof.
  destruct fields as [|field fields]; [done|].
  cbn [length Nat.ltb Nat.leb andb]. destruct k; [done|].
  by destruct (rangeFields _ _ _ _ _).
Qed.

Lemma validateField_field_order field names path :
  (validateField field names path).1 = first_error (field_order field names path).
Proof.
  rewrite validateField_fst. unfold field_order.
  rewrite <- !rangeFields_in_list_order.
  destruct (Field_Conditional field) as [c|]; cbn [validateConditionalFieldPtr].
  - rewrite validateConditionalField_eq. rewrite <- !rangeFields_in_list_order.
    cbn [app first_error foldr].
    destruct (validateFieldName _ _); [done|]. destruct (if _ && _ then _ else _); [done|].
    destruct (validateFieldType _ _); [done|].
    destruct (validateFieldTypeConstraints _ _); [done|].
    destruct (validateValidationRules _ _ _); [done|].
    destruct (bool_decide (ConditionalField_Condition c = "")); [done|].
    destruct (bool_decide (ConditionalField_Condition c ∈ _)); cbn [negb]; [|done].
    destruct (rangeFields validateField (thenPath path) _ _ _); [done|].
    destruct (rangeFields validateField (elsePath path) _ _ _); [done|].
    apply nested_last.
  - cbn [app first_error foldr].
    destruct (validateFieldName _ _); [done|]. destruct (if _ && _ then _ else _); [done|].
    destruct (validateFieldType _ _); [done|].
    destruct (validateFieldTypeConstraints _ _); [done|].
    destruct (validateValidationRules _ _ _); [done|].
    apply nested_last.
Qed.

(** C4 (amended). [Validate] returns the first violation of this walk: the
    form-level checks, then the top-level fields in list order, each in the
    scope of the non-empty names of its preceding siblings. On one field the
    order is [field_order]: name, duplicate test, kind, options, validation
    rules; then the conditional, checked with the field's own name already
    registered in the enclosing scope (condition, then list, else list,
    each list in a fresh scope); and only then the nested children, in a
    fresh scope. In particular, when the fields before [field] are accepted
    and [field], its children left aside, has a violation (in a branch of
    its conditional, say), that violation is the one reported, whatever the
    children hold. *)
Theorem traversal_order :
  (∀ form, Validate (Some form) = first_error (form_order form)) ∧
  (∀ mkpath fields names,
     rangeFields validateField mkpath fields 0 names
     = first_error (in_list_order mkpath fields names)) ∧
  (∀ field names path,
     (validateField field names path).1
     = first_error (field_order field names path)) ∧
  (∀ form before field after e,
     Form_Fields form = (before ++ field :: after)%list →
     MethodOk (Form_Method form) →
     rangeFields validateField fieldsPath before 0 ∅ = None →
     (validateField (set_Fields [] field)
        (list_to_set (nonempty_names before)) (fieldsPath (length before))).1
     = Some e →
     Validate (Some form) = Some e).
Proof.
  split; [|split; [|split]].
  - intros form. unfold Validate, form_order. cbn [first_error foldr].
    rewrite <- rangeFields_in_list_order.
    destruct (length (Form_Fields form) =? 0)%nat; [done|].
    destruct (validateMethod _); [done|].
    by destruct (rangeFields _ _ _ _ _).
  - apply rangeFields_in_list_order.
  - apply validateField_field_order.
  - apply first_violation_wins.
Qed.

(** C5 (amended). A conditional may name its own field: when the condition
    of a field equals the field's non-empty name, the name is already
    registered when the conditional is checked, and no reference error is
    reported for this field, whatever else [validateField] reports. *)
Theorem self_reference_accepted field c names path e :
  Field_Conditional field = Some c →
  ConditionalField_Condition c = Field_Name field →
  Field_Name field ≠ "" →
  (validateField field names path).1 = Some e →
  ¬ (error_class e = ReferenceError ∧ error_path e = path).
Proof.
  intros Ec Hself Hname E [Hclass Hpath]. rewrite validateField_fst in E.
  apply ensure_Some in E as [E|E].
  { apply validateFieldName_Some in E as [E _]. congruence. }
  apply ensure_Some in E as [E|E].
  { case_match; [|discriminate]. injection E as <-. discriminate Hclass. }
  apply ensure_Some in E as [E|E].
  { apply validateFieldType_Some in E as [E _]. congruence. }
  apply ensure_Some in E as [E|E].
  { apply validateFieldTypeConstraints_Some in E as [E _]. congruence. }
  apply ensure_Some in E as [E|E].
  { apply validateValidationRules_Some in E as [E _]. congruence. }
  apply ensure_Some in E as [E|E].
  - rewrite Ec in E. simpl in E.
    apply validateConditionalField_path in E as [[_ Hc]|[[_ Hc]|Hb]].
    + congruence.
    + apply Hc. rewrite Hself. apply elem_of_register. by left.
    + by apply below_not_at in Hb.
  - case_match; [|discriminate].
    case_match; [injection E as <-; discriminate Hclass|].
    apply nestedPath_below in E; [by apply below_not_at in E|].
    apply Forall_forall. intros f _. apply validateField_within.
Qed.

End Forms.

(** ** Examples, with the ASCII instance of the library functions *)

#[local] Existing Instance asciiLib.
#[local] Existing Instance plainJson.

(** Closed decidable facts, by evaluation. *)
Ltac by_compute := apply (bool_decide_unpack _); vm_compute; exact I.

(** C1, counterexample. A hidden field with a minimum length violates the
    kind rule of the specification (string bounds only for text-like kinds),
    yet [Validate] accepts the form. *)
Lemma hidden_field_with_length_bound_accepted :
  Validate (Some hiddenForm) = None ∧ ¬ FormOk SpecRulesMatch hiddenForm.
Proof.
  split; [vm_compute; reflexivity|].
  intros (_ & _ & Hs). apply ScopeOk_iff in Hs as [_ Hall].
  specialize (Hall 0%nat hiddenWithMinLength eq_refl).
  apply FieldOk_iff in Hall as (_ & _ & _ & Hv & _).
  destruct (Hv _ eq_refl) as [_ (Hlen & _)].
  exact (Hlen I).
Qed.



Lemma anonymousForm_invariants : FormOk SpecRulesMatch anonymousForm.
Proof.
  split; [discriminate|]. split; [right; by_compute|].
  constructor; [by_compute|].
  intros i field Hi.
  assert (Field_Name field = "" ∧ Field_Options field = [] ∧
          Field_Validation field = None ∧ Field_Conditional field = None ∧
          Field_Fields field = [] ∧
          (Field_Type field = FieldTypeText ∨ Field_Type field = FieldTypeEmail))
    as (Hn & Ho & Hv & Hc & Hf & Ht).
  { destruct i as [|[|i]]; [| |discriminate]; injection Hi as <-;
      repeat split; auto. }
  constructor.
  - by left.
  - destruct Ht as [-> | ->]; by_compute.
  - rewrite Ho. unfold OptionsOk.
    destruct Ht as [-> | ->]; (split; [|split]); intros Hk;
      [destruct Hk; discriminate | discriminate | reflexivity
      |destruct Hk; discriminate | discriminate | reflexivity].
  - rewrite Hv. discriminate.
  - rewrite Hc. discriminate.
  - rewrite Hf. congruence.
Defined.

Lemma anonymous_siblings_accepted_witness :
  FormOk SpecRulesMatch anonymousForm ∧ Validate (Some anonymousForm) = None.
Proof.
  split; [exact anonymousForm_invariants|].
  apply (proj2 anonymous_siblings_accepted anonymousForm
           anonymousForm_invariants).
Defined.

(** C4, counterexample. The nested child of the second field has an
    unknown kind and the then branch of its conditional holds a reserved
    name: [Validate] reports the violation of the branch, not the one of
    the child. *)
Lemma conditional_violation_reported_first :
  rangeFields validateField (nestedPath "fields[1]")
    (Field_Fields detailsField) 0 ∅
  = Some (InvalidType "fields[1].fields[0]" "bogus") ∧
  Validate (Some orderForm)
  = Some (ReservedName "fields[1].conditional.then[0]" "submit") ∧
  Validate (Some orderForm) ≠ Some (InvalidType "fields[1].fields[0]" "bogus").
Proof.
  split; [vm_compute; reflexivity|]. split; [vm_compute; reflexivity|].
  vm_compute. discriminate.
Qed.

Lemma traversal_order_witness :
  Form_Fields orderForm
  = ([newField "kind" FieldTypeText] ++ detailsField :: [])%list ∧
  Validate (Some orderForm)
  = Some (ReservedName "fields[1].conditional.then[0]" "submit").
Proof.
  split; [reflexivity|].
  apply (proj2 (proj2 (proj2 traversal_order)) orderForm
           [newField "kind" FieldTypeText] detailsField []).
  - reflexivity.
  - left. reflexivity.
  - vm_compute. reflexivity.
  - vm_compute. reflexivity.
Defined.

(** C5, counterexample. The only field of the form is named "plan" and its
    conditional names "plan"; [Validate] succeeds. *)
Lemma self_reference_validates :
  Form_Fields planForm = [planField] ∧
  Field_Conditional planField = Some planCondition ∧
  ConditionalField_Condition planCondition = Field_Name planField ∧
  Validate (Some planForm) = None.
Proof. repeat split; vm_compute; reflexivity. Qed.

Lemma self_reference_accepted_witness :
  (validateField tierField ∅ "fields[0]").1
  = Some (ReservedName "fields[0].conditional.then[0]" "reset") ∧
  ¬ (error_class (ReservedName "fields[0].conditional.then[0]" "reset")
     = ReferenceError ∧
     error_path (ReservedName "fields[0].conditional.then[0]" "reset")
     = "fields[0]").
Proof.
  assert (E : (validateField tierField ∅ "fields[0]").1
              = Some (ReservedName "fields[0].conditional.then[0]" "reset"))
    by (vm_compute; reflexivity).
  split; [exact E|].
  apply (self_reference_accepted tierField
           (mkConditionalField "tier" ANil [newField "reset" FieldTypeText] [])
           ∅ "fields[0]" _ eq_refl eq_refl).
  - discriminate.
  - exact E.
Defined.

(** ** Induction on the schema tree *)

Section Schema_induction.
Variable P : Schema → Prop.

Hypothesis Hschema : ∀ s,
  on_properties P (Schema_Properties s) →
  on_pointer P (Schema_Items s) →
  on_pointer P (Schema_If s) →
  on_pointer P (Schema_Then s) →
  on_pointer P (Schema_Else s) →
  P s.

Lemma Schema_tree_ind : ∀ s, P s.
Proof.
  fix IH 1.
  intros [x0 x1 x2 x3 x4 x5 x6 x7 x8 x9 x10 x11 x12 sif sth sel x16 x17 items
            x19 props x21 x22 x23 x24 x25 x26 x27 x28 x29 x30 x31 x32 x33 x34
            x35 x36 x37 x38 x39 x40 x41 x42 x43 x44 x45 x46 x47 x48 x49 x50 x51
            x52 x53 x54].
  apply Hschema; simpl.
  - intros l E. destruct props as [l'|]; [injection E as <-|discriminate].
    induction l' as [|[k [s'|]] l' IHl]; constructor; try exact IHl.
    + intros s0 E. injection E as <-. apply IH.
    + intros s0 E. discriminate.
  - intros s E. destruct items as [s'|]; [injection E as <-|discriminate].
    apply IH.
  - intros s E. destruct sif as [s'|]; [injection E as <-|discriminate].
    apply IH.
  - intros s E. destruct sth as [s'|]; [injection E as <-|discriminate].
    apply IH.
  - intros s E. destruct sel as [s'|]; [injection E as <-|discriminate].
    apply IH.
Qed.

End Schema_induction.

(** ** The converter *)

Section Conversion.
Context `{GoLib} `{JsonLib}.

Lemma mapJSONTypeToFieldType_total jsonType schema :
  ∃ t, mapJSONTypeToFieldType jsonType schema = Ok t.
Proof. unfold mapJSONTypeToFieldType. repeat case_match; eauto. Qed.

Lemma determineFieldType_total schema :
  ∃ t, determineFieldType schema = Ok t.
Proof.
  unfold determineFieldType. destruct (GetType schema) as [[typeStr typeArray] hasType].
  repeat case_match; eauto using mapJSONTypeToFieldType_total.
Qed.

Lemma convertSchemaToField_eq name schema :
  convertSchemaToField name schema =
  let* fieldType := determineFieldType schema in
  let field := scalarField name schema fieldType in
  let* field :=
    if bool_decide (fieldType = FieldTypeObject) then
      match Schema_Properties schema with
      | Some properties =>
          let* nestedFields :=
            convertPropertiesToFields properties (Schema_Required schema) in
          Ok (set_Fields nestedFields field)
      | None => Ok field
      end
    else Ok field in
  let* field :=
    if bool_decide (fieldType = FieldTypeArray) then
      let* field :=
        match Schema_Items schema with
        | Some items =>
            let* itemField := convertSchemaToField "item" items in
            match itemField with
            | Some itemField => Ok (set_Fields [itemField] field)
            | None => Ok field
            end
        | None => Ok field
        end in
      Ok (itemBounds schema field)
    else Ok field in
  let* conditional := buildConditionalField schema in
  match conditional with
  | Some conditional => Ok (Some (set_Conditional (Some conditional) field))
  | None => Ok (Some field)
  end.
Proof.
  destruct schema as
    [x0 x1 x2 x3 x4 x5 x6 x7 x8 x9 x10 x11 x12 sif sth sel x16 x17 items
            x19 props x21 x22 x23 x24 x25 x26 x27 x28 x29 x30 x31 x32 x33 x34
            x35 x36 x37 x38 x39 x40 x41 x42 x43 x44 x45 x46 x47 x48 x49 x50 x51
            x52 x53 x54].
  destruct sif; reflexivity.
Qed.

Lemma same_head_refl f : same_head f f.
Proof. done. Qed.

Lemma same_head_trans f g h : same_head f g → same_head g h → same_head f h.
Proof. intros (?&?&?) (?&?&?). repeat split; congruence. Qed.

Lemma itemBounds_head schema field : same_head (itemBounds schema field) field.
Proof. unfold itemBounds. repeat case_match; done. Qed.

Lemma convertPropertiesToFields_cons name propSchema rest required :
  convertPropertiesToFields ((name, propSchema) :: rest) required =
  match convertSchemaToFieldPtr name propSchema with
  | Err msg => Err ("error converting field " ++ name ++ ": " ++ msg)
  | Ok None => convertPropertiesToFields rest required
  | Ok (Some field) =>
      let field :=
        if bool_decide (name ∈ (list_to_set required : gset string))
        then set_Validation
               (Some (set_Required true (ensureValidation field))) field
        else field in
      let* fields := convertPropertiesToFields rest required in
      Ok (field :: fields)
  end.
Proof. destruct propSchema; reflexivity. Qed.

Lemma scalarField_name name schema t :
  Field_Name (scalarField name schema t) = name.
Proof. unfold scalarField. repeat case_match; reflexivity. Qed.

Lemma properties_total_nil : properties_total [].
Proof. intros required. by exists []. Qed.

Lemma properties_total_of properties :
  Forall (λ kv, on_pointer field_total kv.2) properties →
  properties_total properties.
Proof.
  induction 1 as [|[name [propSchema|]] rest Hhead _ IH]; intros required.
  - by exists [].
  - destruct (IH required) as (fields & Hrest & Hnames).
    destruct (Hhead propSchema eq_refl name) as (t & field & _ & Hfield & Hname & _).
    rewrite convertPropertiesToFields_cons. simpl. rewrite Hfield, Hrest.
    eexists. split; [reflexivity|].
    unfold presentKeys. rewrite filter_cons_True by (simpl; eauto).
    rewrite !fmap_cons. f_equal; [|exact Hnames].
    rewrite scalarField_name in Hname. by case_match.
  - destruct (IH required) as (fields & Hrest & Hnames).
    rewrite convertPropertiesToFields_cons. simpl.
    exists fields. split; [exact Hrest|].
    unfold presentKeys. rewrite filter_cons_False; [exact Hnames|].
    simpl. by intros [? ?].
Qed.

Lemma branch_total (o : option Schema) :
  on_pointer schema_total o →
  ∃ fields,
    match o with
    | Some t =>
        match Schema_Properties t with
        | Some properties =>
            convertPropertiesToFieldsWith convertSchemaToField properties
              (Schema_Required t)
        | None =>
            convertPropertiesToFieldsWith convertSchemaToField []
              (Schema_Required t)
        end
    | None => Ok []
    end = Ok fields.
Proof.
  intros Ho. destruct o as [t|]; [|by exists []].
  destruct (Ho t eq_refl) as [_ Hprops].
  destruct (Schema_Properties t) as [properties|]; [|by exists []].
  destruct (Hprops properties eq_refl (Schema_Required t)) as (fields & E & _).
  by exists fields.
Qed.

Lemma buildConditionalField_total schema :
  on_pointer schema_total (Schema_Then schema) →
  on_pointer schema_total (Schema_Else schema) →
  ∃ conditional, buildConditionalField schema = Ok conditional.
Proof.
  intros Hthen Helse. unfold buildConditionalField.
  destruct (Schema_If schema) as [ifSchema|]; [|by eexists].
  unfold buildConditionalFieldWith.
  destruct (branch_total _ Hthen) as [thenFields ->].
  destruct (branch_total _ Helse) as [elseFields ->].
  case_match; by eexists.
Qed.

Lemma convertSchemaToField_total : ∀ schema, schema_total schema.
Proof.
  apply Schema_tree_ind.
  intros schema Hprops Hitems _ Hthen Helse.
  assert (Hown : ∀ properties, Schema_Properties schema = Some properties →
                               properties_total properties).
  { intros properties E. apply properties_total_of.
    eapply Forall_impl; [exact (Hprops properties E)|].
    intros [k o] Ho s Es. exact (proj1 (Ho s Es)). }
  split; [|exact Hown].
  intros name. destruct (determineFieldType_total schema) as [t Ht].
  rewrite convertSchemaToField_eq, Ht. cbv beta iota zeta.
  set (field0 := scalarField name schema t).
  assert (∃ field1,
    (if bool_decide (t = FieldTypeObject) then
       match Schema_Properties schema with
       | Some properties =>
           let* nestedFields :=
             convertPropertiesToFields properties (Schema_Required schema) in
           Ok (set_Fields nestedFields field0)
       | None => Ok field0
       end
     else Ok field0) = Ok field1 ∧ same_head field1 field0)
    as (field1 & -> & Hhead1).
  { case_match; [|by eexists].
    destruct (Schema_Properties schema) as [properties|]; [|by eexists].
    destruct (Hown properties eq_refl (Schema_Required schema))
      as (fields & -> & _).
    by eexists. }
  assert (∃ field2,
    (if bool_decide (t = FieldTypeArray) then
       let* field :=
         match Schema_Items schema with
         | Some items =>
             let* itemField := convertSchemaToField "item" items in
             match itemField with
             | Some itemField => Ok (set_Fields [itemField] field1)
             | None => Ok field1
             end
         | None => Ok field1
         end in
       Ok (itemBounds schema field)
     else Ok field1) = Ok field2 ∧ same_head field2 field1)
    as (field2 & -> & Hhead2).
  { case_match; [|by eexists].
    destruct (Schema_Items schema) as [items|].
    - destruct (Hitems items eq_refl) as [Hitem _].
      destruct (Hitem "item") as (ti & itemField & _ & -> & _).
      eexists. split; [reflexivity|].
      eapply same_head_trans; [apply itemBounds_head|done].
    - eexists. split; [reflexivity|]. apply itemBounds_head. }
  destruct (buildConditionalField_total schema Hthen Helse) as [conditional ->].
  exists t. destruct conditional as [conditional|]; eexists;
    (split; [reflexivity|]); (split; [reflexivity|]);
    (eapply same_head_trans; [|eapply same_head_trans; [exact Hhead2|exact Hhead1]]);
    done.
Qed.

Lemma scalarField_enum name schema t :
  Schema_Enum schema ≠ [] →
  Field_Options (scalarField name schema t)
  = convertEnumToOptions (Schema_Enum schema) ∧
  Field_Type (scalarField name schema t)
  = if (length (Schema_Enum schema) <=? 3)%nat
    then FieldTypeRadio else FieldTypeSelect.
Proof.
  intros Hne. unfold scalarField.
  assert ((0 <? length (Schema_Enum schema))%nat = true) as ->
    by (destruct (Schema_Enum schema); [done|reflexivity]).
  cbv zeta. cbn [set_Options Field_Options].
  assert (length (convertEnumToOptions (Schema_Enum schema))
          = length (Schema_Enum schema)) as -> by apply length_map.
  destruct (length (Schema_Enum schema) <=? 3)%nat; split; reflexivity.
Qed.

(** C2. A schema node with a non-empty enum of size k converts to a field
    with exactly k options, of kind radio when k <= 3 and select otherwise,
    whatever type the node declares. *)
Theorem enum_becomes_radio_or_select name schema :
  Schema_Enum schema ≠ [] →
  ∃ field,
    convertSchemaToField name schema = Ok (Some field) ∧
    length (Field_Options field) = length (Schema_Enum schema) ∧
    Field_Type field
    = if (length (Schema_Enum schema) <=? 3)%nat
      then FieldTypeRadio else FieldTypeSelect.
Proof.
  intros Hne.
  destruct (convertSchemaToField_total schema) as [Hfield _].
  destruct (Hfield name) as (t & field & _ & E & _ & Htype & Hoptions).
  destruct (scalarField_enum name schema t Hne) as [Eo Et].
  exists field. split; [exact E|]. split.
  - rewrite Hoptions, Eo. unfold convertEnumToOptions. apply length_map.
  - by rewrite Htype, Et.
Qed.

(** C3 (amended). Converting the properties of a map never fails and yields
    one field per property bound to a schema, named after the property, in
    the order in which the entries are iterated: the keys are not sorted.
    Two iterations that yield the same keys bound to a schema, in whatever
    orders (and whatever the orders in the maps below), yield fields whose
    names are a permutation of one another. *)
Theorem fields_follow_iteration_order properties required :
  ∃ fields,
    convertPropertiesToFields properties required = Ok fields ∧
    Field_Name <$> fields = presentKeys properties ∧
    ∀ properties' required',
      presentKeys properties ≡ₚ presentKeys properties' →
      ∃ fields',
        convertPropertiesToFields properties' required' = Ok fields' ∧
        Field_Name <$> fields ≡ₚ Field_Name <$> fields'.
Proof.
  assert (Htotal : ∀ l, properties_total l).
  { intros l. apply properties_total_of, Forall_forall.
    intros [k o] _ s _. apply convertSchemaToField_total. }
  destruct (Htotal properties required) as (fields & E & Hnames).
  exists fields. split; [exact E|]. split; [exact Hnames|].
  intros properties' required' Hperm.
  destruct (Htotal properties' required') as (fields' & E' & Hnames').
  exists fields'. split; [exact E'|].
  by rewrite Hnames, Hnames'.
Qed.

(** C8. When a schema carries both an inclusive and an exclusive bound on
    one side, the validation block is built and holds the exclusive one. *)
Theorem exclusive_bound_wins schema :
  (∀ lo x, Schema_Minimum schema = Some lo →
           Schema_ExclusiveMinimum schema = Some x →
           ∃ v, buildValidation (Some schema) = Some v ∧
                Validation_Min v = Some x) ∧
  (∀ hi x, Schema_Maximum schema = Some hi →
           Schema_ExclusiveMaximum schema = Some x →
           ∃ v, buildValidation (Some schema) = Some v ∧
                Validation_Max v = Some x).
Proof.
  split.
  - intros lo x Hlo Hx. unfold buildValidation. rewrite Hlo, Hx. cbv zeta.
    destruct (Schema_MinLength schema),
      (Schema_MaxLength schema),
      (Schema_Maximum schema),
      (Schema_ExclusiveMaximum schema),
      (Schema_MultipleOf schema),
      (bool_decide (Schema_Pattern schema = ""));
      (eexists; split; reflexivity).
  - intros hi x Hhi Hx. unfold buildValidation. rewrite Hhi, Hx. cbv zeta.
    destruct (Schema_MinLength schema),
      (Schema_MaxLength schema),
      (Schema_Minimum schema),
      (Schema_ExclusiveMinimum schema),
      (Schema_MultipleOf schema),
      (bool_decide (Schema_Pattern schema = ""));
      (eexists; split; reflexivity).
Qed.

End Conversion.

(** C2, an instance: an object schema with four enum values becomes a
    select with four options. *)
Lemma enum_becomes_radio_or_select_witness :
  Schema_Enum enumSchema ≠ [] ∧
  ∃ field,
    convertSchemaToField "size" enumSchema = Ok (Some field) ∧
    length (Field_Options field) = 4%nat ∧
    Field_Type field = FieldTypeSelect.
Proof.
  assert (Hne : Schema_Enum enumSchema ≠ []) by discriminate.
  split; [exact Hne|].
  exact (enum_becomes_radio_or_select "size" enumSchema Hne).
Defined.

(** C3, counterexample. The map with the properties [a] and [b] converts to
    the fields [a; b] when iterated in one order and to [b; a] in the
    other. *)
Lemma field_order_depends_on_iteration :
  propertiesAB ≡ₚ propertiesBA ∧
  convertPropertiesToFields propertiesAB []
  = Ok [newField "a" FieldTypeText; newField "b" FieldTypeText] ∧
  convertPropertiesToFields propertiesBA []
  = Ok [newField "b" FieldTypeText; newField "a" FieldTypeText] ∧
  convertPropertiesToFields propertiesAB []
  ≠ convertPropertiesToFields propertiesBA [].
Proof.
  split; [apply perm_swap|].
  split; [vm_compute; reflexivity|]. split; [vm_compute; reflexivity|].
  vm_compute. discriminate.
Qed.

(** C8, an instance: minimum 1 and exclusiveMinimum 5 give Min = 5. *)
Lemma exclusive_bound_wins_witness :
  ∃ v, buildValidation (Some boundedSchema) = Some v ∧
       Validation_Min v = Some 5%float.
Proof.
  exact (proj1 (exclusive_bound_wins boundedSchema) 1%float 5%float
           eq_refl eq_refl).
Defined.

(** ** The walk over a store computes the same result and keeps the form *)

Section Store_refinement.
Context `{GoLib}.

Lemma extends_refl m names σ :
  InPlace.heap_maps σ !! m = Some names → InPlace.extends m names σ σ.
Proof.
  intros Hm. split; [done|]. exists []. by rewrite app_nil_r, list_insert_id.
Qed.

Lemma extends_lookup m names σ σ' :
  (m < length (InPlace.heap_maps σ))%nat →
  InPlace.extends m names σ σ' →
  InPlace.heap_maps σ' !! m = Some names.
Proof.
  intros Hm [_ [extra ->]].
  rewrite lookup_app_l by (rewrite length_insert; lia).
  by apply list_lookup_insert_eq.
Qed.

Lemma extends_trans m names1 names2 σ σ1 σ2 :
  (m < length (InPlace.heap_maps σ))%nat →
  InPlace.extends m names1 σ σ1 →
  InPlace.extends m names2 σ1 σ2 →
  InPlace.extends m names2 σ σ2.
Proof.
  intros Hm [Hf1 [extra1 E1]] [Hf2 [extra2 E2]]. split; [congruence|].
  exists (extra1 ++ extra2)%list. rewrite E2, E1.
  rewrite insert_app_l by (rewrite length_insert; lia).
  by rewrite list_insert_insert_eq, <- app_assoc.
Qed.

Lemma extends_put m key names σ :
  InPlace.heap_maps σ !! m = Some names →
  InPlace.extends m ({[ key ]} ∪ names) σ (InPlace.put m key σ).
Proof.
  intros Hm. unfold InPlace.put. rewrite Hm. split; [done|].
  exists []. by rewrite app_nil_r.
Qed.

(** A walk in a map allocated by [make] leaves every table of the store it
    started from as it was. *)
Lemma extends_make m names fresh σ σ' :
  InPlace.heap_maps σ !! m = Some names →
  InPlace.extends (InPlace.make σ).1 fresh (InPlace.make σ).2 σ' →
  InPlace.extends m names σ σ'.
Proof.
  intros Hm [Hf [extra E]]. split; [exact Hf|].
  exists (fresh :: extra). rewrite E. simpl.
  rewrite insert_app_r_alt by lia. rewrite Nat.sub_diag. simpl.
  rewrite <- app_assoc. simpl. by rewrite list_insert_id.
Qed.

Lemma contains_spec m key names σ :
  InPlace.heap_maps σ !! m = Some names →
  InPlace.contains m key σ = bool_decide (key ∈ names).
Proof. intros Hm. unfold InPlace.contains. by rewrite Hm. Qed.

Lemma make_lookup m names σ :
  InPlace.heap_maps σ !! m = Some names →
  InPlace.heap_maps (InPlace.make σ).2 !! (InPlace.make σ).1 = Some ∅.
Proof.
  intros _. simpl. rewrite lookup_app_r by lia. by rewrite Nat.sub_diag.
Qed.

Lemma rangeFields_refines mkpath fields :
  Forall field_refines fields →
  ∀ i m σ names,
    InPlace.heap_maps σ !! m = Some names →
    (InPlace.rangeFields InPlace.validateField mkpath fields i m σ).1
    = rangeFields validateField mkpath fields i names ∧
    ∃ names',
      InPlace.extends m names' σ
        (InPlace.rangeFields InPlace.validateField mkpath fields i m σ).2.
Proof.
  induction 1 as [|field fields Hfield _ IH]; intros i m σ names Hm.
  - split; [done|]. exists names. by apply extends_refl.
  - cbn [InPlace.rangeFields]. rewrite rangeFields_cons.
    destruct (Hfield m (mkpath i) σ names Hm) as [Herr Hext].
    assert (Hlt : (m < length (InPlace.heap_maps σ))%nat)
      by (by eapply lookup_lt_Some).
    pose proof (extends_lookup _ _ _ _ Hlt Hext) as Hm'.
    destruct (InPlace.validateField field m (mkpath i) σ) as [e σ1].
    destruct (validateField field names (mkpath i)) as [e' names1].
    simpl in Herr, Hext, Hm'. subst e'. destruct e as [err|].
    + split; [done|]. by exists names1.
    + destruct (IH (S i) m σ1 names1 Hm') as [Herr' [names' Hext']].
      split; [exact Herr'|]. exists names'. by eapply extends_trans.
Qed.

(** A loop over [fields] in a map that [make] has just allocated. *)
Lemma fresh_scope_refines mkpath fields m names σ :
  Forall field_refines fields →
  InPlace.heap_maps σ !! m = Some names →
  (InPlace.rangeFields InPlace.validateField mkpath fields 0
     (InPlace.make σ).1 (InPlace.make σ).2).1
  = rangeFields validateField mkpath fields 0 ∅ ∧
  InPlace.extends m names σ
    (InPlace.rangeFields InPlace.validateField mkpath fields 0
       (InPlace.make σ).1 (InPlace.make σ).2).2.
Proof.
  intros Hfields Hm.
  destruct (rangeFields_refines mkpath fields Hfields 0
              (InPlace.make σ).1 (InPlace.make σ).2 ∅ (make_lookup _ _ _ Hm))
    as [Herr [names' Hext]].
  split; [exact Herr|]. by eapply extends_make.
Qed.

Lemma guarded_scope_refines mkpath fields m names σ :
  Forall field_refines fields →
  InPlace.heap_maps σ !! m = Some names →
  (if (0 <? length fields)%nat
   then let '(scope, σ') := InPlace.make σ in
        InPlace.rangeFields InPlace.validateField mkpath fields 0 scope σ'
   else (None, σ)).1
  = (if (0 <? length fields)%nat
     then rangeFields validateField mkpath fields 0 ∅ else None) ∧
  InPlace.extends m names σ
    (if (0 <? length fields)%nat
     then let '(scope, σ') := InPlace.make σ in
          InPlace.rangeFields InPlace.validateField mkpath fields 0 scope σ'
     else (None, σ)).2.
Proof.
  intros Hfields Hm. destruct (0 <? length fields)%nat.
  - exact (fresh_scope_refines mkpath fields m names σ Hfields Hm).
  - split; [done|]. by apply extends_refl.
Qed.

Lemma validateField_refines : ∀ field, field_refines field.
Proof.
  apply (Field_tree_ind field_refines conditional_refines).
  - intros field Hfields Hcond m path σ names Hm.
    assert (Hlt : (m < length (InPlace.heap_maps σ))%nat)
      by (by eapply lookup_lt_Some).
    destruct field as [n t l d ph df v os vl ro dp fs cd ht].
    cbn [Field_Fields Field_Conditional] in Hfields, Hcond.
    cbn [InPlace.validateField validateField Field_Name Field_Type
         Field_Validation Field_Conditional Field_Fields].
    destruct (validateFieldName n path) as [err|];
      [split; [done|by apply extends_refl]|].
    rewrite (contains_spec _ _ _ _ Hm).
    destruct (negb (bool_decide (n = "")) && bool_decide (n ∈ names));
      [split; [done|by apply extends_refl]|].
    cbn [fst snd].
    set (σ1 := if bool_decide (n = "") then σ else InPlace.put m n σ).
    assert (Hext1 : InPlace.extends m (register n names) σ σ1).
    { unfold σ1, register.
      case_bool_decide; [by apply extends_refl|by apply extends_put]. }
    pose proof (extends_lookup _ _ _ _ Hlt Hext1) as Hm1. clearbody σ1.
    destruct (validateFieldType t path); [by split|].
    destruct (validateFieldTypeConstraints _ path); [by split|].
    replace (match vl with
             | Some v0 => validateValidationRules (Some v0) t path
             | None => None
             end)
      with (validateValidationRules vl t path) by (by destruct vl).
    destruct (validateValidationRules vl t path); [by split|].
    assert (Hnested : ∀ σ2,
      InPlace.extends m (register n names) σ σ2 →
      (if (0 <? length fs)%nat
       then if negb (is_container t)
            then (Some (NestedNotContainer path t), σ2)
            else let '(scope, σ') := InPlace.make σ2 in
                 InPlace.rangeFields InPlace.validateField (nestedPath path)
                   fs 0 scope σ'
       else (None, σ2)).1
      = (if (0 <? length fs)%nat
         then if negb (is_container t)
              then Some (NestedNotContainer path t)
              else rangeFields validateField (nestedPath path) fs 0 ∅
         else None) ∧
      InPlace.extends m (register n names) σ
        (if (0 <? length fs)%nat
         then if negb (is_container t)
              then (Some (NestedNotContainer path t), σ2)
              else let '(scope, σ') := InPlace.make σ2 in
                   InPlace.rangeFields InPlace.validateField (nestedPath path)
                     fs 0 scope σ'
         else (None, σ2)).2).
    { intros σ2 Hext2.
      pose proof (extends_lookup _ _ _ _ Hlt Hext2) as Hm2.
      destruct (0 <? length fs)%nat; [|by split].
      destruct (negb (is_container t)); [by split|].
      destruct (fresh_scope_refines (nestedPath path) fs m _ σ2 Hfields Hm2)
        as [Herr Hext]. split; [exact Herr|]. by eapply extends_trans. }
    destruct cd as [c|]; [|by apply Hnested].
    destruct (Hcond c eq_refl m path σ1 _ Hm1) as [Herr Hext2].
    destruct (InPlace.validateConditionalField c m path σ1) as [e σ2].
    simpl in Herr, Hext2. rewrite <- Herr.
    assert (InPlace.extends m (register n names) σ σ2)
      by (by eapply extends_trans).
    destruct e as [err|]; [by split|]. by apply Hnested.
  - intros c Hthen Helse m path σ names Hm.
    assert (Hlt : (m < length (InPlace.heap_maps σ))%nat)
      by (by eapply lookup_lt_Some).
    destruct c as [cn cv th el].
    cbn [ConditionalField_Then ConditionalField_Else] in Hthen, Helse.
    cbn [InPlace.validateConditionalField validateConditionalField
         ConditionalField_Condition ConditionalField_Then
         ConditionalField_Else].
    destruct (bool_decide (cn = "")); [split; [done|by apply extends_refl]|].
    rewrite (contains_spec _ _ _ _ Hm).
    destruct (negb (bool_decide (cn ∈ names)));
      [split; [done|by apply extends_refl]|].
    destruct (guarded_scope_refines (thenPath path) th m names σ Hthen Hm)
      as [Herr1 Hext1].
    match type of Herr1 with (?r).1 = _ => destruct r as [e1 σ1] end.
    simpl in Herr1, Hext1. rewrite <- Herr1.
    destruct e1 as [err|]; [by split|].
    pose proof (extends_lookup _ _ _ _ Hlt Hext1) as Hm1.
    destruct (guarded_scope_refines (elsePath path) el m names σ1 Helse Hm1)
      as [Herr2 Hext2].
    match type of Herr2 with (?r).1 = _ => destruct r as [e2 σ2] end.
    simpl in Herr2, Hext2. rewrite <- Herr2.
    split; [by destruct e2|]. by eapply extends_trans.
Qed.

Lemma Validate_refines σ :
  (InPlace.Validate σ).1 = Validate (InPlace.heap_form σ) ∧
  InPlace.heap_form (InPlace.Validate σ).2 = InPlace.heap_form σ.
Proof.
  unfold InPlace.Validate, Validate.
  destruct (InPlace.heap_form σ) as [f|] eqn:Ef; [|by split].
  destruct (length (Form_Fields f) =? 0)%nat; [by split|].
  destruct (validateMethod (Form_Method f)); [by split|].
  assert (Hfields : Forall field_refines (Form_Fields f))
    by (apply Forall_forall; intros field _; apply validateField_refines).
  unfold InPlace.make. cbv beta iota.
  destruct (rangeFields_refines fieldsPath (Form_Fields f) Hfields 0
              (length (InPlace.heap_maps σ))
              (InPlace.mkStore (InPlace.heap_form σ)
                 (InPlace.heap_maps σ ++ [∅])%list) ∅)
    as [Herr [names' [Hform _]]].
  { simpl. rewrite lookup_app_r by lia. by rewrite Nat.sub_diag. }
  split; [exact Herr|]. rewrite Hform. simpl. exact Ef.
Qed.

End Store_refinement.

(** ** The test suite and the scenarios of the specification, evaluated *)

Example nested_duplicate_reported :
  Error <$> Validate (Some nestedDuplicateForm)
  = Some "fields[0].fields[1]: duplicate field name 'name' at the same level".
Proof. vm_compute. reflexivity. Qed.

Example valid_conditional_accepted :
  Validate (Some validConditionalForm) = None.
Proof. vm_compute. reflexivity. Qed.

Example dangling_conditional_rejected :
  Error <$> Validate (Some danglingConditionalForm)
  = Some "fields[0]: conditional field references non-existent field 'nonexistent'".
Proof. vm_compute. reflexivity. Qed.

Example duplicate_option_rejected :
  Error <$> Validate (Some duplicateOptionForm)
  = Some "fields[0]: duplicate option value 'opt1' at options[1]".
Proof. vm_compute. reflexivity. Qed.

Example empty_form_rejected :
  Error <$> Validate (Some (newForm "" []))
  = Some "form must have at least one field".
Proof. vm_compute. reflexivity. Qed.

Example invalid_method_rejected :
  Validate (Some (newForm "INVALID" [newField "username" FieldTypeText]))
  = Some (InvalidMethod "INVALID").
Proof. vm_compute. reflexivity. Qed.

Example object_schema_converted :
  ConvertSchemaToForm (Some nameSchema)
  = Ok (mkForm "" "" "" "POST" [newField "name" FieldTypeText]).
Proof. vm_compute. reflexivity. Qed.

Example email_schema_converted :
  ConvertSchemaToForm
    (Some (set_Format "email" (newSchema (jsonString "string"))))
  = Ok (mkForm "" "" "" "POST" [newField "" FieldTypeEmail]).
Proof. vm_compute. reflexivity. Qed.

Example enum_schema_options :
  (λ field, (Field_Type field, Option_Label <$> Field_Options field))
    <$> (match convertSchemaToField "size" enumSchema with
         | Ok field => field
         | Err _ => None
         end)
  = Some (FieldTypeSelect, ["a"; "b"; "c"; "d"]).
Proof. vm_compute. reflexivity. Qed.

(** The second run starts in the store the first one left, with its maps. *)
Example store_after_a_run :
  InPlace.heap_maps
    (InPlace.Validate (InPlace.mkStore (Some validConditionalForm) [])).2
  = [{[ "field1"; "field2" ]}; {[ "then_field" ]}].
Proof. vm_compute. reflexivity. Qed.

(** ** Scopes, references and bounds, anywhere in the tree *)

Section Scopes.
Context `{GoLib}.

Lemma ScopeOk_ScopeIn M scope fields :
  ScopeIn scope fields → ScopeOk M fields → ScopeOk M scope.
Proof.
  intros Hin Hok. destruct Hin as [| parent fields Hp | parent c fields Hp Hc
                                     | parent c fields Hp Hc]; [done|..];
    destruct (ScopeOk_InTree M _ _ Hp Hok) as [visible Hf];
    apply FieldOk_iff in Hf as (_ & _ & _ & _ & Hcond & Hnested).
  - destruct (Field_Fields parent) as [|child rest] eqn:E;
      [apply ScopeOk_nil|].
    by apply Hnested.
  - by apply Hcond, ConditionalOk_iff in Hc as (_ & _ & ? & _).
  - by apply Hcond, ConditionalOk_iff in Hc as (_ & _ & _ & ?).
Qed.

Lemma elem_of_nonempty_names x fields :
  x ∈ nonempty_names fields ↔
  x ≠ "" ∧ ∃ field, field ∈ fields ∧ Field_Name field = x.
Proof.
  unfold nonempty_names. rewrite list_elem_of_filter, list_elem_of_fmap.
  naive_solver.
Qed.

Lemma nonempty_names_NoDup fields :
  NoDup (nonempty_names fields) →
  ∀ i j a b,
    fields !! i = Some a → fields !! j = Some b →
    Field_Name a = Field_Name b → Field_Name a ≠ "" → i = j.
Proof.
  induction fields as [|f fields IH]; intros Hnd i j a b Hi Hj Hab Hne;
    [done|].
  rewrite nonempty_names_cons in Hnd.
  assert (∀ k g, fields !! k = Some g → Field_Name g = Field_Name f →
                 Field_Name g ≠ "" → False) as Hhead.
  { intros k g Hk Hg Hgne. case_bool_decide as Hf; [congruence|].
    apply NoDup_cons in Hnd as [Hnotin _]. apply Hnotin.
    apply elem_of_nonempty_names. split; [congruence|].
    exists g. split; [by eapply list_elem_of_lookup_2|done]. }
  destruct i as [|i], j as [|j]; simpl in Hi, Hj; simplify_eq.
  - done.
  - exfalso. eapply (Hhead j b); [done|congruence|congruence].
  - exfalso. eapply (Hhead i a); [done|congruence|congruence].
  - f_equal. apply (IH ltac:(case_bool_decide; [done|by apply NoDup_cons in Hnd as [_ ?]]) i j a b); done.
Qed.

(** X1. Two fields of one sibling list, anywhere in the tree, that carry the
    same non-empty name make [Validate] fail. *)
Theorem duplicate_names_rejected form scope i j a b :
  ScopeIn scope (Form_Fields form) →
  scope !! i = Some a → scope !! j = Some b → i ≠ j →
  Field_Name a = Field_Name b → Field_Name a ≠ "" →
  ∃ e, Validate (Some form) = Some e.
Proof.
  intros Hscope Hi Hj Hij Hab Hne.
  destruct (Validate (Some form)) as [e|] eqn:E; [by exists e|].
  apply Validate_None in E as (_ & _ & Hok).
  apply (ScopeOk_ScopeIn _ _ _ Hscope), ScopeOk_iff in Hok as [Hnd _].
  destruct Hij. by eapply nonempty_names_NoDup.
Qed.


(** X2. The condition of a conditional has to name the field itself or a
    sibling that precedes it in its list: a condition that is empty, or that
    no field of the list up to and including the field carries, makes
    [Validate] fail, in whatever scope of the tree the field stands. *)
Theorem unresolved_condition_rejected form scope i field c :
  ScopeIn scope (Form_Fields form) →
  scope !! i = Some field →
  Field_Conditional field = Some c →
  ConditionalField_Condition c = "" ∨
  (∀ j sibling, (j ≤ i)%nat → scope !! j = Some sibling →
                Field_Name sibling ≠ ConditionalField_Condition c) →
  ∃ e, Validate (Some form) = Some e.
Proof.
  intros Hscope Hi Hc Hcond.
  destruct (Validate (Some form)) as [e|] eqn:E; [by exists e|].
  apply Validate_None in E as (_ & _ & Hok).
  apply (ScopeOk_ScopeIn _ _ _ Hscope), ScopeOk_iff in Hok as [_ Hall].
  specialize (Hall i field Hi).
  apply FieldOk_iff in Hall as (_ & _ & _ & _ & Hall & _).
  apply Hall, ConditionalOk_iff in Hc as (Hne & Hin & _).
  destruct Hcond as [Hempty|Hnone]; [done|].
  unfold visible_at in Hin.
  apply elem_of_list_to_set, elem_of_nonempty_names in Hin
    as (_ & sibling & Hin & Hname).
  apply list_elem_of_lookup in Hin as [j Hj].
  apply lookup_take_Some in Hj as [Hj Hlt].
  destruct (Hnone j sibling); [lia|done|done].
Qed.

(** X3. What a form that [Validate] accepts guarantees of every field of its
    tree, at any depth: a recognised kind, a name that is empty or well
    formed and not reserved, options as the kind wants them, bounds that are
    consistent, children only below an object or an array, and a conditional
    with a condition. *)
Theorem accepted_tree_guarantees form field :
  Validate (Some form) = None →
  InTree field (Form_Fields form) →
  Field_Type field ∈ validTypes ∧
  NameOk (Field_Name field) ∧
  OptionsOk (Field_Type field) (Field_Options field) ∧
  (∀ v, Field_Validation field = Some v → BoundsOk v) ∧
  (Field_Fields field ≠ [] → is_container (Field_Type field)) ∧
  (∀ c, Field_Conditional field = Some c → ConditionalField_Condition c ≠ "").
Proof.
  intros E Hin. apply Validate_None in E as (_ & _ & Hok).
  destruct (ScopeOk_InTree _ _ _ Hin Hok) as [visible Hf].
  apply FieldOk_iff in Hf as (Hname & Htype & Hopts & Hval & Hcond & Hnested).
  split; [done|]. split; [done|]. split; [done|].
  split; [intros v Hv; by apply Hval|].
  split; [intros Hne; by apply Hnested|].
  intros c Hc. by apply Hcond, ConditionalOk_iff in Hc as (? & _).
Qed.

(** X4. Bounds are checked on a field of every kind: a validation block that
    fails one of the tests of [BoundsOk] (a negative length or item bound, a
    minimum length or item count above the maximum, a [min] that compares
    greater than [max], a step that compares less than or equal to zero) is
    a constraint violation at the path of the field whatever its kind, and a
    form with such a field anywhere in its tree is rejected. The two float
    tests are those of float64: a NaN satisfies neither and is let
    through. *)
Theorem inconsistent_bounds_rejected form field v :
  InTree field (Form_Fields form) →
  Field_Validation field = Some v →
  ¬ BoundsOk v →
  (∀ t path, ∃ e,
     validateValidationRules (Some v) t path = Some e ∧
     error_class e = ConstraintError ∧ error_path e = path) ∧
  (∃ e, Validate (Some form) = Some e).
Proof.
  intros Hin Hv Hbad. split.
  - intros t path.
    destruct (validateValidationRules (Some v) t path) as [e|] eqn:E.
    + exists e. split; [done|]. by eapply validateValidationRules_Some.
    + apply validateValidationRules_None in E as [? _]. done.
  - destruct (Validate (Some form)) as [e|] eqn:E; [by exists e|].
    apply Validate_None in E as (_ & _ & Hok).
    destruct (ScopeOk_InTree _ _ _ Hin Hok) as [visible Hf].
    apply FieldOk_iff in Hf as (_ & _ & _ & Hval & _).
    by apply Hval in Hv as [? _].
Qed.


(** X5. The verdict on a field depends on the table of its scope only through
    the presence of the field's own name and of the name its conditional
    refers to: the nested fields and the branches of the conditional are
    walked with tables of their own, which the enclosing table never
    reaches. *)
Theorem verdict_independent_of_other_names field names names' path :
  (Field_Name field ∈ names ↔ Field_Name field ∈ names') →
  (∀ c, Field_Conditional field = Some c →
        (ConditionalField_Condition c ∈ names ↔
         ConditionalField_Condition c ∈ names')) →
  (validateField field names path).1 = (validateField field names' path).1.
Proof.
  intros Hname Hcond. rewrite !validateField_fst.
  rewrite (bool_decide_ext _ _ Hname).
  destruct (Field_Conditional field) as [c|] eqn:Ec; [|done].
  cbn [validateConditionalFieldPtr]. rewrite !validateConditionalField_eq.
  rewrite (bool_decide_ext
             (ConditionalField_Condition c ∈ register (Field_Name field) names)
             (ConditionalField_Condition c ∈ register (Field_Name field) names'));
    [done|].
  rewrite !elem_of_register. specialize (Hcond c eq_refl). tauto.
Qed.

Lemma rangeFields_Some_bound mkpath fields :
  Forall path_spec fields →
  ∀ i names e,
    rangeFields validateField mkpath fields i names = Some e →
    ∃ j, (j < length fields)%nat ∧ within (mkpath (i + j)%nat) e.
Proof.
  induction 1 as [|field rest Hfield _ IH]; intros i names e E; [done|].
  rewrite rangeFields_cons in E.
  destruct (validateField field names (mkpath i)) as [[e'|] names'] eqn:Ev.
  - exists 0%nat. split; [simpl; lia|]. rewrite Nat.add_0_r.
    apply (Hfield names). rewrite Ev. simpl. congruence.
  - destruct (IH _ _ _ E) as (j & Hj & Hw). exists (S j).
    split; [simpl; lia|]. by replace (i + S j)%nat with (S i + j)%nat by lia.
Qed.

Lemma Error_at_path e :
  error_path e ≠ "" → ∃ problem, Error e = error_path e ++ ": " ++ problem.
Proof. destruct e; intros Hne; try done; eexists; reflexivity. Qed.

Lemma fieldsPath_nonempty i suffix : fieldsPath i ++ suffix ≠ "".
Proof. unfold fieldsPath. by rewrite append_cons. Qed.

(** X6. Where [Validate] reports: a violation is the empty form, the invalid
    method, or it lies at or below one of the form's top-level fields, and
    its message starts with the path of that field. *)
Theorem violation_located form e :
  Validate (Some form) = Some e →
  e = NoFields ∨ e = InvalidMethod (Form_Method form) ∨
  ∃ i suffix problem,
    (i < length (Form_Fields form))%nat ∧
    error_path e = fieldsPath i ++ suffix ∧
    Error e = fieldsPath i ++ suffix ++ ": " ++ problem.
Proof.
  unfold Validate. destruct (length (Form_Fields form) =? 0)%nat;
    [intros [= <-]; by left|].
  unfold validateMethod.
  destruct (negb (bool_decide (Form_Method form = "")));
    [destruct (negb (bool_decide (strings_ToUpper (Form_Method form)
                                  ∈ validMethods)));
       [intros [= <-]; right; by left|]|];
    intros E; right; right;
    (apply rangeFields_Some_bound in E as (i & Hi & suffix & Hpath);
       [|apply Forall_forall; intros; apply validateField_within]);
    exists i, suffix;
    (destruct (Error_at_path e) as [problem Hmsg];
       [rewrite Hpath; apply fieldsPath_nonempty|]);
    exists problem; (split; [done|]); (split; [done|]);
    by rewrite Hmsg, Hpath, append_assoc.
Qed.

(** X7. Options are looked at for the choice, text-like, number and
    date-like kinds only: a field of any other kind (hidden, file, object,
    array) passes the option check whatever options it carries. *)
Theorem options_unchecked_for_other_kinds field path :
  is_choice (Field_Type field) = false →
  is_text_like (Field_Type field) = false →
  is_date_like (Field_Type field) = false →
  Field_Type field ≠ FieldTypeNumber →
  validateFieldTypeConstraints field path = None.
Proof.
  intros Hchoice Htext Hdate Hnumber.
  apply validateFieldTypeConstraints_None.
  unfold is_choice in Hchoice.
  apply orb_false_iff in Hchoice as [Hchoice Hselect].
  apply orb_false_iff in Hchoice as [Hcheckbox Hradio].
  apply bool_decide_eq_false in Hselect, Hcheckbox, Hradio.
  unfold OptionsOk. rewrite Htext, Hdate. unfold Is_true. naive_solver.
Qed.

(** X8. The rule that ties bounds to the kind constrains the text-like
    kinds, number, array and the choice kinds; on every other kind (the
    date-like ones, file, hidden, object) a validation block passes exactly
    when its bounds are consistent. *)
Theorem bounds_free_for_other_kinds t v path :
  is_text_like t = false → is_choice t = false →
  t ≠ FieldTypeNumber → t ≠ FieldTypeArray →
  validateValidationRules (Some v) t path = None ↔ BoundsOk v.
Proof.
  intros Htext Hchoice Hnumber Harray.
  rewrite validateValidationRules_None. unfold CodeRulesMatch.
  rewrite Htext, Hchoice. unfold Is_true. naive_solver.
Qed.

Lemma uniqueOptionValues_app before rest path :
  ∀ i seen,
    NoDup (rendered before) →
    (∀ x, x ∈ rendered before → x ∉ seen) →
    uniqueOptionValues (before ++ rest)%list i seen path
    = uniqueOptionValues rest (i + length before)
        (list_to_set (rendered before) ∪ seen) path.
Proof.
  induction before as [|o before IH]; intros i seen Hnd Hfresh.
  - simpl. rewrite Nat.add_0_r. f_equal. set_solver.
  - cbn [app uniqueOptionValues]. cbn [rendered map] in Hnd, Hfresh.
    apply NoDup_cons in Hnd as [Ho Hnd].
    rewrite bool_decide_eq_false_2 by (apply Hfresh; left).
    rewrite IH; [|done|].
    + cbn [length rendered map list_to_set].
      replace (S i + length before)%nat with (i + S (length before))%nat by lia.
      f_equal. set_solver.
    + intros x Hx. specialize (Hfresh x ltac:(by right)).
      assert (x ≠ Sprint (Option_Value o)) by (intros ->; done).
      set_solver.
Qed.

(** X9. Options are compared by what their values print as: in a choice
    field, the first option whose printed value an earlier option already
    has is reported as a duplicate, at its own index, even when the two
    values differ (an int and the string of its digits). *)
Theorem first_duplicate_option_reported field before o after path :
  is_choice (Field_Type field) →
  Field_Options field = (before ++ o :: after)%list →
  NoDup (rendered before) →
  Sprint (Option_Value o) ∈ rendered before →
  validateFieldTypeConstraints field path
  = Some (DuplicateOption path (Sprint (Option_Value o)) (length before)).
Proof.
  intros Hchoice Hopts Hnd Hseen.
  assert (uniqueOptionValues (Field_Options field) 0 ∅ path
          = Some (DuplicateOption path (Sprint (Option_Value o))
                    (length before))) as Hdup.
  { rewrite Hopts, uniqueOptionValues_app by set_solver.
    cbn [uniqueOptionValues]. rewrite bool_decide_eq_true_2; [done|].
    set_solver. }
  assert (has_options field = true) as Hsome.
  { unfold has_options. rewrite Hopts, length_app. simpl.
    apply Nat.ltb_lt. lia. }
  assert ((length (Field_Options field) =? 0)%nat = false) as Hlen.
  { rewrite Hopts, length_app. simpl. apply Nat.eqb_neq. lia. }
  unfold validateFieldTypeConstraints.
  apply choice_cases in Hchoice as [Ht|[Ht|Ht]]; rewrite Ht;
    cbn [bool_decide]; rewrite ?Hsome, ?Hlen, Hdup; reflexivity.
Qed.

End Scopes.

Section Store_frame.
Context `{GoLib}.

(** X10. [Validate] writes to the maps it allocates and to no other: the maps
    a store holds before a run are all there after it, unchanged, followed
    by the maps of the run. *)
Theorem earlier_maps_untouched σ :
  ∃ extra,
    InPlace.heap_maps (InPlace.Validate σ).2
    = (InPlace.heap_maps σ ++ extra)%list.
Proof.
  unfold InPlace.Validate.
  destruct (InPlace.heap_form σ) as [f|] eqn:Ef;
    [|exists []; by rewrite app_nil_r].
  destruct (length (Form_Fields f) =? 0)%nat;
    [exists []; by rewrite app_nil_r|].
  destruct (validateMethod (Form_Method f));
    [exists []; by rewrite app_nil_r|].
  assert (Hfields : Forall field_refines (Form_Fields f))
    by (apply Forall_forall; intros field _; apply validateField_refines).
  unfold InPlace.make. cbv beta iota.
  destruct (rangeFields_refines fieldsPath (Form_Fields f) Hfields 0
              (length (InPlace.heap_maps σ))
              (InPlace.mkStore (InPlace.heap_form σ)
                 (InPlace.heap_maps σ ++ [∅])%list) ∅)
    as [_ [names' [_ [extra Hmaps]]]].
  { simpl. rewrite lookup_app_r by lia. by rewrite Nat.sub_diag. }
  exists (names' :: extra). rewrite Hmaps. simpl.
  rewrite insert_app_r_alt by lia. rewrite Nat.sub_diag. simpl.
  by rewrite <- app_assoc.
Qed.

End Store_frame.

(** ** The shape of a converted field *)

Section Conversion_shape.
Context `{GoLib} `{JsonLib}.

Lemma itemBounds_set schema field :
  itemBounds schema field
  = set_Validation (Field_Validation (itemBounds schema field)) field.
Proof.
  destruct field. unfold itemBounds.
  destruct (present (Schema_MinItems schema)),
           (present (Schema_MaxItems schema)); reflexivity.
Qed.

Lemma itemBounds_Validation schema f g :
  Field_Validation f = Field_Validation g →
  Field_Validation (itemBounds schema f) = Field_Validation (itemBounds schema g).
Proof.
  intros E. unfold itemBounds.
  destruct (present (Schema_MinItems schema)),
           (present (Schema_MaxItems schema));
    cbn; unfold ensureValidation; cbn; rewrite ?E; reflexivity.
Qed.

Lemma scalarField_Fields name schema t :
  Field_Fields (scalarField name schema t) = [].
Proof. unfold scalarField. by repeat case_match. Qed.

Lemma scalarField_Conditional name schema t :
  Field_Conditional (scalarField name schema t) = None.
Proof. unfold scalarField. by repeat case_match. Qed.

Lemma convertSchemaToField_inv name schema field :
  convertSchemaToField name schema = Ok (Some field) →
  ∃ t conditional,
    determineFieldType schema = Ok t ∧
    buildConditionalField schema = Ok conditional ∧
    Field_Conditional field = conditional ∧
    same_head field (scalarField name schema t) ∧
    Field_Value field = Field_Value (scalarField name schema t) ∧
    Field_Validation field
    = (if bool_decide (t = FieldTypeArray)
       then Field_Validation (itemBounds schema (scalarField name schema t))
       else buildValidation (Some schema)) ∧
    (if bool_decide (t = FieldTypeObject) then
       match Schema_Properties schema with
       | Some properties =>
           convertPropertiesToFields properties (Schema_Required schema)
           = Ok (Field_Fields field)
       | None => Field_Fields field = []
       end
     else if bool_decide (t = FieldTypeArray) then
       match Schema_Items schema with
       | Some items =>
           ∃ itemField,
             convertSchemaToField "item" items = Ok (Some itemField) ∧
             Field_Fields field = [itemField]
       | None => Field_Fields field = []
       end
     else Field_Fields field = []).
Proof.
  intros E. rewrite convertSchemaToField_eq in E.
  destruct (determineFieldType schema) as [t|] eqn:Et; [|discriminate].
  cbv beta iota zeta in E. exists t.
  destruct (buildConditionalField schema) as [conditional|] eqn:Ec.
  2:{ repeat (case_match; simplify_eq; try discriminate). }
  exists conditional. split; [done|]. split; [done|].
  destruct (bool_decide (t = FieldTypeObject)) eqn:Eobj.
  - apply bool_decide_eq_true in Eobj. subst t.
    change (bool_decide (FieldTypeObject = FieldTypeArray)) with false in *.
    destruct (Schema_Properties schema) as [properties|];
      [destruct (convertPropertiesToFields properties (Schema_Required schema))
         as [nested|] eqn:En; [|discriminate]|];
      destruct conditional; cbv beta iota in E; simplify_eq. all: repeat split; try done.
      all: first [exact (scalarField_Conditional _ _ _)|exact (scalarField_Fields _ _ _)].
  - destruct (bool_decide (t = FieldTypeArray)) eqn:Earr.
    + destruct (Schema_Items schema) as [items|] eqn:Ei;
        [destruct (convertSchemaToField "item" items) as [[item|]|] eqn:Eitem;
           [|exfalso|discriminate]|].
      2:{ destruct (convertSchemaToField_total items) as [Htotal _].
          destruct (Htotal "item") as (t' & f' & _ & Hf' & _). congruence. }
      all: destruct conditional; cbv beta iota in E; simplify_eq.
      all: rewrite itemBounds_set.
      all: repeat split; try reflexivity.
      all: try (apply itemBounds_Validation; reflexivity).
      all: try (eexists; split; reflexivity).
      all: first [exact (scalarField_Conditional _ _ _)|exact (scalarField_Fields _ _ _)|idtac].
    + destruct conditional; cbv beta iota in E; simplify_eq.
      all: repeat split; try done.
      all: first [exact (scalarField_Conditional _ _ _)|exact (scalarField_Fields _ _ _)].
Qed.

Lemma convertSchemaToField_field name schema :
  ∃ field, convertSchemaToField name schema = Ok (Some field).
Proof.
  destruct (convertSchemaToField_total schema) as [Htotal _].
  destruct (Htotal name) as (t & field & _ & E & _). by exists field.
Qed.

Lemma scalarField_const name schema t :
  Schema_Enum schema = [] → Schema_Const schema ≠ ANil →
  Field_Type (scalarField name schema t) = FieldTypeHidden ∧
  Field_Value (scalarField name schema t) = Schema_Const schema ∧
  Field_Options (scalarField name schema t) = [].
Proof.
  intros Henum Hconst. unfold scalarField. rewrite Henum.
  cbn [length Nat.ltb Nat.leb]. by destruct (Schema_Const schema).
Qed.

Lemma scalarField_enum_Value name schema t :
  Schema_Enum schema ≠ [] → Field_Value (scalarField name schema t) = ANil.
Proof.
  intros Henum. unfold scalarField.
  destruct (Schema_Enum schema) as [|value enum]; [done|].
  cbn [length Nat.ltb Nat.leb]. by case_match.
Qed.

Lemma rendered_convertEnumToOptions enum :
  rendered (convertEnumToOptions enum) = Sprint <$> enum.
Proof. induction enum as [|value enum IH]; [done|]. simpl. by f_equal. Qed.

Lemma values_convertEnumToOptions enum :
  Option_Value <$> convertEnumToOptions enum = enum.
Proof. induction enum as [|value enum IH]; [done|]. simpl. by f_equal. Qed.

Lemma labels_convertEnumToOptions enum :
  Option_Label <$> convertEnumToOptions enum = Sprint <$> enum.
Proof. induction enum as [|value enum IH]; [done|]. simpl. by f_equal. Qed.

(** X11. A schema with a const and no enum converts to a hidden field that
    carries the const as its value, whatever type the schema declares. *)
Theorem const_becomes_hidden name schema :
  Schema_Enum schema = [] → Schema_Const schema ≠ ANil →
  ∃ field,
    convertSchemaToField name schema = Ok (Some field) ∧
    Field_Type field = FieldTypeHidden ∧
    Field_Value field = Schema_Const schema ∧
    Field_Options field = [].
Proof.
  intros Henum Hconst.
  destruct (convertSchemaToField_field name schema) as [field E].
  exists field. split; [done|].
  apply convertSchemaToField_inv in E
    as (t & conditional & _ & _ & _ & (_ & Htype & Hoptions) & Hvalue & _).
  destruct (scalarField_const name schema t Henum Hconst) as (? & ? & ?).
  split; [congruence|]. split; congruence.
Qed.

(** X12. The options of an enum are its values, in the order of the enum,
    each labelled with what it prints as; a const beside the enum is
    dropped. *)
Theorem enum_values_kept_in_order name schema :
  Schema_Enum schema ≠ [] →
  ∃ field,
    convertSchemaToField name schema = Ok (Some field) ∧
    Option_Value <$> Field_Options field = Schema_Enum schema ∧
    Option_Label <$> Field_Options field = Sprint <$> Schema_Enum schema ∧
    Field_Value field = ANil.
Proof.
  intros Henum.
  destruct (convertSchemaToField_field name schema) as [field E].
  exists field. split; [done|].
  apply convertSchemaToField_inv in E
    as (t & conditional & _ & _ & _ & (_ & _ & Hoptions) & Hvalue & _).
  destruct (scalarField_enum name schema t Henum) as [Hopts _].
  rewrite Hoptions, Hopts, Hvalue.
  split; [apply values_convertEnumToOptions|].
  split; [apply labels_convertEnumToOptions|].
  by apply scalarField_enum_Value.
Qed.

(** X13. The field converted from an enum passes the option check of the
    validation engine exactly when no two values of the enum print alike. *)
Theorem enum_field_options_valid_iff name schema :
  Schema_Enum schema ≠ [] →
  ∃ field,
    convertSchemaToField name schema = Ok (Some field) ∧
    ∀ path,
      validateFieldTypeConstraints field path = None ↔
      NoDup (Sprint <$> Schema_Enum schema).
Proof.
  intros Henum.
  destruct (convertSchemaToField_field name schema) as [field E].
  exists field. split; [done|]. intros path.
  apply convertSchemaToField_inv in E
    as (t & conditional & _ & _ & _ & (_ & Htype & Hoptions) & _).
  destruct (scalarField_enum name schema t Henum) as [Hopts Hkind].
  rewrite validateFieldTypeConstraints_None, Hoptions, Hopts, Htype, Hkind.
  unfold OptionsOk. rewrite rendered_convertEnumToOptions.
  assert (convertEnumToOptions (Schema_Enum schema) ≠ []) as Hsome.
  { destruct (Schema_Enum schema); [done|discriminate]. }
  destruct (length (Schema_Enum schema) <=? 3)%nat.
  - split; [intros (Hdistinct & _); apply Hdistinct; by right|].
    intros Hnd. split; [done|]. split; [discriminate|].
    intros [Hk|[Hk|Hk]]; [done|discriminate|done].
  - split; [intros (Hdistinct & _); apply Hdistinct; by left|].
    intros Hnd. split; [done|]. split; [discriminate|].
    intros [Hk|[Hk|Hk]]; [done|discriminate|done].
Qed.


Lemma buildValidation_closed schema :
  buildValidation (Some schema) =
  if negb (present (Schema_MinLength schema))
     && negb (present (Schema_MaxLength schema))
     && negb (present (Schema_Minimum schema))
     && negb (present (Schema_Maximum schema))
     && negb (present (Schema_ExclusiveMinimum schema))
     && negb (present (Schema_ExclusiveMaximum schema))
     && negb (present (Schema_MultipleOf schema))
     && bool_decide (Schema_Pattern schema = "")
  then None
  else Some (mkValidation false
               (Schema_MinLength schema) (Schema_MaxLength schema)
               (match Schema_ExclusiveMinimum schema with
                | Some x => Some x
                | None => Schema_Minimum schema
                end)
               (match Schema_ExclusiveMaximum schema with
                | Some x => Some x
                | None => Schema_Maximum schema
                end)
               (Schema_Pattern schema)
               (if bool_decide (Schema_Pattern schema = "")
                then "" else "Invalid format")
               (Schema_MultipleOf schema) None None).
Proof.
  unfold buildValidation. cbv zeta.
  destruct (Schema_MinLength schema), (Schema_MaxLength schema),
    (Schema_Minimum schema), (Schema_Maximum schema),
    (Schema_ExclusiveMinimum schema), (Schema_ExclusiveMaximum schema),
    (Schema_MultipleOf schema);
    (case_bool_decide as Hpattern;
       [rewrite ?Hpattern; reflexivity
       |cbn; rewrite ?(bool_decide_eq_false_2 _ Hpattern); reflexivity]).
Qed.

(** X14. [buildValidation] returns no block exactly when the schema has none
    of the string and number keywords (an exclusive bound alone is enough
    for a block, an item bound is not); a block it returns never demands the
    field and has no item bounds, and it names a pattern error exactly when
    it has a pattern. *)
Theorem buildValidation_block schema :
  (buildValidation (Some schema) = None ↔
   Schema_MinLength schema = None ∧ Schema_MaxLength schema = None ∧
   Schema_Pattern schema = "" ∧
   Schema_Minimum schema = None ∧ Schema_Maximum schema = None ∧
   Schema_ExclusiveMinimum schema = None ∧
   Schema_ExclusiveMaximum schema = None ∧
   Schema_MultipleOf schema = None) ∧
  (∀ v, buildValidation (Some schema) = Some v →
        Validation_Required v = false ∧
        Validation_MinItems v = None ∧ Validation_MaxItems v = None ∧
        Validation_Pattern v = Schema_Pattern schema ∧
        (Validation_PatternError v = "" ↔ Validation_Pattern v = "")).
Proof.
  rewrite buildValidation_closed. split.
  - split.
    + case_match eqn:E; [intros _|discriminate].
      repeat match goal with
             | H : _ && _ = true |- _ => apply andb_true_iff in H as [? ?]
             end.
      repeat match goal with
             | H : negb (present ?x) = true |- _ =>
                 destruct x; [discriminate H|clear H]
             end.
      by case_bool_decide.
    + by intros (-> & -> & -> & -> & -> & -> & -> & ->).
  - intros v. case_match; [done|]. intros [= <-]. cbn.
    case_bool_decide; naive_solver.
Qed.

Lemma itemBounds_Required schema field v :
  (∀ w, Field_Validation field = Some w → Validation_Required w = false) →
  Field_Validation (itemBounds schema field) = Some v →
  Validation_Required v = false.
Proof.
  intros Hfield. unfold itemBounds, ensureValidation.
  destruct (present (Schema_MinItems schema)),
           (present (Schema_MaxItems schema));
    cbn [Field_Validation set_Validation];
    destruct (Field_Validation field) as [w|] eqn:Ew;
    intros [= <-]; cbn; try done; by apply Hfield.
Qed.

Lemma scalarField_Validation name schema t :
  Field_Validation (scalarField name schema t) = buildValidation (Some schema).
Proof. reflexivity. Qed.

Lemma converted_not_required name schema field v :
  convertSchemaToField name schema = Ok (Some field) →
  Field_Validation field = Some v → Validation_Required v = false.
Proof.
  intros E Hv.
  apply convertSchemaToField_inv in E
    as (t & conditional & _ & _ & _ & _ & _ & Hvalidation & _).
  rewrite Hv in Hvalidation. symmetry in Hvalidation.
  assert (∀ w, buildValidation (Some schema) = Some w →
               Validation_Required w = false) as Hbuilt.
  { intros w. rewrite buildValidation_closed.
    match goal with
    | |- (if ?c then _ else _) = _ → _ => destruct c; [done|]
    end.
    by intros [= <-]. }
  destruct (bool_decide (t = FieldTypeArray)); [|by apply Hbuilt].
  apply itemBounds_Required in Hvalidation; [done|].
  intros w. rewrite scalarField_Validation. apply Hbuilt.
Qed.

Lemma converted_name name schema field :
  convertSchemaToField name schema = Ok (Some field) → Field_Name field = name.
Proof.
  intros E.
  apply convertSchemaToField_inv in E
    as (t & conditional & _ & _ & _ & (Hname & _) & _).
  by rewrite Hname, scalarField_name.
Qed.

(** X15. A property is marked as required exactly when the [required] list of
    its object names it: every field converted from the properties has a
    validation block with [Required] set if and only if its name is in the
    list. *)
Theorem required_marks_named_fields properties required :
  ∃ fields,
    convertPropertiesToFields properties required = Ok fields ∧
    Forall (λ field,
              (∃ v, Field_Validation field = Some v ∧
                    Validation_Required v = true) ↔
              Field_Name field ∈ required) fields.
Proof.
  induction properties as [|[name [propSchema|]] rest IH].
  - exists []. split; [reflexivity|constructor].
  - destruct IH as (fields & Hrest & Hall).
    destruct (convertSchemaToField_field name propSchema) as [field E].
    rewrite convertPropertiesToFields_cons. cbn [convertSchemaToFieldPtr].
    rewrite E, Hrest. cbv zeta. eexists. split; [reflexivity|].
    constructor; [|done]. pose proof (converted_name _ _ _ E) as Hname.
    case_bool_decide as Hin; rewrite elem_of_list_to_set in Hin.
    + cbn. rewrite Hname. split; [done|]. intros _. eexists. by split.
    + rewrite Hname. split; [|done]. intros (v & Hv & Hreq).
      rewrite (converted_not_required _ _ _ _ E Hv) in Hreq. discriminate.
  - destruct IH as (fields & Hrest & Hall). exists fields.
    rewrite convertPropertiesToFields_cons. cbn [convertSchemaToFieldPtr].
    by split.
Qed.


Lemma itemBounds_MinItems schema field n :
  Schema_MinItems schema = Some n →
  ∃ v, Field_Validation (itemBounds schema field) = Some v ∧
       Validation_MinItems v = Some n.
Proof.
  intros Hn. unfold itemBounds. rewrite Hn.
  destruct (present (Schema_MaxItems schema)); eexists; by split.
Qed.

Lemma itemBounds_MaxItems schema field n :
  Schema_MaxItems schema = Some n →
  ∃ v, Field_Validation (itemBounds schema field) = Some v ∧
       Validation_MaxItems v = Some n.
Proof. intros Hn. unfold itemBounds. rewrite Hn. eexists. by split. Qed.

(** X16. An array schema converts to a field whose only child is the
    conversion of [items], under the name [item] (no child without
    [items]), and whose validation block carries [minItems] and
    [maxItems]. *)
Theorem array_items_and_bounds name schema :
  determineFieldType schema = Ok FieldTypeArray →
  ∃ field,
    convertSchemaToField name schema = Ok (Some field) ∧
    match Schema_Items schema with
    | Some items =>
        ∃ itemField,
          convertSchemaToField "item" items = Ok (Some itemField) ∧
          Field_Name itemField = "item" ∧
          Field_Fields field = [itemField]
    | None => Field_Fields field = []
    end ∧
    (∀ n, Schema_MinItems schema = Some n →
          ∃ v, Field_Validation field = Some v ∧
               Validation_MinItems v = Some n) ∧
    (∀ n, Schema_MaxItems schema = Some n →
          ∃ v, Field_Validation field = Some v ∧
               Validation_MaxItems v = Some n).
Proof.
  intros Harray.
  destruct (convertSchemaToField_field name schema) as [field E].
  exists field. split; [done|].
  apply convertSchemaToField_inv in E
    as (t & conditional & Ht & _ & _ & _ & _ & Hvalidation & Hchildren).
  rewrite Harray in Ht. injection Ht as <-.
  change (bool_decide (FieldTypeArray = FieldTypeObject)) with false
    in Hchildren.
  change (bool_decide (FieldTypeArray = FieldTypeArray)) with true
    in Hchildren, Hvalidation.
  cbv iota in Hchildren, Hvalidation. rewrite Hvalidation.
  split; [|split; [apply itemBounds_MinItems|apply itemBounds_MaxItems]].
  destruct (Schema_Items schema) as [items|]; [|done].
  destruct Hchildren as (itemField & Hitem & Hfields).
  exists itemField. split; [done|]. split; [|done].
  by eapply converted_name.
Qed.

(** X17. Children come from [properties] for an object and from [items] for
    an array, and from nowhere else: an object has one child per property
    bound to a schema, named as the property is, in the order of the
    iteration; a field of any other kind than these two has no child, even
    when its schema has properties or items. *)
Theorem children_of_containers_only name schema t field :
  determineFieldType schema = Ok t →
  convertSchemaToField name schema = Ok (Some field) →
  (t = FieldTypeObject →
   Field_Name <$> Field_Fields field
   = presentKeys (entries (Schema_Properties schema))) ∧
  (t ≠ FieldTypeObject → t ≠ FieldTypeArray → Field_Fields field = []).
Proof.
  intros Ht E.
  destruct (convertSchemaToField_total schema) as [_ Hproperties].
  apply convertSchemaToField_inv in E
    as (t' & conditional & Ht' & _ & _ & _ & _ & _ & Hchildren).
  rewrite Ht in Ht'. injection Ht' as <-. split.
  - intros ->.
    change (bool_decide (FieldTypeObject = FieldTypeObject)) with true
      in Hchildren. cbv iota in Hchildren.
    destruct (Schema_Properties schema) as [properties|];
      [|by rewrite Hchildren].
    destruct (Hproperties properties eq_refl (Schema_Required schema))
      as (fields & Hfields & Hnames).
    rewrite Hfields in Hchildren. by injection Hchildren as <-.
  - intros Hobject Harray.
    by rewrite !bool_decide_eq_false_2 in Hchildren.
Qed.

Lemma scalarField_Type_cases name schema t :
  Field_Type (scalarField name schema t) = t ∧
    Schema_Enum schema = [] ∧ Schema_Const schema = ANil ∨
  (Field_Type (scalarField name schema t) = FieldTypeRadio ∨
   Field_Type (scalarField name schema t) = FieldTypeSelect ∨
   Field_Type (scalarField name schema t) = FieldTypeHidden) ∧
    (Schema_Enum schema ≠ [] ∨ Schema_Const schema ≠ ANil).
Proof.
  unfold scalarField. destruct (Schema_Enum schema) as [|value enum].
  - cbn [length Nat.ltb Nat.leb].
    destruct (Schema_Const schema); [by left|..];
      (right; split; [by right; right|by right]).
  - cbn [length Nat.ltb Nat.leb]. right. split; [|by left].
    case_match; [by left|by right; left].
Qed.

(** X18. An enum or a const on a schema that converts with children (an
    object with a property bound to a schema, an array with items) gives a
    radio, select or hidden field that has nested fields, which the
    validation engine rejects in every scope. *)
Theorem enum_on_container_rejected name schema :
  Schema_Enum schema ≠ [] ∨ Schema_Const schema ≠ ANil →
  (determineFieldType schema = Ok FieldTypeObject ∧
   presentKeys (entries (Schema_Properties schema)) ≠ []) ∨
  (determineFieldType schema = Ok FieldTypeArray ∧
   Schema_Items schema ≠ None) →
  ∃ field,
    convertSchemaToField name schema = Ok (Some field) ∧
    (Field_Type field = FieldTypeRadio ∨ Field_Type field = FieldTypeSelect ∨
     Field_Type field = FieldTypeHidden) ∧
    Field_Fields field ≠ [] ∧
    ∀ names path, ∃ e, (validateField field names path).1 = Some e.
Proof.
  intros Hchoice Hcontainer.
  destruct (convertSchemaToField_field name schema) as [field E].
  exists field. split; [done|].
  destruct (convertSchemaToField_total schema) as [_ Hproperties].
  apply convertSchemaToField_inv in E
    as (t & conditional & Ht & _ & _ & (_ & Htype & _) & _ & _ & Hchildren).
  assert (Field_Type field = FieldTypeRadio ∨
          Field_Type field = FieldTypeSelect ∨
          Field_Type field = FieldTypeHidden) as Hkind.
  { rewrite Htype.
    destruct (scalarField_Type_cases name schema t)
      as [(_ & Henum & Hconst)|[Hk _]]; [naive_solver|done]. }
  assert (Field_Fields field ≠ []) as Hnested.
  { destruct Hcontainer as [[Hobject Hkeys]|[Harray Hitems]].
    - rewrite Hobject in Ht. injection Ht as <-.
      change (bool_decide (FieldTypeObject = FieldTypeObject)) with true
        in Hchildren. cbv iota in Hchildren.
      destruct (Schema_Properties schema) as [properties|]; [|done].
      destruct (Hproperties properties eq_refl (Schema_Required schema))
        as (fields & Hfields & Hnames).
      rewrite Hfields in Hchildren. injection Hchildren as <-.
      intros Hnone. apply Hkeys. cbn [entries]. by rewrite <- Hnames, Hnone.
    - rewrite Harray in Ht. injection Ht as <-.
      change (bool_decide (FieldTypeArray = FieldTypeObject)) with false
        in Hchildren.
      change (bool_decide (FieldTypeArray = FieldTypeArray)) with true
        in Hchildren. cbv iota in Hchildren.
      destruct (Schema_Items schema) as [items|]; [|done].
      destruct Hchildren as (itemField & _ & ->). done. }
  split; [done|]. split; [done|]. intros names path.
  destruct (validateField field names path).1 as [e|] eqn:Ev; [by exists e|].
  apply validateField_spec in Ev as [_ Hok].
  apply FieldOk_iff in Hok as (_ & _ & _ & _ & _ & Hcheck).
  destruct (Hcheck Hnested) as [Hbad _].
  destruct Hkind as [Hk|[Hk|Hk]]; by rewrite Hk in Hbad.
Qed.


Lemma firstKey_elem_of (properties : list (string * option Schema)) :
  firstKey properties ≠ "" → firstKey properties ∈ properties.*1.
Proof. destruct properties as [|[key s] rest]; [done|]. intros _. by left. Qed.

Lemma branch_names (o : option Schema) fields :
  match o with
  | Some t =>
      match Schema_Properties t with
      | Some properties =>
          convertPropertiesToFieldsWith convertSchemaToField properties
            (Schema_Required t)
      | None =>
          convertPropertiesToFieldsWith convertSchemaToField []
            (Schema_Required t)
      end
  | None => Ok []
  end = Ok fields →
  Field_Name <$> fields
  = match o with
    | Some t => presentKeys (entries (Schema_Properties t))
    | None => []
    end.
Proof.
  destruct o as [t|]; [|by intros [= <-]].
  destruct (convertSchemaToField_total t) as [_ Hproperties].
  destruct (Schema_Properties t) as [properties|]; [|by intros [= <-]].
  destruct (Hproperties properties eq_refl (Schema_Required t))
    as (fields' & Hfields & Hnames).
  unfold convertPropertiesToFields in Hfields. rewrite Hfields.
  by intros [= <-].
Qed.

(** X19. A conditional the converter attaches to a field names a property of
    the [if] schema (the first the iteration yields) and is never empty, so
    the validation engine never finds its condition missing; it compares
    with no value, and its branches hold one field per property of [then]
    and of [else]. *)
Theorem converted_conditional name schema field c :
  convertSchemaToField name schema = Ok (Some field) →
  Field_Conditional field = Some c →
  (∃ ifSchema,
     Schema_If schema = Some ifSchema ∧
     ConditionalField_Condition c
     = firstKey (entries (Schema_Properties ifSchema)) ∧
     ConditionalField_Condition c ∈ (entries (Schema_Properties ifSchema)).*1) ∧
  ConditionalField_Condition c ≠ "" ∧
  ConditionalField_Value c = ANil ∧
  Field_Name <$> ConditionalField_Then c
  = match Schema_Then schema with
    | Some t => presentKeys (entries (Schema_Properties t))
    | None => []
    end ∧
  Field_Name <$> ConditionalField_Else c
  = match Schema_Else schema with
    | Some t => presentKeys (entries (Schema_Properties t))
    | None => []
    end ∧
  ∀ names path, validateConditionalField c names path ≠ Some (ConditionEmpty path).
Proof.
  intros E Hc.
  apply convertSchemaToField_inv in E
    as (t & conditional & _ & Hbuilt & Hconditional & _).
  rewrite Hc in Hconditional. subst conditional.
  unfold buildConditionalField in Hbuilt.
  destruct (Schema_If schema) as [ifSchema|]; [|discriminate].
  unfold buildConditionalFieldWith in Hbuilt. cbv zeta in Hbuilt.
  match type of Hbuilt with
  | match ?a with Ok _ => _ | Err _ => _ end = _ =>
      destruct a as [thenFields|] eqn:Ethen; [|discriminate]
  end.
  match type of Hbuilt with
  | match ?a with Ok _ => _ | Err _ => _ end = _ =>
      destruct a as [elseFields|] eqn:Eelse; [|discriminate]
  end.
  case_bool_decide as Hkey; [discriminate|]. injection Hbuilt as <-.
  cbn [ConditionalField_Condition ConditionalField_Value
       ConditionalField_Then ConditionalField_Else].
  split; [exists ifSchema; split; [done|]; split; [done|];
          by apply firstKey_elem_of|].
  split; [done|]. split; [done|].
  split; [by apply branch_names|]. split; [by apply branch_names|].
  intros names path. rewrite validateConditionalField_eq.
  cbn [ConditionalField_Condition].
  rewrite bool_decide_eq_false_2 by done.
  destruct (negb (bool_decide _)); [intros Heq; discriminate Heq|].
  intros Hrun. apply ensure_Some in Hrun as [Hrun|Hrun].
  - apply thenPath_below in Hrun as (suffix & Hne & Hpath);
      [|apply Forall_forall; intros; apply validateField_within].
    simpl in Hpath. by apply eq_sym, append_eq_self in Hpath.
  - apply elsePath_below in Hrun as (suffix & Hne & Hpath);
      [|apply Forall_forall; intros; apply validateField_within].
    simpl in Hpath. by apply eq_sym, append_eq_self in Hpath.
Qed.


Lemma firstNonNull_app nulls t rest :
  Forall (λ n, n = "null") nulls → t ≠ "null" →
  firstNonNull (nulls ++ t :: rest) = Some t.
Proof.
  intros Hnulls Ht. induction Hnulls as [|n nulls -> _ IH]; simpl.
  - by rewrite bool_decide_eq_false_2.
  - done.
Qed.

Lemma firstNonNull_nulls names :
  Forall (λ n, n = "null") names → firstNonNull names = None.
Proof. induction 1 as [|n names -> _ IH]; [done|]. simpl. done. Qed.

(** X20. [GetType] decodes the raw [type] as a string first and as a list of
    strings next. Of a list of types the first that is not [null] decides the
    kind, as if it stood alone; a list of nothing but [null] gives a text
    field. *)
Theorem union_type_first_non_null schema :
  (∀ nulls t rest,
     Schema_Type schema ≠ [] →
     json_Unmarshal_string (Schema_Type schema) = None →
     json_Unmarshal_strings (Schema_Type schema) = Some (nulls ++ t :: rest)%list →
     Forall (λ n, n = "null") nulls → t ≠ "null" →
     determineFieldType schema = mapJSONTypeToFieldType t schema) ∧
  (∀ names,
     Schema_Type schema ≠ [] →
     json_Unmarshal_string (Schema_Type schema) = None →
     json_Unmarshal_strings (Schema_Type schema) = Some names →
     Forall (λ n, n = "null") names →
     determineFieldType schema = Ok FieldTypeText).
Proof.
  split.
  - intros nulls t rest Hraw Hstring Hlist Hnulls Ht.
    unfold determineFieldType, GetType. rewrite Hstring, Hlist.
    destruct (Schema_Type schema) as [|b raw]; [done|].
    cbn [length Nat.eqb negb].
    rewrite firstNonNull_app by done.
    by destruct nulls.
  - intros names Hraw Hstring Hlist Hnulls.
    unfold determineFieldType, GetType. rewrite Hstring, Hlist.
    destruct (Schema_Type schema) as [|b raw]; [done|].
    cbn [length Nat.eqb negb].
    rewrite firstNonNull_nulls by done.
    destruct names; [|done]. reflexivity.
Qed.

Lemma ConvertSchemaToForm_total :
  ConvertSchemaToForm None = Err "schema cannot be nil" ∧
  ∀ schema, ∃ form, ConvertSchemaToForm (Some schema) = Ok form.
Proof.
  split; [reflexivity|]. intros schema. unfold ConvertSchemaToForm.
  destruct (convertSchemaToField_total schema) as [_ Hproperties].
  destruct (Schema_Properties schema) as [properties|].
  - destruct (Hproperties properties eq_refl (Schema_Required schema))
      as (fields & Hfields & _).
    rewrite Hfields. by eexists.
  - destruct (convertSchemaToField_field "" schema) as [field E].
    rewrite E. by eexists.
Qed.

(** X21. [ConvertSchemaToForm] fails on a nil schema and on no other; the
    form it builds posts, has no action, and takes its title and description
    from the schema. With properties, its fields are the properties bound to
    a schema, by name and in the order of the iteration; without, it has one
    field, which has no name. *)
Theorem ConvertSchemaToForm_shape :
  ConvertSchemaToForm None = Err "schema cannot be nil" ∧
  ∀ schema, ∃ form,
    ConvertSchemaToForm (Some schema) = Ok form ∧
    Form_Method form = "POST" ∧ Form_Action form = "" ∧
    Form_Title form = Schema_Title schema ∧
    Form_Description form = Schema_Description schema ∧
    match Schema_Properties schema with
    | Some properties =>
        Field_Name <$> Form_Fields form = presentKeys properties
    | None =>
        ∃ field, Form_Fields form = [field] ∧ Field_Name field = ""
    end.
Proof.
  split; [reflexivity|]. intros schema. unfold ConvertSchemaToForm.
  destruct (convertSchemaToField_total schema) as [_ Hproperties].
  destruct (Schema_Properties schema) as [properties|].
  - destruct (Hproperties properties eq_refl (Schema_Required schema))
      as (fields & Hfields & Hnames).
    rewrite Hfields. eexists. by repeat split.
  - destruct (convertSchemaToField_field "" schema) as [field E].
    rewrite E. eexists. repeat split. exists field. split; [done|].
    by eapply converted_name.
Qed.

(** X22. An object schema none of whose properties is bound to a schema
    converts, without error, to a form with no field, which [Validate]
    rejects as empty. *)
Theorem empty_object_converts_to_invalid_form schema properties :
  Schema_Properties schema = Some properties →
  presentKeys properties = [] →
  ∃ form,
    ConvertSchemaToForm (Some schema) = Ok form ∧
    Validate (Some form) = Some NoFields.
Proof.
  intros Hproperties Hkeys.
  destruct (convertSchemaToField_total schema) as [_ Htotal].
  destruct (Htotal properties Hproperties (Schema_Required schema))
    as (fields & Hfields & Hnames).
  unfold ConvertSchemaToForm. rewrite Hproperties, Hfields.
  eexists. split; [reflexivity|].
  rewrite Hkeys in Hnames. apply fmap_nil_inv in Hnames. by subst fields.
Qed.


Lemma InTree_inv f fields :
  InTree f fields →
  ∃ g, g ∈ fields ∧
       (f = g ∨ InTree f (Field_Fields g) ∨
        ∃ c, Field_Conditional g = Some c ∧
             (InTree f (ConditionalField_Then c) ∨
              InTree f (ConditionalField_Else c))).
Proof. destruct 1; eauto 10. Qed.

Lemma InTree_of f g fields :
  g ∈ fields →
  f = g ∨ InTree f (Field_Fields g) ∨
  (∃ c, Field_Conditional g = Some c ∧
        (InTree f (ConditionalField_Then c) ∨
         InTree f (ConditionalField_Else c))) →
  InTree f fields.
Proof.
  intros Hg [->|[Hn|(c & Hc & [Ht|He])]].
  - by apply InTree_here.
  - by eapply InTree_nested.
  - by eapply InTree_then.
  - by eapply InTree_else.
Qed.

Lemma kinds_recognised_nil : kinds_recognised [].
Proof.
  intros f Hf. apply InTree_inv in Hf as (g & Hg & _).
  by apply elem_of_nil in Hg.
Qed.

Lemma kinds_recognised_field g :
  kinds_recognised [g] ↔
  Field_Type g ∈ validTypes ∧
  kinds_recognised (Field_Fields g) ∧
  ∀ c, Field_Conditional g = Some c →
       kinds_recognised (ConditionalField_Then c) ∧
       kinds_recognised (ConditionalField_Else c).
Proof.
  split.
  - intros Hg. split; [apply Hg, InTree_here, list_elem_of_here|].
    split; [intros f Hf; apply Hg; eapply InTree_nested;
            [apply list_elem_of_here|done]|].
    intros c Hc. split; intros f Hf; apply Hg.
    + eapply InTree_then; [apply list_elem_of_here|done..].
    + eapply InTree_else; [apply list_elem_of_here|done..].
  - intros (Hkind & Hnested & Hcond) f Hf.
    apply InTree_inv in Hf as (g' & Hg' & Hf).
    apply list_elem_of_singleton in Hg' as ->.
    destruct Hf as [->|[Hf|(c & Hc & [Hf|Hf])]]; [done|by apply Hnested|..];
      destruct (Hcond c Hc) as [Hthen Helse]; [by apply Hthen|by apply Helse].
Qed.

Lemma kinds_recognised_cons g fields :
  kinds_recognised (g :: fields) ↔
  kinds_recognised [g] ∧ kinds_recognised fields.
Proof.
  split.
  - intros Hall. split; intros f Hf; apply Hall;
      apply InTree_inv in Hf as (g' & Hg' & Hf);
      apply (InTree_of f g'); try done.
    + apply list_elem_of_singleton in Hg' as ->. by left.
    + by right.
  - intros [Hg Hfields] f Hf.
    apply InTree_inv in Hf as (g' & Hg' & Hf).
    apply elem_of_cons in Hg' as [->|Hg'].
    + apply Hg. by apply (InTree_of f g); [left|].
    + apply Hfields. by apply (InTree_of f g').
Qed.

Lemma mapJSONTypeToFieldType_valid jsonType schema t :
  mapJSONTypeToFieldType jsonType schema = Ok t → t ∈ validTypes.
Proof.
  unfold mapJSONTypeToFieldType.
  repeat case_match; intros [= <-]; by_compute.
Qed.

Lemma determineFieldType_valid schema t :
  determineFieldType schema = Ok t → t ∈ validTypes.
Proof.
  unfold determineFieldType.
  destruct (GetType schema) as [[typeStr typeArray] [|]]; cbn [negb].
  - destruct (0 <? length typeArray)%nat;
      [|apply mapJSONTypeToFieldType_valid].
    destruct (firstNonNull typeArray);
      [apply mapJSONTypeToFieldType_valid|intros [= <-]; by_compute].
  - repeat case_match; intros [= <-]; by_compute.
Qed.

Lemma converted_kind name schema field :
  convertSchemaToField name schema = Ok (Some field) →
  Field_Type field ∈ validTypes.
Proof.
  intros E.
  apply convertSchemaToField_inv in E
    as (t & conditional & Ht & _ & _ & (_ & Htype & _) & _).
  apply determineFieldType_valid in Ht. rewrite Htype.
  destruct (scalarField_Type_cases name schema t)
    as [(Hk & _)|[[Hk|[Hk|Hk]] _]]; rewrite Hk; [done|by_compute..].
Qed.


Lemma properties_recognised properties :
  Forall (λ kv, on_pointer converts_to_recognised kv.2) properties →
  ∀ required fields,
    convertPropertiesToFields properties required = Ok fields →
    kinds_recognised fields.
Proof.
  induction 1 as [|[name [propSchema|]] rest Hhead _ IH];
    intros required fields E.
  - injection E as <-. apply kinds_recognised_nil.
  - rewrite convertPropertiesToFields_cons in E.
    cbn [convertSchemaToFieldPtr] in E.
    destruct (convertSchemaToField name propSchema) as [[g|]|] eqn:Eg;
      [|by eapply IH|discriminate].
    destruct (convertPropertiesToFields rest required) as [fields'|] eqn:Er;
      [|discriminate].
    cbv zeta in E. injection E as <-.
    apply kinds_recognised_cons. split; [|by eapply IH].
    destruct (Hhead propSchema eq_refl) as [Hfield _].
    specialize (Hfield name g Eg).
    case_bool_decide; [|done].
    apply kinds_recognised_field. by apply kinds_recognised_field in Hfield.
  - rewrite convertPropertiesToFields_cons in E.
    cbn [convertSchemaToFieldPtr] in E. by eapply IH.
Qed.

Lemma branch_recognised (o : option Schema) fields :
  on_pointer converts_to_recognised o →
  match o with
  | Some t =>
      match Schema_Properties t with
      | Some properties =>
          convertPropertiesToFieldsWith convertSchemaToField properties
            (Schema_Required t)
      | None =>
          convertPropertiesToFieldsWith convertSchemaToField []
            (Schema_Required t)
      end
  | None => Ok []
  end = Ok fields →
  kinds_recognised fields.
Proof.
  destruct o as [t|]; [|intros _ [= <-]; apply kinds_recognised_nil].
  intros Ho. destruct (Ho t eq_refl) as [_ Hproperties].
  destruct (Schema_Properties t) as [properties|];
    [|intros [= <-]; apply kinds_recognised_nil].
  intros E. by eapply Hproperties.
Qed.

Lemma convertSchemaToField_recognised :
  ∀ schema, converts_to_recognised schema.
Proof.
  apply Schema_tree_ind. intros s Hproperties Hitems Hif Hthen Helse. split.
  - intros name field E. apply kinds_recognised_field.
    pose proof (converted_kind _ _ _ E) as Hkind.
    apply convertSchemaToField_inv in E
      as (t & conditional & _ & Hbuilt & Hcond & _ & _ & _ & Hchildren).
    split; [done|]. split.
    + destruct (bool_decide (t = FieldTypeObject)).
      * destruct (Schema_Properties s) as [properties|];
          [|rewrite Hchildren; apply kinds_recognised_nil].
        eapply properties_recognised; [by apply Hproperties|done].
      * destruct (bool_decide (t = FieldTypeArray));
          [|rewrite Hchildren; apply kinds_recognised_nil].
        destruct (Schema_Items s) as [items|];
          [|rewrite Hchildren; apply kinds_recognised_nil].
        destruct Hchildren as (itemField & Hitem & ->).
        destruct (Hitems items eq_refl) as [Hfield _]. by eapply Hfield.
    + clear Hchildren. intros c Hc. rewrite Hc in Hcond. subst conditional.
      unfold buildConditionalField in Hbuilt.
      destruct (Schema_If s) as [ifSchema|]; [|discriminate].
      unfold buildConditionalFieldWith in Hbuilt. cbv zeta in Hbuilt.
      match type of Hbuilt with
      | match ?a with Ok _ => _ | Err _ => _ end = _ =>
          destruct a as [thenFields|] eqn:Ethen; [|discriminate]
      end.
      match type of Hbuilt with
      | match ?a with Ok _ => _ | Err _ => _ end = _ =>
          destruct a as [elseFields|] eqn:Eelse; [|discriminate]
      end.
      case_bool_decide; [discriminate|]. injection Hbuilt as <-.
      cbn [ConditionalField_Then ConditionalField_Else].
      split; [exact (branch_recognised _ _ Hthen Ethen)
             |exact (branch_recognised _ _ Helse Eelse)].
  - intros properties required fields Hp E.
    eapply properties_recognised; [by apply Hproperties|done].
Qed.

Lemma rangeFields_unknown_kind mkpath fields :
  Forall unknown_kind_spec fields →
  ∀ i names p k,
    rangeFields validateField mkpath fields i names = Some (InvalidType p k) →
    ∃ f, InTree f fields ∧ Field_Type f = k ∧ k ∉ validTypes.
Proof.
  induction 1 as [|field rest Hfield _ IH]; intros i names p k E; [done|].
  rewrite rangeFields_cons in E.
  destruct (validateField field names (mkpath i)) as [[e|] names'] eqn:Ev.
  - injection E as ->.
    destruct (Hfield names (mkpath i) p k) as (f & Hf & Hk);
      [by rewrite Ev|].
    exists f. split; [|done].
    apply InTree_inv in Hf as (g & Hg & Hf).
    apply list_elem_of_singleton in Hg as ->.
    by apply (InTree_of f field); [left|].
  - destruct (IH _ _ _ _ E) as (f & Hf & Hk). exists f. split; [|done].
    apply InTree_inv in Hf as (g & Hg & Hf).
    by apply (InTree_of f g); [right|].
Qed.

Lemma validateField_unknown_kind : ∀ field, unknown_kind_spec field.
Proof.
  apply (Field_tree_ind unknown_kind_spec unknown_kind_in_branch).
  - intros field Hnested Hcond names path p k.
    rewrite validateField_fst. intros E.
    apply ensure_Some in E as [E|E];
      [by apply validateFieldName_Some in E as [? _]|].
    apply ensure_Some in E as [E|E]; [by case_match|].
    apply ensure_Some in E as [E|E].
    { unfold validateFieldType in E.
      case_bool_decide as Hk; [done|]. injection E as <- <-.
      exists field. split; [apply InTree_here, list_elem_of_here|done]. }
    apply ensure_Some in E as [E|E];
      [by apply validateFieldTypeConstraints_Some in E as [? _]|].
    apply ensure_Some in E as [E|E];
      [by apply validateValidationRules_Some in E as [? _]|].
    apply ensure_Some in E as [E|E].
    { destruct (Field_Conditional field) as [c|] eqn:Ec; [|done].
      destruct (Hcond c eq_refl _ _ _ _ E) as (f & Hf & Hk).
      exists f. split; [|done].
      apply (InTree_of f field); [apply list_elem_of_here|]. eauto 6. }
    destruct (0 <? length (Field_Fields field))%nat; [|done].
    destruct (negb (is_container (Field_Type field))); [done|].
    destruct (rangeFields_unknown_kind _ _ Hnested _ _ _ _ E)
      as (f & Hf & Hk).
    exists f. split; [|done].
    apply (InTree_of f field); [apply list_elem_of_here|]. eauto.
  - intros c Hthen Helse names path p k.
    rewrite validateConditionalField_eq. intros E.
    case_bool_decide; [done|].
    destruct (negb (bool_decide _)); [done|].
    apply ensure_Some in E as [E|E].
    + destruct (rangeFields_unknown_kind _ _ Hthen _ _ _ _ E)
        as (f & Hf & Hk). eauto.
    + destruct (rangeFields_unknown_kind _ _ Helse _ _ _ _ E)
        as (f & Hf & Hk). eauto.
Qed.

(** X23. Every field of a form the converter builds, at any depth, has a
    kind the validation engine recognises: [Validate] never reports an
    invalid field type on a converted form. *)
Theorem converted_kinds_recognised schema form :
  ConvertSchemaToForm (Some schema) = Ok form →
  (∀ f, InTree f (Form_Fields form) → Field_Type f ∈ validTypes) ∧
  (∀ p k, Validate (Some form) ≠ Some (InvalidType p k)).
Proof.
  intros E.
  assert (kinds_recognised (Form_Fields form)) as Hkinds.
  { unfold ConvertSchemaToForm in E.
    destruct (convertSchemaToField_recognised schema) as [Hfield Hfields].
    destruct (Schema_Properties schema) as [properties|].
    - destruct (convertPropertiesToFields properties (Schema_Required schema))
        as [fields|] eqn:Ef; [|discriminate].
      injection E as <-. by eapply Hfields.
    - destruct (convertSchemaToField "" schema) as [[field|]|] eqn:Ef;
        [|injection E as <-; apply kinds_recognised_nil|discriminate].
      injection E as <-. by eapply Hfield. }
  split; [exact Hkinds|]. intros p k Hrun. unfold Validate in Hrun.
  destruct (length (Form_Fields form) =? 0)%nat; [discriminate|].
  apply ensure_Some in Hrun as [Hrun|Hrun].
  - unfold validateMethod in Hrun. by repeat case_match.
  - apply rangeFields_unknown_kind in Hrun as (f & Hf & Hk & Hunknown);
      [|apply Forall_forall; intros; apply validateField_unknown_kind].
    apply Hunknown. rewrite <- Hk. by apply Hkinds.
Qed.


Lemma itemBounds_keeps schema field v :
  Field_Validation field = Some v →
  ∃ w, Field_Validation (itemBounds schema field) = Some w ∧
       has_length_rules w = has_length_rules v ∧
       has_range_rules w = has_range_rules v.
Proof.
  intros Hv. unfold itemBounds, ensureValidation.
  destruct (present (Schema_MinItems schema)),
           (present (Schema_MaxItems schema));
    cbn [Field_Validation set_Validation]; rewrite ?Hv;
    eexists; (split; [reflexivity|]); by split.
Qed.

Lemma converted_bounds name schema field :
  convertSchemaToField name schema = Ok (Some field) →
  (present (Schema_MinLength schema) || present (Schema_MaxLength schema)
   || present (Schema_Minimum schema) || present (Schema_Maximum schema)
   || present (Schema_ExclusiveMinimum schema)
   || present (Schema_ExclusiveMaximum schema)
   || present (Schema_MultipleOf schema)) = true →
  ∃ v, Field_Validation field = Some v ∧
       has_length_rules v || has_range_rules v = true.
Proof.
  intros E Hkeyword.
  assert (∃ v, buildValidation (Some schema) = Some v ∧
               has_length_rules v || has_range_rules v = true) as Hbuilt.
  { rewrite buildValidation_closed. revert Hkeyword.
    destruct (Schema_MinLength schema), (Schema_MaxLength schema),
      (Schema_Minimum schema), (Schema_Maximum schema),
      (Schema_ExclusiveMinimum schema), (Schema_ExclusiveMaximum schema),
      (Schema_MultipleOf schema); intros Hkeyword;
      try discriminate Hkeyword; eexists; split; reflexivity. }
  destruct Hbuilt as (v & Hv & Hrules).
  apply convertSchemaToField_inv in E
    as (t & conditional & _ & _ & _ & _ & _ & Hvalidation & _).
  rewrite Hvalidation. destruct (bool_decide (t = FieldTypeArray)); [|eauto].
  destruct (itemBounds_keeps schema (scalarField name schema t) v)
    as (w & Hw & Hlength & Hrange); [by rewrite scalarField_Validation|].
  exists w. split; [done|]. by rewrite Hlength, Hrange.
Qed.

(** X24. The converter copies the length and number keywords of a schema
    beside its enum; the radio or select field it builds then carries bounds
    that the validation engine does not accept on a choice field. *)
Theorem bounds_beside_enum_rejected name schema :
  Schema_Enum schema ≠ [] →
  (present (Schema_MinLength schema) || present (Schema_MaxLength schema)
   || present (Schema_Minimum schema) || present (Schema_Maximum schema)
   || present (Schema_ExclusiveMinimum schema)
   || present (Schema_ExclusiveMaximum schema)
   || present (Schema_MultipleOf schema)) = true →
  ∃ field,
    convertSchemaToField name schema = Ok (Some field) ∧
    ∀ path, ∃ e,
      validateValidationRules (Field_Validation field) (Field_Type field) path
      = Some e ∧
      error_class e = ConstraintError ∧ error_path e = path.
Proof.
  intros Henum Hkeyword.
  destruct (convertSchemaToField_field name schema) as [field E].
  exists field. split; [done|]. intros path.
  destruct (converted_bounds _ _ _ E Hkeyword) as (v & Hv & Hrules).
  apply convertSchemaToField_inv in E
    as (t & conditional & _ & _ & _ & (_ & Htype & _) & _).
  destruct (scalarField_enum name schema t Henum) as [_ Hkind].
  rewrite Htype, Hkind, Hv.
  match goal with
  | |- ∃ e, ?run = Some e ∧ _ => destruct run as [e|] eqn:Erun
  end.
  - exists e. split; [done|]. by eapply validateValidationRules_Some.
  - apply validateValidationRules_None in Erun as [_ (_ & _ & _ & Hchoice)].
    destruct Hchoice as (Hlength & Hrange & _);
      [by destruct (length (Schema_Enum schema) <=? 3)%nat|].
    apply orb_true_iff in Hrules as [Hrules|Hrules];
      [destruct Hlength|destruct Hrange]; by rewrite Hrules.
Qed.

(** X25. Likewise for a text-like field: a schema that converts to one and
    has a number keyword gives a field the validation engine rejects. *)
Theorem number_keyword_on_text_rejected name schema field :
  convertSchemaToField name schema = Ok (Some field) →
  is_text_like (Field_Type field) →
  (present (Schema_Minimum schema) || present (Schema_Maximum schema)
   || present (Schema_ExclusiveMinimum schema)
   || present (Schema_ExclusiveMaximum schema)
   || present (Schema_MultipleOf schema)) = true →
  ∀ names path, ∃ e, (validateField field names path).1 = Some e.
Proof.
  intros E Htext Hkeyword names path.
  destruct (validateField field names path).1 as [e|] eqn:Ev; [by exists e|].
  apply validateField_spec in Ev as [_ Hok].
  apply FieldOk_iff in Hok as (_ & _ & _ & Hvalidation & _).
  assert (∃ v, Field_Validation field = Some v ∧ has_range_rules v = true)
    as (v & Hv & Hrange).
  { apply convertSchemaToField_inv in E
      as (t & conditional & _ & _ & _ & (_ & Htype & _) & _ & Hvalidation' & _).
    assert (bool_decide (t = FieldTypeArray) = false) as Harray.
    { apply bool_decide_eq_false. intros ->. rewrite Htype in Htext.
      destruct (scalarField_Type_cases name schema FieldTypeArray)
        as [(Hk & _)|[[Hk|[Hk|Hk]] _]]; by rewrite Hk in Htext. }
    rewrite Harray, buildValidation_closed in Hvalidation'.
    rewrite Hvalidation'. revert Hkeyword.
    destruct (Schema_MinLength schema), (Schema_MaxLength schema),
      (Schema_Minimum schema), (Schema_Maximum schema),
      (Schema_ExclusiveMinimum schema), (Schema_ExclusiveMaximum schema),
      (Schema_MultipleOf schema); intros Hkeyword;
      try discriminate Hkeyword; eexists; split; reflexivity. }
  destruct (Hvalidation v Hv) as [_ (Hrules & _)].
  destruct (Hrules Htext) as [Hno _]. destruct Hno. by rewrite Hrange.
Qed.

End Conversion_shape.

(** ** The entry point *)

Section Api_properties.
Context `{GoLib} `{JsonLib}.
Variable json_Unmarshal : list Byte.byte → result Schema.

(** X26. [FromJsonSchema] fails exactly when the decoder does, and with the
    decoder's error: the conversion adds no failure of its own. When the
    document decodes, the result is the conversion of the decoded schema, a
    form that posts. *)
Theorem FromJsonSchema_fails_only_on_decoding data :
  (∀ msg, FromJsonSchema json_Unmarshal data = Err msg ↔
          json_Unmarshal data = Err msg) ∧
  (∀ schema,
     json_Unmarshal data = Ok schema →
     ∃ form,
       FromJsonSchema json_Unmarshal data = Ok form ∧
       ConvertSchemaToForm (Some schema) = Ok form ∧
       Form_Method form = "POST").
Proof.
  unfold FromJsonSchema, Parse.
  destruct (json_Unmarshal data) as [schema|msg'] eqn:Edecoded.
  - destruct (proj2 ConvertSchemaToForm_total schema) as [form Hform].
    rewrite Hform. split; [by split|].
    intros ? [= <-]. exists form. split; [done|]. split; [done|].
    unfold ConvertSchemaToForm in Hform.
    destruct (Schema_Properties schema);
      [destruct (convertPropertiesToFields _ _); [|discriminate]
      |destruct (convertSchemaToField "" schema) as [[field|]|];
         [| |discriminate]];
      by injection Hform as <-.
  - split; [intros msg; split; by intros [= <-]|]. by intros schema.
Qed.

End Api_properties.

(** ** Instances *)

(** X1, an instance: the two fields called [name] below the object of the
    test suite. *)
Lemma duplicate_names_rejected_witness :
  ScopeIn [newField "name" FieldTypeText; newField "name" FieldTypeEmail]
    (Form_Fields nestedDuplicateForm) ∧
  ∃ e, Validate (Some nestedDuplicateForm) = Some e.
Proof.
  assert (ScopeIn [newField "name" FieldTypeText; newField "name" FieldTypeEmail]
            (Form_Fields nestedDuplicateForm)) as Hscope.
  { exact (ScopeIn_nested
             (set_Fields [newField "name" FieldTypeText;
                          newField "name" FieldTypeEmail]
                (newField "user" FieldTypeObject)) _
             (InTree_here _ _ (list_elem_of_here _ _))). }
  split; [exact Hscope|].
  apply (duplicate_names_rejected nestedDuplicateForm _ 0 1
           (newField "name" FieldTypeText) (newField "name" FieldTypeEmail)
           Hscope); [reflexivity|reflexivity|lia|reflexivity|discriminate].
Defined.

(** X2, an instance: the first field refers to the second. *)
Lemma unresolved_condition_rejected_witness :
  ∃ e, Validate (Some forwardReferenceForm) = Some e.
Proof.
  apply (unresolved_condition_rejected forwardReferenceForm
           (Form_Fields forwardReferenceForm) 0
           (set_Conditional (Some (mkConditionalField "later" ANil [] []))
              (newField "first" FieldTypeText))
           (mkConditionalField "later" ANil [] []));
    [apply ScopeIn_top|reflexivity|reflexivity|].
  right. intros j sibling Hj Hlookup.
  destruct j as [|j]; [|lia]. injection Hlookup as <-. discriminate.
Defined.

(** X3, an instance: the field of the then branch of the valid conditional
    form of the test suite. *)
Lemma accepted_tree_guarantees_witness :
  Validate (Some validConditionalForm) = None ∧
  NameOk (Field_Name (newField "then_field" FieldTypeText)) ∧
  Field_Type (newField "then_field" FieldTypeText) ∈ validTypes.
Proof.
  assert (Validate (Some validConditionalForm) = None) as Hvalid
    by (vm_compute; reflexivity).
  assert (InTree (newField "then_field" FieldTypeText)
            (Form_Fields validConditionalForm)) as Hin.
  { apply (InTree_then _
             (set_Conditional
                (Some (mkConditionalField "field1" ANil
                         [newField "then_field" FieldTypeText] []))
                (newField "field2" FieldTypeText))
             (mkConditionalField "field1" ANil
                [newField "then_field" FieldTypeText] []));
      [apply list_elem_of_further, list_elem_of_here|reflexivity|].
    apply InTree_here, list_elem_of_here. }
  split; [exact Hvalid|].
  destruct (accepted_tree_guarantees _ _ Hvalid Hin) as (Htype & Hname & _).
  split; [exact Hname|exact Htype].
Defined.

(** X4, an instance: a file field with crossed length bounds, below an
    object. *)
Lemma inconsistent_bounds_rejected_witness :
  ¬ BoundsOk crossedLengths ∧
  ∃ e, Validate (Some crossedForm) = Some e.
Proof.
  assert (¬ BoundsOk crossedLengths) as Hbad.
  { intros (_ & _ & Horder & _).
    specialize (Horder 5%Z 2%Z eq_refl eq_refl). lia. }
  split; [exact Hbad|].
  apply (inconsistent_bounds_rejected crossedForm crossedField crossedLengths);
    [|reflexivity|exact Hbad].
  apply (InTree_nested _
           (set_Fields [crossedField] (newField "upload" FieldTypeObject)));
    [apply list_elem_of_here|apply InTree_here, list_elem_of_here].
Defined.

(** X5, an instance: the child of [userField] carries the name of its
    parent, and a table that holds another name changes nothing. *)
Lemma verdict_independent_of_other_names_witness :
  (validateField userField {[ "other" ]} "fields[0]").1
  = (validateField userField ∅ "fields[0]").1.
Proof.
  apply verdict_independent_of_other_names.
  - split; intros Hin; exfalso; revert Hin; by_compute.
  - intros c Hc. discriminate Hc.
Defined.

(** X6, an instance: the duplicate below the object of the test suite. *)
Lemma violation_located_witness :
  Validate (Some nestedDuplicateForm)
  = Some (DuplicateName "fields[0].fields[1]" "name") ∧
  ∃ i suffix problem,
    (i < 1)%nat ∧
    "fields[0].fields[1]" = fieldsPath i ++ suffix ∧
    Error (DuplicateName "fields[0].fields[1]" "name")
    = fieldsPath i ++ suffix ++ ": " ++ problem.
Proof.
  assert (Validate (Some nestedDuplicateForm)
          = Some (DuplicateName "fields[0].fields[1]" "name")) as Hrun
    by (vm_compute; reflexivity).
  split; [exact Hrun|].
  destruct (violation_located _ _ Hrun) as [Hno|[Hno|Hat]];
    [discriminate Hno|discriminate Hno|exact Hat].
Defined.

(** X7, an instance: a hidden field with the same option twice. *)
Lemma options_unchecked_for_other_kinds_witness :
  validateFieldTypeConstraints hiddenWithOptions "fields[0]" = None.
Proof.
  apply options_unchecked_for_other_kinds;
    [reflexivity|reflexivity|reflexivity|discriminate].
Defined.

(** X8, an instance: length bounds on a date field. *)
Lemma bounds_free_for_other_kinds_witness :
  validateValidationRules (Some crossedLengths) FieldTypeDate "fields[0]" = None
  ↔ BoundsOk crossedLengths.
Proof.
  apply bounds_free_for_other_kinds;
    [reflexivity|reflexivity|discriminate|discriminate].
Defined.

(** X9, an instance: the int 1 and the string of its digit. *)
Lemma first_duplicate_option_reported_witness :
  validateFieldTypeConstraints mixedOptions "fields[0]"
  = Some (DuplicateOption "fields[0]" "1" 1).
Proof.
  apply (first_duplicate_option_reported mixedOptions
           [mkOption "One" (AInt 1)] (mkOption "Uno" (AString "1")) []);
    [exact I|reflexivity|apply NoDup_singleton|apply list_elem_of_here].
Defined.

(** X11, an instance: the const schema of the converter's tests. *)
Lemma const_becomes_hidden_witness :
  ∃ field,
    convertSchemaToField "token" constSchema = Ok (Some field) ∧
    Field_Type field = FieldTypeHidden ∧
    Field_Value field = AString "fixed-value" ∧
    Field_Options field = [].
Proof.
  apply (const_becomes_hidden "token" constSchema); [reflexivity|discriminate].
Defined.

(** X12, an instance: the enum of mixed values of the converter's tests. *)
Lemma enum_values_kept_in_order_witness :
  ∃ field,
    convertSchemaToField "choice" mixedEnumSchema = Ok (Some field) ∧
    Option_Value <$> Field_Options field
    = [AString "string"; AInt 42; ABool true] ∧
    Option_Label <$> Field_Options field
    = Sprint <$> [AString "string"; AInt 42; ABool true] ∧
    Field_Value field = ANil.
Proof.
  apply (enum_values_kept_in_order "choice" mixedEnumSchema). discriminate.
Defined.

(** X13, an instance: the same enum. *)
Lemma enum_field_options_valid_iff_witness :
  ∃ field,
    convertSchemaToField "choice" mixedEnumSchema = Ok (Some field) ∧
    ∀ path,
      validateFieldTypeConstraints field path = None ↔
      NoDup (Sprint <$> [AString "string"; AInt 42; ABool true]).
Proof.
  apply (enum_field_options_valid_iff "choice" mixedEnumSchema). discriminate.
Defined.

(** X16, an instance: an array of strings with one to five items. *)
Lemma array_items_and_bounds_witness :
  determineFieldType tagsSchema = Ok FieldTypeArray ∧
  ∃ field itemField v,
    convertSchemaToField "tags" tagsSchema = Ok (Some field) ∧
    Field_Fields field = [itemField] ∧ Field_Name itemField = "item" ∧
    Field_Validation field = Some v ∧ Validation_MinItems v = Some 1%Z.
Proof.
  assert (determineFieldType tagsSchema = Ok FieldTypeArray) as Harray
    by (vm_compute; reflexivity).
  split; [exact Harray|].
  destruct (array_items_and_bounds "tags" tagsSchema Harray)
    as (field & E & (itemField & _ & Hname & Hfields) & Hmin & _).
  destruct (Hmin 1%Z eq_refl) as (v & Hv & Hitems).
  exists field, itemField, v. repeat split; assumption.
Defined.

(** X17, an instance: the object with the property [name]. *)
Lemma children_of_containers_only_witness :
  determineFieldType nameSchema = Ok FieldTypeObject ∧
  convertSchemaToField "user" nameSchema
  = Ok (Some (set_Fields [newField "name" FieldTypeText]
                (newField "user" FieldTypeObject))) ∧
  Field_Name <$> [newField "name" FieldTypeText] = ["name"].
Proof.
  assert (determineFieldType nameSchema = Ok FieldTypeObject) as Hobject
    by (vm_compute; reflexivity).
  assert (convertSchemaToField "user" nameSchema
          = Ok (Some (set_Fields [newField "name" FieldTypeText]
                        (newField "user" FieldTypeObject)))) as E
    by (vm_compute; reflexivity).
  split; [exact Hobject|]. split; [exact E|].
  exact (proj1 (children_of_containers_only _ _ _ _ Hobject E) eq_refl).
Defined.

(** X18, an instance: the same object with an enum beside its properties. *)
Lemma enum_on_container_rejected_witness :
  determineFieldType enumObjectSchema = Ok FieldTypeObject ∧
  ∃ field,
    convertSchemaToField "user" enumObjectSchema = Ok (Some field) ∧
    (Field_Type field = FieldTypeRadio ∨ Field_Type field = FieldTypeSelect ∨
     Field_Type field = FieldTypeHidden) ∧
    Field_Fields field ≠ [] ∧
    ∀ names path, ∃ e, (validateField field names path).1 = Some e.
Proof.
  assert (determineFieldType enumObjectSchema = Ok FieldTypeObject) as Hobject
    by (vm_compute; reflexivity).
  split; [exact Hobject|].
  apply (enum_on_container_rejected "user" enumObjectSchema);
    [left; discriminate|].
  left. split; [exact Hobject|discriminate].
Defined.

(** X19, an instance: a string schema with an [if] on [country] and a
    [then] that adds [state]. *)
Lemma converted_conditional_witness :
  convertSchemaToField "address" countrySchema
  = Ok (Some (set_Conditional (Some countryCondition)
                (newField "address" FieldTypeText))) ∧
  ConditionalField_Condition countryCondition ≠ "" ∧
  ∀ names path,
    validateConditionalField countryCondition names path
    ≠ Some (ConditionEmpty path).
Proof.
  assert (convertSchemaToField "address" countrySchema
          = Ok (Some (set_Conditional (Some countryCondition)
                        (newField "address" FieldTypeText)))) as E
    by (vm_compute; reflexivity).
  split; [exact E|].
  destruct (converted_conditional _ _ _ countryCondition E eq_refl)
    as (_ & Hne & _ & _ & _ & Hrun).
  split; [exact Hne|exact Hrun].
Defined.

(** X20, an instance: a nullable string. *)
Lemma union_type_first_non_null_witness :
  json_Unmarshal_string (Schema_Type nullableSchema) = None ∧
  json_Unmarshal_strings (Schema_Type nullableSchema)
  = Some ["null"; "string"] ∧
  determineFieldType nullableSchema
  = mapJSONTypeToFieldType "string" nullableSchema.
Proof.
  assert (json_Unmarshal_string (Schema_Type nullableSchema) = None)
    as Hstring by (vm_compute; reflexivity).
  assert (json_Unmarshal_strings (Schema_Type nullableSchema)
          = Some ["null"; "string"]) as Hlist by (vm_compute; reflexivity).
  split; [exact Hstring|]. split; [exact Hlist|].
  apply (proj1 (union_type_first_non_null nullableSchema) ["null"] "string" []);
    [discriminate|exact Hstring|exact Hlist|by constructor|discriminate].
Defined.

(** X22, an instance: an object with an empty properties map. *)
Lemma empty_object_converts_to_invalid_form_witness :
  ∃ form,
    ConvertSchemaToForm (Some emptyObjectSchema) = Ok form ∧
    Validate (Some form) = Some NoFields.
Proof.
  apply (empty_object_converts_to_invalid_form emptyObjectSchema []);
    reflexivity.
Defined.

(** X23, an instance: the object with the property [name]. *)
Lemma converted_kinds_recognised_witness :
  (∀ f, InTree f [newField "name" FieldTypeText] →
        Field_Type f ∈ validTypes) ∧
  (∀ p k,
     Validate (Some (mkForm "" "" "" "POST" [newField "name" FieldTypeText]))
     ≠ Some (InvalidType p k)).
Proof.
  apply (converted_kinds_recognised nameSchema
           (mkForm "" "" "" "POST" [newField "name" FieldTypeText])).
  vm_compute. reflexivity.
Defined.

(** X24, an instance: an enum of two strings with a maximum length. *)
Lemma bounds_beside_enum_rejected_witness :
  ∃ field,
    convertSchemaToField "size" boundedEnumSchema = Ok (Some field) ∧
    ∀ path, ∃ e,
      validateValidationRules (Field_Validation field) (Field_Type field) path
      = Some e ∧
      error_class e = ConstraintError ∧ error_path e = path.
Proof.
  apply (bounds_beside_enum_rejected "size" boundedEnumSchema);
    [discriminate|reflexivity].
Defined.

(** X25, an instance: a string with a minimum. *)
Lemma number_keyword_on_text_rejected_witness :
  ∃ e,
    (validateField
       (set_Validation (Some (set_Min (Some 1%float) emptyValidation))
          (newField "age" FieldTypeText))
       ∅ "fields[0]").1 = Some e.
Proof.
  apply (number_keyword_on_text_rejected "age" rangedTextSchema);
    [vm_compute; reflexivity|exact I|reflexivity].
Defined.

(** ** The walk over a heap reads the form and writes to its own maps *)

Section Heap_runs.
Context `{GoLib}.

Lemma heap_extends_refl m names σ :
  σ !! m = Some (Heap.OMap names) → Heap.extends m names σ σ.
Proof. intros Hm. exists []. by rewrite app_nil_r, list_insert_id. Qed.

Lemma heap_extends_lookup m names σ σ' :
  (m < length σ)%nat → Heap.extends m names σ σ' →
  σ' !! m = Some (Heap.OMap names).
Proof.
  intros Hm [extra ->].
  rewrite lookup_app_l by (rewrite length_insert; lia).
  by apply list_lookup_insert_eq.
Qed.

Lemma heap_extends_trans m names1 names2 σ σ1 σ2 :
  (m < length σ)%nat →
  Heap.extends m names1 σ σ1 → Heap.extends m names2 σ1 σ2 →
  Heap.extends m names2 σ σ2.
Proof.
  intros Hm [extra1 E1] [extra2 E2].
  exists (extra1 ++ extra2)%list. rewrite E2, E1.
  rewrite insert_app_l by (rewrite length_insert; lia).
  by rewrite list_insert_insert_eq, <- app_assoc.
Qed.

Lemma heap_extends_fresh m names fresh σ σ' :
  σ !! m = Some (Heap.OMap names) →
  Heap.extends (length σ) fresh (σ ++ [Heap.OMap ∅])%list σ' →
  Heap.extends m names σ σ'.
Proof.
  intros Hm [extra E]. exists (Heap.OMap fresh :: extra). rewrite E.
  rewrite insert_app_r_alt by lia. rewrite Nat.sub_diag. simpl.
  rewrite <- app_assoc. simpl. by rewrite list_insert_id.
Qed.

Lemma heap_extends_frame m old names σ σ' :
  σ !! m = Some (Heap.OMap old) → Heap.extends m names σ σ' →
  Heap.frame σ σ'.
Proof.
  intros Hm [extra ->] a o Ha Ho.
  assert (a ≠ m) as Hne.
  { intros Heq. rewrite Heq, Hm in Ha. injection Ha as <-.
    by destruct (Ho old). }
  apply lookup_app_l_Some. by rewrite list_lookup_insert_ne.
Qed.

Lemma frame_int σ σ' p z :
  Heap.frame σ σ' → Heap.int_at σ p z → Heap.int_at σ' p z.
Proof.
  intros Hframe. destruct p as [a|], z as [z|]; try done.
  intros Ha. by apply Hframe.
Qed.

Lemma frame_float σ σ' p x :
  Heap.frame σ σ' → Heap.float_at σ p x → Heap.float_at σ' p x.
Proof.
  intros Hframe. destruct p as [a|], x as [x|]; try done.
  intros Ha. by apply Hframe.
Qed.

Lemma frame_validation σ σ' p v :
  Heap.frame σ σ' → Heap.validation_at σ p v → Heap.validation_at σ' p v.
Proof.
  intros Hframe. destruct p as [a|], v as [v|]; try done.
  intros (c & Ha & ? & ? & ? & ? & ? & ? & ? & ? & ? & ?).
  exists c. split; [by apply Hframe|].
  repeat split; eauto using frame_int, frame_float.
Qed.

Lemma frame_options σ σ' s options :
  Heap.frame σ σ' → Heap.options_at σ s options → Heap.options_at σ' s options.
Proof.
  intros Hframe. destruct s as [a|]; [|done]. intros Ha. by apply Hframe.
Qed.

Lemma frame_elements σ σ' cells fields :
  Forall field_framed fields → Heap.frame σ σ' →
  Heap.elements_at σ cells fields → Heap.elements_at σ' cells fields.
Proof.
  intros Hfields Hframe. revert cells.
  induction Hfields as [|field fields Hfield _ IH]; intros cells Hat;
    inversion Hat; subst; constructor; [by eapply Hfield|by apply IH].
Qed.

Lemma frame_fields σ σ' s fields :
  Forall field_framed fields → Heap.frame σ σ' →
  Heap.fields_at σ s fields → Heap.fields_at σ' s fields.
Proof.
  intros Hfields Hframe Hat. inversion Hat; subst; [constructor|].
  econstructor; [by apply Hframe|by eapply frame_elements].
Qed.

Lemma field_at_framed : ∀ field, field_framed field.
Proof.
  apply (Field_tree_ind field_framed conditional_framed).
  - intros field Hfields Hcond σ σ' cell Hat Hframe.
    inversion Hat; subst. constructor; try done.
    + by eapply frame_options.
    + by eapply frame_validation.
    + by eapply frame_fields.
    + destruct (Field_Conditional field) as [c|] eqn:Ec.
      * by eapply Hcond.
      * match goal with
        | Hc : Heap.conditional_at _ _ None |- _ => inversion Hc; constructor
        end.
  - intros c Hthen Helse σ σ' a Hat Hframe.
    inversion Hat; subst.
    econstructor; [by apply Hframe|done|done|..]; by eapply frame_fields.
Qed.


Lemma conditional_at_framed : ∀ c, conditional_framed c.
Proof.
  intros c σ σ' a Hat Hframe. inversion Hat; subst.
  econstructor; [by apply Hframe|done|done|..];
    (eapply frame_fields; [|done|done]);
    apply Forall_forall; intros; apply field_at_framed.
Qed.

Lemma frame_app σ extra : Heap.frame σ (σ ++ extra).
Proof. intros a o Ha _. by apply lookup_app_l_Some. Qed.

Lemma load_runs σ a o :
  σ !! a = Some o → Heap.load a σ = Some (o, σ).
Proof. intros Ha. unfold Heap.load. by rewrite Ha. Qed.

Lemma contains_runs σ m names key :
  σ !! m = Some (Heap.OMap names) →
  Heap.contains m key σ = Some (bool_decide (key ∈ names), σ).
Proof.
  intros Hm. unfold Heap.contains, Heap.bind. by rewrite (load_runs _ _ _ Hm).
Qed.

Lemma duplicate_runs σ m names name :
  σ !! m = Some (Heap.OMap names) →
  (if negb (bool_decide (name = ""))
   then Heap.contains m name else Heap.ret false) σ
  = Some (negb (bool_decide (name = "")) && bool_decide (name ∈ names), σ).
Proof.
  intros Hm. destruct (negb (bool_decide (name = ""))); [|done].
  by apply contains_runs.
Qed.

Lemma register_runs σ m names name :
  σ !! m = Some (Heap.OMap names) →
  (if negb (bool_decide (name = ""))
   then Heap.put m name else Heap.ret tt) σ
  = Some (tt, <[m := Heap.OMap (register name names)]> σ).
Proof.
  intros Hm. unfold register. case_bool_decide; cbn [negb].
  - by rewrite list_insert_id.
  - unfold Heap.put, Heap.bind, Heap.store. rewrite (load_runs _ _ _ Hm).
    rewrite bool_decide_eq_true_2; [done|]. by eapply lookup_lt_Some.
Qed.

Lemma loadInt_runs σ p z :
  Heap.int_at σ p z → Heap.loadInt p σ = Some (z, σ).
Proof.
  destruct p as [a|], z as [z|]; try done. intros Ha.
  unfold Heap.loadInt, Heap.bind. by rewrite (load_runs _ _ _ Ha).
Qed.

Lemma loadFloat_runs σ p x :
  Heap.float_at σ p x → Heap.loadFloat p σ = Some (x, σ).
Proof.
  destruct p as [a|], x as [x|]; try done. intros Ha.
  unfold Heap.loadFloat, Heap.bind. by rewrite (load_runs _ _ _ Ha).
Qed.

Lemma loadValidation_runs σ p v :
  Heap.validation_at σ p v → Heap.loadValidation p σ = Some (v, σ).
Proof.
  destruct p as [a|], v as [v|]; try done.
  intros (c & Ha & Hreq & Hminl & Hmaxl & Hmin & Hmax & Hpat & Hpe & Hstep
          & Hmini & Hmaxi).
  unfold Heap.loadValidation, Heap.bind. rewrite (load_runs _ _ _ Ha).
  rewrite (loadInt_runs _ _ _ Hminl), (loadInt_runs _ _ _ Hmaxl),
    (loadFloat_runs _ _ _ Hmin), (loadFloat_runs _ _ _ Hmax),
    (loadFloat_runs _ _ _ Hstep), (loadInt_runs _ _ _ Hmini),
    (loadInt_runs _ _ _ Hmaxi), Hreq, Hpat, Hpe.
  by destruct v.
Qed.

Lemma loadOptions_runs σ s options :
  Heap.options_at σ s options → Heap.loadOptions s σ = Some (options, σ).
Proof.
  destruct s as [a|]; [|by intros ->]. intros Ha.
  unfold Heap.loadOptions, Heap.bind. by rewrite (load_runs _ _ _ Ha).
Qed.

Lemma loadFields_runs σ s fields :
  Heap.fields_at σ s fields →
  ∃ cells, Heap.loadFields s σ = Some (cells, σ) ∧
           Heap.elements_at σ cells fields.
Proof.
  inversion 1 as [|a cells fields' Ha Hcells]; subst.
  - exists []. split; [done|constructor].
  - exists cells. split; [|done].
    unfold Heap.loadFields, Heap.bind. by rewrite (load_runs _ _ _ Ha).
Qed.

Lemma elements_at_length σ cells fields :
  Heap.elements_at σ cells fields → length cells = length fields.
Proof. induction 1; simpl; congruence. Qed.

Lemma validateFieldTypeConstraints_ext f g path :
  Field_Type f = Field_Type g → Field_Options f = Field_Options g →
  validateFieldTypeConstraints f path = validateFieldTypeConstraints g path.
Proof.
  intros Ht Ho. unfold validateFieldTypeConstraints, has_options.
  by rewrite Ht, Ho.
Qed.

Lemma validateField_table field names path :
  (validateField field names path).2
  = match validateFieldName (Field_Name field) path with
    | Some _ => names
    | None =>
        if negb (bool_decide (Field_Name field = ""))
           && bool_decide (Field_Name field ∈ names)
        then names
        else register (Field_Name field) names
    end.
Proof.
  destruct field as [n t l d ph df v os vl ro dp fs cd ht].
  cbn [validateField Field_Name]. by repeat case_match.
Qed.

Lemma rangeFields_runs fields :
  Forall field_runs fields →
  ∃ n, ∀ fuel σ cells i m names mkpath,
    (n ≤ fuel)%nat →
    Heap.elements_at σ cells fields →
    σ !! m = Some (Heap.OMap names) →
    ∃ σ' names',
      Heap.rangeFields (Heap.validateField fuel) mkpath cells i m σ
      = Some (rangeFields validateField mkpath fields i names, σ') ∧
      Heap.extends m names' σ σ'.
Proof.
  induction 1 as [|field fields [n1 Hfield] Hfields [n2 IH]].
  - exists 0%nat. intros fuel σ cells i m names mkpath _ Hat Hm.
    inversion Hat; subst. exists σ, names. split; [done|].
    by apply heap_extends_refl.
  - exists (n1 `max` n2)%nat. intros fuel σ cells i m names mkpath Hfuel Hat Hm.
    inversion Hat as [|cell field' cells' fields' Hcell Hcells]; subst.
    assert (Hlt : (m < length σ)%nat) by (by eapply lookup_lt_Some).
    destruct (Hfield fuel σ cell m names (mkpath i) ltac:(lia) Hcell Hm)
      as (σ1 & E1 & Hext1).
    cbn [Heap.rangeFields]. unfold Heap.bind at 1. rewrite E1.
    rewrite rangeFields_cons.
    pose proof (heap_extends_lookup _ _ _ _ Hlt Hext1) as Hm1.
    destruct (validateField field names (mkpath i)) as [[e|] names1];
      cbn [fst snd] in *.
    + exists σ1, names1. by split.
    + assert (Heap.elements_at σ1 cells' fields) as Hcells1.
      { eapply frame_elements;
          [|exact (heap_extends_frame _ _ _ _ _ Hm Hext1)|done].
        apply Forall_forall. intros; apply field_at_framed. }
      destruct (IH fuel σ1 cells' (S i) m names1 mkpath ltac:(lia) Hcells1 Hm1)
        as (σ2 & names2 & E2 & Hext2).
      exists σ2, names2. split; [done|]. by eapply heap_extends_trans.
Qed.

Lemma fresh_runs fields :
  Forall field_runs fields →
  ∃ n, ∀ fuel σ cells m names mkpath,
    (n ≤ fuel)%nat →
    Heap.elements_at σ cells fields →
    σ !! m = Some (Heap.OMap names) →
    ∃ σ',
      Heap.bind Heap.make
        (λ fresh,
           Heap.rangeFields (Heap.validateField fuel) mkpath cells 0 fresh) σ
      = Some (rangeFields validateField mkpath fields 0 ∅, σ') ∧
      Heap.extends m names σ σ'.
Proof.
  intros Hfields. destruct (rangeFields_runs fields Hfields) as [n Hn].
  exists n. intros fuel σ cells m names mkpath Hfuel Hat Hm.
  unfold Heap.bind, Heap.make.
  assert (Heap.elements_at (σ ++ [Heap.OMap ∅]) cells fields) as Hat'.
  { eapply frame_elements; [|apply frame_app|done].
    apply Forall_forall. intros; apply field_at_framed. }
  destruct (Hn fuel (σ ++ [Heap.OMap ∅])%list cells 0%nat (length σ) ∅ mkpath
              Hfuel Hat') as (σ' & names' & E & Hext).
  { rewrite lookup_app_r by lia. by rewrite Nat.sub_diag. }
  exists σ'. split; [done|]. by eapply heap_extends_fresh.
Qed.

Lemma guarded_runs fields :
  Forall field_runs fields →
  ∃ n, ∀ fuel σ cells m names mkpath,
    (n ≤ fuel)%nat →
    Heap.elements_at σ cells fields →
    σ !! m = Some (Heap.OMap names) →
    ∃ σ',
      (if (0 <? length cells)%nat
       then Heap.bind Heap.make
              (λ fresh,
                 Heap.rangeFields (Heap.validateField fuel) mkpath cells 0
                   fresh)
       else Heap.ret None) σ
      = Some (rangeFields validateField mkpath fields 0 ∅, σ') ∧
      Heap.extends m names σ σ'.
Proof.
  intros Hfields. destruct (fresh_runs fields Hfields) as [n Hn].
  exists n. intros fuel σ cells m names mkpath Hfuel Hat Hm.
  destruct (0 <? length cells)%nat eqn:Hlen; [by eapply Hn|].
  inversion Hat; subst; [|done].
  exists σ. split; [done|]. by apply heap_extends_refl.
Qed.


Lemma validateField_runs : ∀ field, field_runs field.
Proof.
  apply (Field_tree_ind field_runs conditional_runs).
  - intros field Hfields Hcond.
    destruct (fresh_runs _ Hfields) as [n1 Hn1].
    assert (∃ n2, ∀ fuel σ a m names path,
              (n2 ≤ fuel)%nat →
              Heap.conditional_at σ a (Field_Conditional field) →
              σ !! m = Some (Heap.OMap names) →
              ∃ σ',
                Heap.validateConditionalField fuel a m path σ
                = Some (validateConditionalFieldPtr (Field_Conditional field)
                          names path, σ') ∧
                Heap.extends m names σ σ') as [n2 Hn2].
    { destruct (Field_Conditional field) as [c|]; [by apply Hcond|].
      exists 0%nat. intros fuel σ a m names path _ Hat Hm.
      inversion Hat; subst. exists σ. split; [done|].
      by apply heap_extends_refl. }
    exists (S (n1 `max` n2)). intros fuel σ cell m names path Hfuel Hat Hm.
    destruct fuel as [|fuel]; [lia|].
    assert (Hlt : (m < length σ)%nat) by (by eapply lookup_lt_Some).
    inversion Hat as [? ? Hname Htype _ _ _ _ _ Hoptions Hvalidation _ _
                      Hnested Hconditional _]; subst.
    rewrite validateField_fst, validateField_table.
    cbn [Heap.validateField]. rewrite Hname, Htype.
    destruct (validateFieldName (Field_Name field) path) as [err|];
      [exists σ; split; [done|by apply heap_extends_refl]|].
    unfold Heap.bind at 1. rewrite (duplicate_runs _ _ _ _ Hm).
    destruct (negb (bool_decide (Field_Name field = ""))
              && bool_decide (Field_Name field ∈ names));
      [exists σ; split; [done|by apply heap_extends_refl]|].
    unfold Heap.bind at 1. rewrite (register_runs _ _ _ _ Hm).
    set (names1 := register (Field_Name field) names).
    set (σ1 := <[m := Heap.OMap names1]> σ).
    assert (Hext1 : Heap.extends m names1 σ σ1)
      by (exists []; by rewrite app_nil_r).
    pose proof (heap_extends_lookup _ _ _ _ Hlt Hext1) as Hm1.
    pose proof (heap_extends_frame _ _ _ _ _ Hm Hext1) as Hframe1.
    clearbody σ1.
    destruct (validateFieldType (Field_Type field) path) as [err|];
      [by exists σ1|].
    unfold Heap.bind at 1, Heap.validateFieldTypeConstraints at 1.
    unfold Heap.bind at 1.
    rewrite (loadOptions_runs _ _ _ (frame_options _ _ _ _ Hframe1 Hoptions)).
    cbn [Heap.ret]. rewrite Hname, Htype.
    rewrite (validateFieldTypeConstraints_ext
               (set_Options (Field_Options field)
                  (newField (Field_Name field) (Field_Type field)))
               field path eq_refl eq_refl).
    destruct (validateFieldTypeConstraints field path) as [err|];
      [by exists σ1|].
    unfold Heap.bind at 1.
    rewrite (loadValidation_runs _ _ _
               (frame_validation _ _ _ _ Hframe1 Hvalidation)).
    destruct (validateValidationRules (Field_Validation field)
                (Field_Type field) path) as [err|]; [by exists σ1|].
    unfold Heap.bind at 1.
    assert (Heap.conditional_at σ1 (Heap.FieldStruct_Conditional cell)
              (Field_Conditional field)) as Hconditional1.
    { destruct (Field_Conditional field) as [c|] eqn:Ec.
      - by eapply conditional_at_framed.
      - inversion Hconditional; constructor. }
    destruct (Hn2 fuel σ1 _ m names1 path ltac:(lia) Hconditional1 Hm1)
      as (σ2 & E2 & Hext2).
    unfold Heap.validateConditionalField in E2. rewrite E2.
    assert (Hext12 : Heap.extends m names1 σ σ2)
      by (by eapply heap_extends_trans).
    destruct (validateConditionalFieldPtr (Field_Conditional field) names1
                path) as [err|]; [by exists σ2|].
    pose proof (heap_extends_lookup _ _ _ _ Hlt Hext12) as Hm2.
    pose proof (heap_extends_frame _ _ _ _ _ Hm Hext12) as Hframe2.
    assert (Heap.fields_at σ2 (Heap.FieldStruct_Fields cell)
              (Field_Fields field)) as Hnested2.
    { eapply frame_fields; [|exact Hframe2|done].
      apply Forall_forall. intros; apply field_at_framed. }
    destruct (loadFields_runs _ _ _ Hnested2) as (cells & Eload & Hcells).
    unfold Heap.bind at 1. rewrite Eload.
    rewrite (elements_at_length _ _ _ Hcells).
    destruct (0 <? length (Field_Fields field))%nat; [|by exists σ2].
    destruct (negb (is_container (Field_Type field))); [by exists σ2|].
    destruct (Hn1 fuel σ2 cells m names1 (nestedPath path) ltac:(lia)
                Hcells Hm2) as (σ3 & E3 & Hext3).
    exists σ3. split; [done|]. by eapply heap_extends_trans.
  - intros c Hthen Helse.
    destruct (guarded_runs _ Hthen) as [n1 Hn1].
    destruct (guarded_runs _ Helse) as [n2 Hn2].
    exists (n1 `max` n2)%nat. intros fuel σ a m names path Hfuel Hat Hm.
    assert (Hlt : (m < length σ)%nat) by (by eapply lookup_lt_Some).
    inversion Hat as [|a' cell c' Ha Hcondition _ Hthen_at Helse_at]; subst.
    rewrite validateConditionalField_eq.
    unfold Heap.validateConditionalField, Heap.validateConditionalFieldWith.
    unfold Heap.bind at 1. rewrite (load_runs _ _ _ Ha). rewrite Hcondition.
    destruct (bool_decide (ConditionalField_Condition c = ""));
      [exists σ; split; [done|by apply heap_extends_refl]|].
    unfold Heap.bind at 1. rewrite (contains_runs _ _ _ _ Hm).
    destruct (negb (bool_decide (ConditionalField_Condition c ∈ names)));
      [exists σ; split; [done|by apply heap_extends_refl]|].
    destruct (loadFields_runs _ _ _ Hthen_at) as (cells1 & Eload1 & Hcells1).
    unfold Heap.bind at 1. rewrite Eload1.
    destruct (Hn1 fuel σ cells1 m names (thenPath path) ltac:(lia) Hcells1 Hm)
      as (σ1 & E1 & Hext1).
    unfold Heap.bind at 1. rewrite E1.
    destruct (rangeFields validateField (thenPath path)
                (ConditionalField_Then c) 0 ∅) as [err|]; [by exists σ1|].
    pose proof (heap_extends_lookup _ _ _ _ Hlt Hext1) as Hm1.
    pose proof (heap_extends_frame _ _ _ _ _ Hm Hext1) as Hframe1.
    assert (Heap.fields_at σ1 (Heap.ConditionalStruct_Else cell)
              (ConditionalField_Else c)) as Helse1.
    { eapply frame_fields; [|exact Hframe1|done].
      apply Forall_forall. intros; apply field_at_framed. }
    destruct (loadFields_runs _ _ _ Helse1) as (cells2 & Eload2 & Hcells2).
    unfold Heap.bind at 1. rewrite Eload2.
    destruct (Hn2 fuel σ1 cells2 m names (elsePath path) ltac:(lia)
                Hcells2 Hm1) as (σ2 & E2 & Hext2).
    exists σ2. split; [done|]. by eapply heap_extends_trans.
Qed.


Lemma frame_form σ σ' a form :
  Heap.frame σ σ' → Heap.form_at σ a form → Heap.form_at σ' a form.
Proof.
  intros Hframe (cell & Ha & Htitle & Hdescription & Haction & Hmethod & Hat).
  exists cell. split; [by apply Hframe|]. repeat (split; [done|]).
  eapply frame_fields; [|done|done].
  apply Forall_forall. intros; apply field_at_framed.
Qed.

Lemma Validate_runs form :
  ∃ n, ∀ fuel σ a,
    (n ≤ fuel)%nat →
    Heap.form_at σ a form →
    ∃ extra,
      Heap.Validate fuel (Some a) σ
      = Some (Validate (Some form), (σ ++ extra)%list).
Proof.
  destruct (rangeFields_runs (Form_Fields form)) as [n Hn];
    [apply Forall_forall; intros; apply validateField_runs|].
  exists n. intros fuel σ a Hfuel (cell & Ha & _ & _ & _ & Hmethod & Hat).
  unfold Heap.Validate, Validate. unfold Heap.bind at 1.
  rewrite (load_runs _ _ _ Ha).
  destruct (loadFields_runs _ _ _ Hat) as (cells & Eload & Hcells).
  unfold Heap.bind at 1. rewrite Eload.
  rewrite (elements_at_length _ _ _ Hcells), Hmethod.
  destruct (length (Form_Fields form) =? 0)%nat;
    [exists []; by rewrite app_nil_r|].
  destruct (validateMethod (Form_Method form)) as [err|];
    [exists []; by rewrite app_nil_r|].
  unfold Heap.bind, Heap.make.
  assert (Heap.elements_at (σ ++ [Heap.OMap ∅]) cells (Form_Fields form))
    as Hcells'.
  { eapply frame_elements; [|apply frame_app|done].
    apply Forall_forall. intros; apply field_at_framed. }
  destruct (Hn fuel (σ ++ [Heap.OMap ∅])%list cells 0%nat (length σ) ∅
              fieldsPath Hfuel Hcells') as (σ' & names' & E & extra & ->).
  { rewrite lookup_app_r by lia. by rewrite Nat.sub_diag. }
  exists (Heap.OMap names' :: extra). rewrite E. do 2 f_equal.
  rewrite insert_app_r_alt by lia. rewrite Nat.sub_diag. simpl.
  by rewrite <- app_assoc.
Qed.

(** C7. [Validate] only reads the form. On a heap that holds a form, with
    whatever objects shared between its fields and whatever else beside it,
    a run with fuel enough returns what the form alone determines and leaves
    every object of the heap as and where it was, the objects of the form
    among them: it only appends the maps it allocates. A second run, on the
    heap the first has left, returns the same result. *)
Theorem Validate_is_read_only σ f form :
  Heap.form_at σ f form →
  ∃ n, ∀ fuel, (n ≤ fuel)%nat →
    ∃ maps maps',
      Heap.Validate fuel (Some f) σ
      = Some (Validate (Some form), (σ ++ maps)%list) ∧
      Heap.form_at (σ ++ maps) f form ∧
      Heap.Validate fuel (Some f) (σ ++ maps)%list
      = Some (Validate (Some form), ((σ ++ maps) ++ maps')%list).
Proof.
  intros Hat. destruct (Validate_runs form) as [n Hn].
  exists n. intros fuel Hfuel.
  destruct (Hn fuel σ f Hfuel Hat) as [maps E].
  assert (Heap.form_at (σ ++ maps) f form) as Hat'
    by (eapply frame_form; [apply frame_app|done]).
  destruct (Hn fuel (σ ++ maps)%list f Hfuel Hat') as [maps' E'].
  by exists maps, maps'.
Qed.

End Heap_runs.

Lemma sharedHeap_holds_sharedForm : Heap.form_at sharedHeap 0 sharedForm.
Proof.
  eexists. split; [reflexivity|]. do 4 (split; [reflexivity|]).
  eapply Heap.fields_at_array; [reflexivity|].
  repeat first
    [ apply Heap.elements_at_nil
    | apply Heap.elements_at_cons
    | apply Heap.fields_at_nil
    | apply Heap.conditional_at_nil
    | eapply Heap.conditional_at_object; [reflexivity|reflexivity|reflexivity|..]
    | eapply Heap.fields_at_array; [reflexivity|]
    | apply Heap.field_at_intro; try reflexivity ].
  all: eexists; split; [reflexivity|]; repeat split; reflexivity.
Defined.

(** C7, an instance: shared objects and an earlier map. *)
Lemma Validate_is_read_only_witness :
  Heap.form_at sharedHeap 0 sharedForm ∧
  ∃ n, ∀ fuel, (n ≤ fuel)%nat →
    ∃ maps maps',
      Heap.Validate fuel (Some 0%nat) sharedHeap
      = Some (Validate (Some sharedForm), (sharedHeap ++ maps)%list) ∧
      Heap.form_at (sharedHeap ++ maps) 0 sharedForm ∧
      Heap.Validate fuel (Some 0%nat) (sharedHeap ++ maps)%list
      = Some (Validate (Some sharedForm),
              ((sharedHeap ++ maps) ++ maps')%list).
Proof.
  split; [exact sharedHeap_holds_sharedForm|].
  exact (Validate_is_read_only sharedHeap 0 sharedForm
           sharedHeap_holds_sharedForm).
Defined.

Example heap_after_a_run :
  Heap.Validate 3 (Some 0%nat) sharedHeap
  = Some (None,
          (sharedHeap
           ++ [Heap.OMap {[ "first"; "second" ]}; Heap.OMap {[ "extra" ]}])%list).
Proof. vm_compute. reflexivity. Qed.
